(** * fp-ts-std: NonEmptyString, URLSearchParams and URLPath

    A shallow embedding of three modules of fp-ts-std and of the part of
    the JavaScript platform they are written against, followed by the
    properties their specification states.

    Conventions of the embedding.

    - A JavaScript string is a Rocq [string]; a character of the model is
      one byte of the string's UTF-8 encoding.  On ASCII text, which is all
      that the delimiters and the percent-encode sets of the URL Standard
      look at, a byte is a character; the case conversions, which map
      characters, read the bytes of a character together.
    - A JavaScript exception is a value: code that can throw returns a
      [Result].
    - [Option] and [Either] of fp-ts are Rocq's [option] and the [Either]
      type below.
    - Newtypes of newtype-ts are erased at run time; they are modelled by
      the one-field record [Newtype], so that a [NonEmptyString] is
      nominally distinct from a [string] while [pack] and [unpack] carry no
      check, as in the source. *)

From Stdlib Require Import Ascii String List NArith Bool Lia.
From stdpp Require Import gmap strings list sorting pretty.

Local Open Scope string_scope.

(** ** Exceptions, Either, Newtype *)

(** An [Error] object: its class, its [message] and, for an error made
    with the [cause] option, the text that the cause carries. *)
Inductive Error : Type :=
| TypeError (msg : string)
| PlainError (msg : string)
| CausedError (msg : string) (cause : string).

Inductive Result (A : Type) : Type :=
| Ok (a : A)
| Throw (e : Error).
Arguments Ok {A} a.
Arguments Throw {A} e.

Definition result_map {A B : Type} (f : A → B) (r : Result A) : Result B :=
  match r with
  | Ok a => Ok (f a)
  | Throw e => Throw e
  end.

Definition result_bind {A B : Type} (r : Result A) (f : A → Result B) : Result B :=
  match r with
  | Ok a => f a
  | Throw e => Throw e
  end.

Inductive Either (E A : Type) : Type :=
| left (e : E)
| right (a : A).
Arguments left {E A} e.
Arguments right {E A} a.

(** Modelled from the spec: [pack], [unpack] and [over] of ./Newtype are
    not under src/.  By the spec an operation unwraps to the underlying
    value, applies the plain operation and, for an endomorphism,
    re-wraps. *)
Record Newtype (A : Type) : Type := pack { unpack : A }.
Arguments pack {A} _.
Arguments unpack {A} _.

Definition over {A : Type} (f : A → A) (x : Newtype A) : Newtype A :=
  pack (f (unpack x)).

(** [over] when the function applied under the wrapper can throw. *)
Definition over_throwing {A : Type} (f : A → Result A) (x : Newtype A)
  : Result (Newtype A) :=
  result_map pack (f (unpack x)).

(** ** fp-ts/Option, fp-ts/Either and ./Option *)

Module O.

Definition fromPredicate {A : Type} (p : A → bool) (a : A) : option A :=
  if p a then Some a else None.

Definition map {A B : Type} (f : A → B) (o : option A) : option B :=
  match o with
  | Some a => Some (f a)
  | None => None
  end.

Definition filter {A : Type} (p : A → bool) (o : option A) : option A :=
  match o with
  | Some a => if p a then Some a else None
  | None => None
  end.

Definition getOrElse {A : Type} (d : unit → A) (o : option A) : A :=
  match o with
  | Some a => a
  | None => d tt
  end.

(** [O.tryCatch]: run a thunk, an exception becomes [None]. *)
Definition tryCatch {A : Type} (f : unit → Result A) : option A :=
  match f tt with
  | Ok a => Some a
  | Throw _ => None
  end.

(** [O.fromNullable]: the model of a nullable value is an [option]. *)
Definition fromNullable {A : Type} (a : option A) : option A := a.

Definition fromEither {E A : Type} (e : Either E A) : option A :=
  match e with
  | right a => Some a
  | left _ => None
  end.

(** Modelled from the spec: [unsafeUnwrap] of ./Option is not under src/.
    The spec calls the unsafe operations aborting; the tests of the
    sibling modules give the message. *)
Definition unsafeUnwrap {A : Type} (o : option A) : Result A :=
  match o with
  | Some a => Ok a
  | None => Throw (PlainError "Unwrapped `None`")
  end.

(** Modelled from the spec: [unsafeExpect] of ./Option is not under src/;
    it aborts on an absent value.  The tests of the sibling module
    (src/test/TaskEither.test.ts) give the convention of the unsafe
    operations: the message of the error is that of [unsafeUnwrap], and
    what [unsafeExpect] was given travels as the [cause] of the error. *)
Definition unsafeExpect {A : Type} (msg : string) (o : option A) : Result A :=
  match o with
  | Some a => Ok a
  | None => Throw (CausedError "Unwrapped `None`" msg)
  end.

End O.

Module E.

Definition map {E A B : Type} (f : A → B) (e : Either E A) : Either E B :=
  match e with
  | right a => right (f a)
  | left l => left l
  end.

Definition mapLeft {E F A : Type} (f : E → F) (e : Either E A) : Either F A :=
  match e with
  | right a => right a
  | left l => left (f l)
  end.

End E.

(** ** Characters *)

Definition code (c : ascii) : N := N_of_ascii c.

Definition in_range (lo hi : N) (c : ascii) : bool :=
  (lo <=? code c)%N && (code c <=? hi)%N.

Definition is_upper (c : ascii) : bool := in_range 65 90 c.
Definition is_lower (c : ascii) : bool := in_range 97 122 c.
Definition is_alpha (c : ascii) : bool := is_upper c || is_lower c.
Definition is_digit (c : ascii) : bool := in_range 48 57 c.
Definition is_alnum (c : ascii) : bool := is_alpha c || is_digit c.

Definition upper_char (c : ascii) : ascii :=
  if is_lower c then ascii_of_N (code c - 32) else c.
Definition lower_char (c : ascii) : ascii :=
  if is_upper c then ascii_of_N (code c + 32) else c.

Definition dquote : ascii := "034"%char.
Definition backslash : ascii := "092"%char.

Fixpoint string_map (f : ascii → ascii) (s : string) : string :=
  match s with
  | EmptyString => EmptyString
  | String c r => String (f c) (string_map f r)
  end.

Fixpoint string_flat_map (f : ascii → string) (s : string) : string :=
  match s with
  | EmptyString => EmptyString
  | String c r => f c +:+ string_flat_map f r
  end.

Fixpoint string_forallb (p : ascii → bool) (s : string) : bool :=
  match s with
  | EmptyString => true
  | String c r => p c && string_forallb p r
  end.

Fixpoint string_existsb (p : ascii → bool) (s : string) : bool :=
  match s with
  | EmptyString => false
  | String c r => p c || string_existsb p r
  end.

Fixpoint string_filter (p : ascii → bool) (s : string) : string :=
  match s with
  | EmptyString => EmptyString
  | String c r => if p c then String c (string_filter p r) else string_filter p r
  end.

(** The characters of a string: in UTF-8 a character is a leading byte
    and the continuation bytes (10xxxxxx) that follow it. *)
Definition is_continuation (c : ascii) : bool := in_range 128 191 c.

Definition starts_with_continuation (s : string) : bool :=
  match s with
  | String d _ => is_continuation d
  | EmptyString => false
  end.

Fixpoint utf8_chars (s : string) : list string :=
  match s with
  | EmptyString => []
  | String c r =>
    match utf8_chars r with
    | ch :: l =>
      if starts_with_continuation r then String c ch :: l
      else String c EmptyString :: ch :: l
    | [] => [String c EmptyString]
    end
  end.

(** A conversion that replaces every character by a string, which may
    depend on the characters before it (the nearest first) and after
    it. *)
Fixpoint map_chars (m : list string → string → list string → string)
    (before l : list string) : string :=
  match l with
  | [] => EmptyString
  | c :: r => m before c r +:+ map_chars m (c :: before) r
  end.

Definition hex_digit (n : N) : ascii :=
  if (n <? 10)%N then ascii_of_N (48 + n) else ascii_of_N (55 + n).


(** ** fp-ts/string and ./String *)

Module Str.

Definition isEmpty (s : string) : bool := String.eqb s "".

Definition size (s : string) : nat := String.length s.

(** [String.prototype.toUpperCase] and [toLowerCase] convert the string
    character by character with the case mappings of the Unicode
    Character Database (ECMA-262, 22.1.3.28 and 22.1.3.30).  The mapping
    of a character is a sequence of characters, so that the length of
    the string can change (the uppercase mapping of the sharp s is [SS]);
    the lowercase mapping can depend on the characters around (the final
    sigma).  The mappings are parameters of the model: [upper] gives the
    uppercase mapping of a character, [lower] the lowercase mapping of a
    character between the characters before and after it. *)
Definition toUpperCase (upper : string → string) (s : string) : string :=
  map_chars (fun _ c _ => upper c) [] (utf8_chars s).

Definition toLowerCase (lower : list string → string → list string → string)
    (s : string) : string :=
  map_chars lower [] (utf8_chars s).

(** [Semigroup] of fp-ts/string: concatenation. *)
Definition concat (a b : string) : string := a +:+ b.

(** [Eq] and [Ord] of fp-ts/string: [===] and [<] on strings. *)
Definition equals (a b : string) : bool := String.eqb a b.
Definition compare (a b : string) : comparison := String.compare a b.




(** Modelled from the spec: [head] and [last] of ./String are not under
    src/; by the spec they return a single character of a non-empty
    string, and the source unwraps an [Option] of them. *)
Definition head (s : string) : option string :=
  match s with
  | EmptyString => None
  | String c _ => Some (String c "")
  end.

Fixpoint last (s : string) : option string :=
  match s with
  | EmptyString => None
  | String c EmptyString => Some (String c "")
  | String _ r => last r
  end.

(** Modelled from the spec: [prepend], [append], [surround] and [reverse]
    of ./String are not under src/; each is the plain-string operation of
    its name. *)
Definition prepend (x s : string) : string := x +:+ s.
Definition append (x s : string) : string := s +:+ x.
Definition surround (x s : string) : string := x +:+ s +:+ x.
Definition reverse (s : string) : string := String.rev s.

(** [includes] of fp-ts/string is [s.includes(searchString)]: whether the
    search string occurs in [s] at some index, looked for from the
    start. *)
Fixpoint includes (search s : string) : bool :=
  String.prefix search s
  || match s with
     | EmptyString => false
     | String _ r => includes search r
     end.

End Str.

(** ** NonEmptyString (src/NonEmptyString.ts) *)

Module NonEmptyString.

Definition NonEmptyString : Type := Newtype string.

(** The invariant of the data model: length at least one. *)
Definition invariant (x : NonEmptyString) : Prop :=
  (1 ≤ String.length (unpack x))%nat.

Definition fromString (x : string) : option NonEmptyString :=
  O.map pack (O.fromPredicate (fun s => negb (Str.isEmpty s)) x).

Definition unsafeFromString (x : string) : Result NonEmptyString :=
  O.unsafeExpect "Failed to lift an empty string to NonEmptyString" (fromString x).

Definition unNonEmptyString (x : NonEmptyString) : string := unpack x.

Definition toString : NonEmptyString → string := unNonEmptyString.

Definition Eq_equals (x y : NonEmptyString) : bool :=
  Str.equals (unpack x) (unpack y).

Definition Ord_compare (x y : NonEmptyString) : comparison :=
  Str.compare (unpack x) (unpack y).

Definition Semigroup_concat (x y : NonEmptyString) : NonEmptyString :=
  pack (Str.concat (unpack x) (unpack y)).


Definition head : NonEmptyString → Result NonEmptyString :=
  over_throwing (fun s => O.unsafeUnwrap (Str.head s)).

Definition last : NonEmptyString → Result NonEmptyString :=
  over_throwing (fun s => O.unsafeUnwrap (Str.last s)).

Definition toUpperCase (upper : string → string)
  : NonEmptyString → NonEmptyString := over (Str.toUpperCase upper).

Definition toLowerCase (lower : list string → string → list string → string)
  : NonEmptyString → NonEmptyString := over (Str.toLowerCase lower).

Definition prepend (x : string) : NonEmptyString → NonEmptyString :=
  over (Str.prepend x).

Definition append (x : string) : NonEmptyString → NonEmptyString :=
  over (Str.append x).

Definition surround (x : string) : NonEmptyString → NonEmptyString :=
  over (Str.surround x).

Definition reverse : NonEmptyString → NonEmptyString := over Str.reverse.

Definition size (x : NonEmptyString) : nat := Str.size (toString x).

Definition includes (search : string) (x : NonEmptyString) : bool :=
  Str.includes search (toString x).

End NonEmptyString.


(** ** The platform: the URL Standard (WHATWG)

    [new URL(s)], the getters and setters of a URL object, and
    [URLSearchParams], as the URL Standard defines them.  The parser is the
    basic URL parser without a base URL: the state machine of the Standard,
    one function per state, each taking the input that remains.

    The host parser of the Standard (IDNA processing, IPv4 and IPv6
    literals) is a parameter [host_parser] of the model: it takes the
    [isOpaque] flag and the host text and returns the serialized host, or
    [None] for failure.  UTF-8 decoding of percent-decoded bytes is the
    identity of the byte model. *)

Module Platform.

(** *** Percent-encode sets *)

Definition one_of (s : string) (c : ascii) : bool :=
  string_existsb (Ascii.eqb c) s.

Definition c0_control_set (c : ascii) : bool :=
  (code c <=? 31)%N || (126 <? code c)%N.

Definition fragment_set (c : ascii) : bool :=
  c0_control_set c || one_of " <>`" c || Ascii.eqb c dquote.

Definition query_set (c : ascii) : bool :=
  c0_control_set c || one_of " #<>" c || Ascii.eqb c dquote.

Definition special_query_set (c : ascii) : bool :=
  query_set c || Ascii.eqb c "'".

Definition path_set (c : ascii) : bool :=
  query_set c || one_of "?^`{}" c.

Definition userinfo_set (c : ascii) : bool :=
  path_set c || one_of "/:;=@[]|" c || Ascii.eqb c backslash.

(** The application/x-www-form-urlencoded percent-encode set: everything
    but ASCII alphanumerics and [*-._]. *)
Definition urlencoded_set (c : ascii) : bool :=
  negb (is_alnum c || one_of "*-._" c).

Definition percent_encode_byte (c : ascii) : string :=
  String "%" (String (hex_digit (code c / 16))
    (String (hex_digit (code c mod 16)) "")).

Definition percent_encode_char (set : ascii → bool) (c : ascii) : string :=
  if set c then percent_encode_byte c else String c "".

Definition percent_encode (set : ascii → bool) (s : string) : string :=
  string_flat_map (percent_encode_char set) s.

Definition hex_value (c : ascii) : option N :=
  if is_digit c then Some (code c - 48)%N
  else if in_range 65 70 c then Some (code c - 55)%N
  else if in_range 97 102 c then Some (code c - 87)%N
  else None.

Definition hex_pair (h l : ascii) : option ascii :=
  match hex_value h, hex_value l with
  | Some a, Some b => Some (ascii_of_N (16 * a + b))
  | _, _ => None
  end.

Fixpoint percent_decode (s : string) : string :=
  match s with
  | EmptyString => EmptyString
  | String c r =>
    match r with
    | String h (String l r') =>
      match (if Ascii.eqb c "%" then hex_pair h l else None) with
      | Some b => String b (percent_decode r')
      | None => String c (percent_decode r)
      end
    | _ => String c (percent_decode r)
    end
  end.

(** *** URL records *)

Inductive Path : Type :=
| OpaquePath (s : string)
| PathList (segments : list string).

Record URL : Type := mkURL {
  scheme : string;
  username : string;
  password : string;
  host : option string;
  port : option N;
  path : Path;
  query : option string;
  fragment : option string
}.

Definition default_port (sch : string) : option N :=
  if String.eqb sch "ftp" then Some 21%N
  else if String.eqb sch "http" then Some 80%N
  else if String.eqb sch "https" then Some 443%N
  else if String.eqb sch "ws" then Some 80%N
  else if String.eqb sch "wss" then Some 443%N
  else None.

Definition is_special (sch : string) : bool :=
  String.eqb sch "file" || bool_decide (is_Some (default_port sch)).

Definition has_opaque_path (u : URL) : bool :=
  match path u with
  | OpaquePath _ => true
  | PathList _ => false
  end.

(** *** Input preparation *)

Definition is_c0_or_space (c : ascii) : bool := (code c <=? 32)%N.

Definition is_tab_or_newline (c : ascii) : bool :=
  Ascii.eqb c "009" || Ascii.eqb c "010" || Ascii.eqb c "013".

Fixpoint strip_leading (s : string) : string :=
  match s with
  | EmptyString => EmptyString
  | String c r => if is_c0_or_space c then strip_leading r else s
  end.

Fixpoint strip_trailing (s : string) : string :=
  match s with
  | EmptyString => EmptyString
  | String c r =>
    match strip_trailing r with
    | EmptyString => if is_c0_or_space c then EmptyString else String c EmptyString
    | r' => String c r'
    end
  end.

Definition remove_tab_newline (s : string) : string :=
  string_filter (fun c => negb (is_tab_or_newline c)) s.

(** *** Splitting helpers *)

(** The longest prefix without a stop character, and what follows it. *)
Fixpoint span_until (stop : ascii → bool) (s : string) : string * string :=
  match s with
  | EmptyString => (EmptyString, EmptyString)
  | String c r =>
    if stop c then (EmptyString, s)
    else let '(a, b) := span_until stop r in (String c a, b)
  end.

(** Split around the last character satisfying [p]. *)
Fixpoint split_last (p : ascii → bool) (s : string) : option (string * string) :=
  match s with
  | EmptyString => None
  | String c r =>
    match split_last p r with
    | Some (a, b) => Some (String c a, b)
    | None => if p c then Some (EmptyString, r) else None
    end
  end.

(** Split around the first character satisfying [p]. *)
Definition split_first (p : ascii → bool) (s : string) : option (string * string) :=
  match span_until p s with
  | (a, String _ b) => Some (a, b)
  | (_, EmptyString) => None
  end.

Fixpoint decimal_value (acc : N) (s : string) : N :=
  match s with
  | EmptyString => acc
  | String c r => decimal_value (10 * acc + (code c - 48))%N r
  end.

(** *** Scheme state *)

Fixpoint scheme_rest (s : string) : option (string * string) :=
  match s with
  | EmptyString => None
  | String c r =>
    if is_alnum c || one_of "+-." c then
      match scheme_rest r with
      | Some (b, rest) => Some (String (lower_char c) b, rest)
      | None => None
      end
    else if Ascii.eqb c ":" then Some (EmptyString, r)
    else None
  end.

(** Scheme start state and scheme state: the lower-cased scheme and the
    input after the colon; [None] leads to the no scheme state. *)
Definition scheme_state (s : string) : option (string * string) :=
  match s with
  | EmptyString => None
  | String c r =>
    if is_alpha c then
      match scheme_rest r with
      | Some (b, rest) => Some (String (lower_char c) b, rest)
      | None => None
      end
    else None
  end.

(** *** Path state *)

Definition is_single_dot (s : string) : bool :=
  let l := string_map lower_char s in
  String.eqb l "." || String.eqb l "%2e".

Definition is_double_dot (s : string) : bool :=
  let l := string_map lower_char s in
  String.eqb l ".." || String.eqb l ".%2e" || String.eqb l "%2e."
  || String.eqb l "%2e%2e".

Definition is_drive_letter (s : string) : bool :=
  match s with
  | String a (String b EmptyString) => is_alpha a && one_of ":|" b
  | _ => false
  end.

Definition is_normalized_drive_letter (s : string) : bool :=
  match s with
  | String a (String b EmptyString) => is_alpha a && Ascii.eqb b ":"
  | _ => false
  end.

Definition normalize_drive_letter (s : string) : string :=
  match s with
  | String a (String _ r) => String a (String ":" r)
  | _ => s
  end.

Definition shorten (sch : string) (p : list string) : list string :=
  match p with
  | [d] => if String.eqb sch "file" && is_normalized_drive_letter d then p else []
  | _ => removelast p
  end.

(** The end of a path segment: [buf] is the segment read, [at_slash]
    tells whether a slash ended it. *)
Definition push_segment (sch : string) (p : list string) (buf : string)
    (at_slash : bool) : list string :=
  if is_double_dot buf then
    (if at_slash then shorten sch p else shorten sch p ++ [EmptyString])
  else if is_single_dot buf then
    (if at_slash then p else p ++ [EmptyString])
  else if String.eqb sch "file" && bool_decide (p = []) && is_drive_letter buf
  then p ++ [normalize_drive_letter buf]
  else p ++ [buf].

Definition is_path_separator (sch : string) (c : ascii) : bool :=
  Ascii.eqb c "/" || (is_special sch && Ascii.eqb c backslash).

(** Path state.  With a state override (the pathname setter) [?] and [#]
    do not end the path.  Returns the path and the input from the [?] or
    [#] that ended it. *)
Fixpoint path_state (sch : string) (override : bool) (s : string)
    (buf : string) (p : list string) : list string * string :=
  match s with
  | EmptyString => (push_segment sch p buf false, EmptyString)
  | String c r =>
    if is_path_separator sch c then
      path_state sch override r EmptyString (push_segment sch p buf true)
    else if negb override && one_of "?#" c then
      (push_segment sch p buf false, s)
    else path_state sch override r (buf +:+ percent_encode_char path_set c) p
  end.

(** *** Query and fragment states *)

Definition query_encode (sch : string) (s : string) : string :=
  percent_encode (if is_special sch then special_query_set else query_set) s.

Definition fragment_encode (s : string) : string :=
  percent_encode fragment_set s.

(** From the [?] or [#] that ended the path to the end of the input. *)
Definition query_fragment_state (sch : string) (s : string)
  : option string * option string :=
  match s with
  | String c r =>
    if Ascii.eqb c "?" then
      let '(q, rest) := span_until (Ascii.eqb "#") r in
      (Some (query_encode sch q),
       match rest with
       | String _ f => Some (fragment_encode f)
       | EmptyString => None
       end)
    else (None, Some (fragment_encode r))
  | EmptyString => (None, None)
  end.

(** Path start state and what follows it, for a URL whose scheme,
    credentials, host and port are known. *)
Definition path_start_state (sch : string) (s : string) (buf : string)
  : Path * option string * option string :=
  if is_special sch then
    let s' := match s with
              | String c r => if is_path_separator sch c then r else s
              | EmptyString => s
              end in
    let '(p, rest) := path_state sch false s' buf [] in
    let '(q, f) := query_fragment_state sch rest in
    (PathList p, q, f)
  else
    match s with
    | EmptyString => (PathList [], None, None)
    | String c r =>
      if one_of "?#" c then
        let '(q, f) := query_fragment_state sch s in (PathList [], q, f)
      else
        let s' := if Ascii.eqb c "/" then r else s in
        let '(p, rest) := path_state sch false s' buf [] in
        let '(q, f) := query_fragment_state sch rest in
        (PathList p, q, f)
    end.

(** Opaque path state: up to the [?] or [#] that ends the path, every
    character is percent-encoded with the C0 control set, which leaves a
    space as it is, also before the [?] or [#]. *)
Fixpoint opaque_path_state (s : string) : string * string :=
  match s with
  | EmptyString => (EmptyString, EmptyString)
  | String c r =>
    if one_of "?#" c then (EmptyString, s)
    else
      let '(p, rest) := opaque_path_state r in
      (percent_encode_char c0_control_set c +:+ p, rest)
  end.

Definition invalid_URL {A : Type} : Result A := Throw (TypeError "Invalid URL").

Section Parser.

Variable host_parser : bool → string → option string.

(** *** Authority, host and port states *)

Fixpoint host_span (inside : bool) (s : string) : string * option string :=
  match s with
  | EmptyString => (EmptyString, None)
  | String c r =>
    if Ascii.eqb c ":" && negb inside then (EmptyString, Some r)
    else
      let inside' := if Ascii.eqb c "[" then true
                     else if Ascii.eqb c "]" then false else inside in
      let '(h, p) := host_span inside' r in (String c h, p)
  end.

Definition port_state (sch : string) (s : string) : Result (option N) :=
  if string_forallb is_digit s then
    if String.eqb s "" then Ok None
    else
      let n := decimal_value 0 s in
      if (65535 <? n)%N then invalid_URL
      else if bool_decide (default_port sch = Some n) then Ok None
      else Ok (Some n)
  else invalid_URL.

Definition is_authority_delimiter (sch : string) (c : ascii) : bool :=
  one_of "/?#" c || (is_special sch && Ascii.eqb c backslash).

Definition authority_state (sch : string) (s : string) : Result URL :=
  let '(auth, rest) := span_until (is_authority_delimiter sch) s in
  let '(cred, hostport) :=
    match split_last (Ascii.eqb "@") auth with
    | Some (c, h) => (Some c, h)
    | None => (None, auth)
    end in
  if bool_decide (is_Some cred) && String.eqb hostport "" then invalid_URL
  else
    let '(user, pass) :=
      match cred with
      | Some c =>
        match split_first (Ascii.eqb ":") c with
        | Some (u, p) => (u, p)
        | None => (c, EmptyString)
        end
      | None => (EmptyString, EmptyString)
      end in
    let '(h, port_text) := host_span false hostport in
    let finish (hst : string) (prt : option N) : Result URL :=
      let '(p, q, f) := path_start_state sch rest EmptyString in
      Ok (mkURL sch (percent_encode userinfo_set user)
            (percent_encode userinfo_set pass) (Some hst) prt p q f) in
    match port_text with
    | Some pt =>
      if String.eqb h "" then invalid_URL
      else
        match host_parser (negb (is_special sch)) h with
        | None => invalid_URL
        | Some hst => result_bind (port_state sch pt) (finish hst)
        end
    | None =>
      if is_special sch && String.eqb h "" then invalid_URL
      else
        match host_parser (negb (is_special sch)) h with
        | None => invalid_URL
        | Some hst => finish hst None
        end
    end.

(** *** File states *)

Definition is_slash (c : ascii) : bool :=
  Ascii.eqb c "/" || Ascii.eqb c backslash.

Definition file_finish (hst : string) (s : string) (buf : string) (start : bool)
  : Result URL :=
  let '(p, q, f) :=
    if start then path_start_state "file" s buf
    else
      let '(p, rest) := path_state "file" false s buf [] in
      let '(q, f) := query_fragment_state "file" rest in
      (PathList p, q, f) in
  Ok (mkURL "file" "" "" (Some hst) None p q f).

Definition file_host_state (s : string) : Result URL :=
  let '(buf, rest) := span_until (fun c => is_slash c || one_of "?#" c) s in
  if is_drive_letter buf then file_finish "" rest buf false
  else if String.eqb buf "" then file_finish "" rest "" true
  else
    match host_parser false buf with
    | None => invalid_URL
    | Some hst =>
      file_finish (if String.eqb hst "localhost" then "" else hst) rest "" true
    end.

Definition file_state (s : string) : Result URL :=
  match s with
  | String c r =>
    if is_slash c then
      match r with
      | String d r' =>
        if is_slash d then file_host_state r' else file_finish "" r "" false
      | EmptyString => file_finish "" r "" false
      end
    else file_finish "" s "" false
  | EmptyString => file_finish "" s "" false
  end.

(** *** The constructor [new URL(input)] *)

Fixpoint skip_slashes (s : string) : string :=
  match s with
  | String c r => if is_slash c then skip_slashes r else s
  | EmptyString => s
  end.

(** Scheme state, for a scheme that is not special: what follows the
    colon decides between an authority, a path and an opaque path. *)
Definition not_special_state (sch : string) (rest : string) : Result URL :=
  let hierarchical (r : string) : Result URL :=
    let '(p, rest') := path_state sch false r "" [] in
    let '(q, f) := query_fragment_state sch rest' in
    Ok (mkURL sch "" "" None None (PathList p) q f) in
  let opaque : Result URL :=
    let '(p, rest') := opaque_path_state rest in
    let '(q, f) := query_fragment_state sch rest' in
    Ok (mkURL sch "" "" None None (OpaquePath p) q f) in
  match rest with
  | String c r =>
    if Ascii.eqb c "/" then
      match r with
      | String d r' =>
        if Ascii.eqb d "/" then authority_state sch r' else hierarchical r
      | EmptyString => hierarchical r
      end
    else opaque
  | EmptyString => opaque
  end.

Definition URL_new (input : string) : Result URL :=
  let s := remove_tab_newline (strip_trailing (strip_leading input)) in
  match scheme_state s with
  | None => invalid_URL
  | Some (sch, rest) =>
    if String.eqb sch "file" then file_state rest
    else if is_special sch then authority_state sch (skip_slashes rest)
    else not_special_state sch rest
  end.

(** *** Serializers and getters *)

Definition port_text (p : option N) : string :=
  match p with
  | Some n => ":" +:+ pretty n
  | None => ""
  end.

(** The URL path serializer on a list of segments. *)
Definition join_path (l : list string) : string :=
  fold_right (fun seg acc => "/" +:+ seg +:+ acc) "" l.

Definition pathname (u : URL) : string :=
  match path u with
  | OpaquePath s => s
  | PathList l => join_path l
  end.

Definition search (u : URL) : string :=
  match query u with
  | None => ""
  | Some q => if String.eqb q "" then "" else "?" +:+ q
  end.

Definition hash (u : URL) : string :=
  match fragment u with
  | None => ""
  | Some f => if String.eqb f "" then "" else "#" +:+ f
  end.

Definition credentials_text (u : URL) : string :=
  if String.eqb (username u) "" && String.eqb (password u) "" then ""
  else
    username u
    +:+ (if String.eqb (password u) "" then "" else ":" +:+ password u)
    +:+ "@".

(** The URL serializer. *)
Definition href (u : URL) : string :=
  scheme u +:+ ":"
  +:+ match host u with
      | Some h => "//" +:+ credentials_text u +:+ h +:+ port_text (port u)
      | None =>
        match path u with
        | PathList (EmptyString :: _ :: _) => "/."
        | _ => ""
        end
      end
  +:+ pathname u
  +:+ match query u with Some q => "?" +:+ q | None => "" end
  +:+ match fragment u with Some f => "#" +:+ f | None => "" end.

Definition tuple_origin (u : URL) : string :=
  scheme u +:+ "://" +:+ default "" (host u) +:+ port_text (port u).

(** The serialization of the origin; an opaque origin serializes to
    ["null"]. *)
Definition origin (u : URL) : string :=
  if String.eqb (scheme u) "blob" then
    match URL_new (pathname u) with
    | Ok p =>
      if String.eqb (scheme p) "http" || String.eqb (scheme p) "https"
      then tuple_origin p else "null"
    | Throw _ => "null"
    end
  else if bool_decide (is_Some (default_port (scheme u))) then tuple_origin u
  else "null".

End Parser.

(** *** Setters *)

Definition with_path (p : Path) (u : URL) : URL :=
  mkURL (scheme u) (username u) (password u) (host u) (port u) p
    (query u) (fragment u).

Definition with_query (q : option string) (u : URL) : URL :=
  mkURL (scheme u) (username u) (password u) (host u) (port u) (path u)
    q (fragment u).

Definition with_fragment (f : option string) (u : URL) : URL :=
  mkURL (scheme u) (username u) (password u) (host u) (port u) (path u)
    (query u) f.

(** The pathname setter: nothing on an opaque path; otherwise the path
    is emptied and the value parsed from the path start state. *)
Definition set_pathname (v : string) (u : URL) : URL :=
  if has_opaque_path u then u
  else
    let s := remove_tab_newline v in
    let sch := scheme u in
    let p :=
      if is_special sch then
        let s' := match s with
                  | String c r => if is_path_separator sch c then r else s
                  | EmptyString => s
                  end in
        fst (path_state sch true s' "" [])
      else
        match s with
        | EmptyString =>
          if bool_decide (host u = None) then [EmptyString] else []
        | String c r =>
          fst (path_state sch true (if Ascii.eqb c "/" then r else s) "" [])
        end in
    with_path (PathList p) u.

(** The search setter: the empty string removes the query; otherwise a
    leading [?] is dropped and the value parsed from the query state.
    What the setters of the search and of the hash write is the query and
    the fragment.  (On a URL with an opaque path the platform, once it
    has removed the query or the fragment and neither is left, also
    removes the spaces that end the path; this is not part of the model,
    whose properties about such a URL are stated up to those spaces.  A
    [URLPath] has no opaque path.) *)
Definition set_search (v : string) (u : URL) : URL :=
  if String.eqb v "" then with_query None u
  else
    let input := match v with
                 | String c r => if Ascii.eqb c "?" then r else v
                 | EmptyString => v
                 end in
    with_query (Some (query_encode (scheme u) (remove_tab_newline input))) u.

(** The hash setter. *)
Definition set_hash (v : string) (u : URL) : URL :=
  if String.eqb v "" then with_fragment None u
  else
    let input := match v with
                 | String c r => if Ascii.eqb c "#" then r else v
                 | EmptyString => v
                 end in
    with_fragment (Some (fragment_encode (remove_tab_newline input))) u.

(** *** URLSearchParams: a list of name-value pairs *)

Definition URLSearchParams : Type := list (string * string).

(** Strict splitting, as in the Infra Standard. *)
Fixpoint split_on (p : ascii → bool) (s : string) : list string :=
  match s with
  | EmptyString => [EmptyString]
  | String c r =>
    if p c then EmptyString :: split_on p r
    else
      match split_on p r with
      | x :: xs => String c x :: xs
      | [] => [String c EmptyString]
      end
  end.

Definition plus_to_space (s : string) : string :=
  string_map (fun c => if Ascii.eqb c "+" then " "%char else c) s.

Definition urlencoded_decode (s : string) : string :=
  percent_decode (plus_to_space s).

(** The application/x-www-form-urlencoded parser. *)
Definition urlencoded_parse (s : string) : URLSearchParams :=
  flat_map
    (fun seq =>
       if String.eqb seq "" then []
       else
         let '(n, v) := match split_first (Ascii.eqb "=") seq with
                        | Some (n, v) => (n, v)
                        | None => (seq, EmptyString)
                        end in
         [(urlencoded_decode n, urlencoded_decode v)])
    (split_on (Ascii.eqb "&") s).

Definition urlencoded_encode_char (c : ascii) : string :=
  if Ascii.eqb c " " then "+"
  else percent_encode_char urlencoded_set c.

Definition urlencoded_encode (s : string) : string :=
  string_flat_map urlencoded_encode_char s.

(** The application/x-www-form-urlencoded serializer. *)
Fixpoint urlencoded_serialize (l : URLSearchParams) : string :=
  match l with
  | [] => ""
  | [(n, v)] => urlencoded_encode n +:+ "=" +:+ urlencoded_encode v
  | (n, v) :: r =>
    urlencoded_encode n +:+ "=" +:+ urlencoded_encode v +:+ "&"
    +:+ urlencoded_serialize r
  end.

(** [new URLSearchParams(init)] for a string [init]. *)
Definition URLSearchParams_of_string (init : string) : URLSearchParams :=
  urlencoded_parse
    match init with
    | String c r => if Ascii.eqb c "?" then r else init
    | EmptyString => init
    end.

Definition sp_get (k : string) (l : URLSearchParams) : option string :=
  snd <$> List.find (fun kv => String.eqb (fst kv) k) l.

Definition sp_getAll (k : string) (l : URLSearchParams) : list string :=
  snd <$> List.filter (fun kv => String.eqb (fst kv) k) l.

Definition sp_append (k v : string) (l : URLSearchParams) : URLSearchParams :=
  (l ++ [(k, v)])%list.

Definition sp_delete (k : string) (l : URLSearchParams) : URLSearchParams :=
  List.filter (fun kv => negb (String.eqb (fst kv) k)) l.

(** [set]: the first pair named [k] takes the value, the others are
    removed; without such a pair one is appended. *)
Fixpoint sp_set (k v : string) (l : URLSearchParams) : URLSearchParams :=
  match l with
  | [] => [(k, v)]
  | (k', v') :: r =>
    if String.eqb k' k then (k, v) :: sp_delete k r
    else (k', v') :: sp_set k v r
  end.

(** The [searchParams] getter: the query object of a URL holds the result
    of parsing its query.  (After the search setter the Standard parses
    the value given rather than the query it became; the two differ on a
    value with tabs or newlines only, which the setter drops.) *)
Definition searchParams (u : URL) : URLSearchParams :=
  urlencoded_parse (default "" (query u)).

(** *** Well-formed URL records

    What the parser and the setters leave in the path, the query and
    the fragment of a URL with a special scheme: characters that the
    state that wrote them does not percent-encode, and segments that are
    no dot segments. *)

Definition segment_char_ok (c : ascii) : bool :=
  negb (path_set c) && negb (is_slash c).

Definition query_char_ok (c : ascii) : bool := negb (special_query_set c).

Definition fragment_char_ok (c : ascii) : bool := negb (fragment_set c).

Definition clean_segment (s : string) : bool :=
  string_forallb segment_char_ok s
  && negb (is_single_dot s) && negb (is_double_dot s).

Definition wf (u : URL) : bool :=
  match path u with
  | PathList (s :: l) => forallb clean_segment (s :: l)
  | _ => false
  end
  && match query u with
     | Some q => string_forallb query_char_ok q
     | None => true
     end
  && match fragment u with
     | Some f => string_forallb fragment_char_ok f
     | None => true
     end.

End Platform.

(** ** fp-ts/Array, fp-ts/NonEmptyArray, fp-ts/Record, ./Array, ./Function *)

Module A.

(** [A.sort(O)] is [xs.slice().sort(O.compare)]: the outcome of sorting
    with a comparator, here by merging. *)
Definition sort {T : Type} (cmp : T → T → comparison) (xs : list T) : list T :=
  merge_sort (fun a b => cmp a b ≠ Gt) xs.

(** [A.getEq(E)]: same length and [E] at every index. *)
Definition getEq {T : Type} (eq : T → T → bool) (xs ys : list T) : bool :=
  Nat.eqb (length xs) (length ys)
  && forallb (fun xy => eq (fst xy) (snd xy)) (zip xs ys).

(** Modelled from the spec: [getDisorderedEq] of ./Array is not under
    src/.  The data model of the spec has the equality of query-parameter
    collections order-insensitive, and the example in the documentation of
    [Eq] in src/URLSearchParams.ts equates [a=1&b=2&a=3] with
    [b=2&a=3&a=1]; the function takes an [Ord]: the two arrays are sorted
    by it and compared index by index. *)
Definition getDisorderedEq {T : Type} (eq : T → T → bool)
    (cmp : T → T → comparison) (xs ys : list T) : bool :=
  getEq eq (sort cmp xs) (sort cmp ys).

End A.

Module NEA.

(** A [NonEmptyArray] is an array at run time. *)
Definition fromArray {T : Type} (xs : list T) : option (list T) :=
  match xs with
  | [] => None
  | _ :: _ => Some xs
  end.

(** [NEA.of]. *)
Definition of_ {T : Type} (x : T) : list T := [x].

(** [NEA.getSemigroup().concat] is [first.concat(second)]. *)
Definition concat {T : Type} (xs ys : list T) : list T := (xs ++ ys)%list.

End NEA.

Module R.

(** A record is a JavaScript object made by the literal [{}]: its own
    properties, and its prototype when an assignment replaced it.
    [proto = None] stands for [Object.prototype]. *)
Record JSRecord (V : Type) : Type := mkRecord {
  own : gmap string V;
  proto : option V
}.
Arguments mkRecord {V} _ _.
Arguments own {V} _.
Arguments proto {V} _.

Definition empty {V : Type} : JSRecord V := mkRecord ∅ None.

(** [has.call(r, k)], that is [Object.prototype.hasOwnProperty]. *)
Definition has {V : Type} (r : JSRecord V) (k : string) : bool :=
  bool_decide (is_Some (own r !! k)).

(** The assignment [r[k] = v] for an object [v] (the values here are
    arrays).  On the key [__proto__] it runs the setter that
    [Object.prototype] has for this name: the prototype of [r] becomes [v]
    and no own property is made. *)
Definition assign {V : Type} (r : JSRecord V) (k : string) (v : V) : JSRecord V :=
  if String.eqb k "__proto__" then mkRecord (own r) (Some v)
  else mkRecord (<[k := v]> (own r)) (proto r).

(** The read [r[k]]: an own property, or for [__proto__] the prototype.
    (Other inherited names are left out.) *)
Definition get {V : Type} (r : JSRecord V) (k : string) : option V :=
  match own r !! k with
  | Some v => Some v
  | None => if String.eqb k "__proto__" then proto r else None
  end.

(** [R.fromFoldableMap(M, A.Foldable)(ta, f)]: a reduce over the array
    with [r[k] = has.call(r, k) ? M.concat(r[k], b) : b]. *)
Definition fromFoldableMap {T V : Type} (concat : V → V → V)
    (ta : list T) (f : T → string * V) : JSRecord V :=
  foldl
    (fun r a =>
       let '(k, b) := f a in
       assign r k (match own r !! k with
                   | Some v => concat v b
                   | None => b
                   end))
    empty ta.

(** [R.isSubrecord(E)(me, that)]: every key of [me] is an own key of
    [that] with an [E]-equal value.  The keys visited are the own keys:
    this is the loop [for (k in me)] on a record whose prototype is
    [Object.prototype]. *)
Definition isSubrecord {V : Type} (eq : V → V → bool) (me that : JSRecord V) : bool :=
  forallb
    (fun kv =>
       match own that !! fst kv with
       | Some w => eq (snd kv) w
       | None => false
       end)
    (map_to_list (own me)).

(** [R.getEq(E)]. *)
Definition getEq {V : Type} (eq : V → V → bool) (x y : JSRecord V) : bool :=
  isSubrecord eq x y && isSubrecord eq y x.

End R.

(** Modelled from the spec: [when] of ./Function is not under src/; by the
    spec [toLeadingString] prefixes the question mark when the string is
    not empty and leaves the empty string. *)
Definition when {T : Type} (p : T → bool) (f : T → T) (x : T) : T :=
  if p x then f x else x.

(** ** URLSearchParams (src/URLSearchParams.ts) *)

Module Params.

Import Platform.

Definition empty : URLSearchParams := [].

Definition keys (x : URLSearchParams) : list string := fst <$> x.

Definition values (x : URLSearchParams) : list string := snd <$> x.

Definition isEmpty (u : URLSearchParams) : bool := Nat.eqb (length (keys u)) 0.

Definition fromString (x : string) : URLSearchParams := URLSearchParams_of_string x.

Definition toString (x : URLSearchParams) : string := urlencoded_serialize x.

Definition toLeadingString (xs : URLSearchParams) : string :=
  when (fun s => negb (Str.isEmpty s)) (Str.prepend "?") (toString xs).

Definition fromTuples (x : list (string * string)) : URLSearchParams := x.

Definition singleton (k v : string) : URLSearchParams := fromTuples [(k, v)].

(** [fromIterable] of ./Array, not under src/, makes an array of the
    entries the iterator yields. *)
Definition toTuples (x : URLSearchParams) : list (string * string) := x.

(** The keys of the record are visited in the order of [Str.Ord]. *)
Definition fromRecord (x : gmap string (list string)) : URLSearchParams :=
  fromTuples
    (flat_map (fun kv => (fun v => (fst kv, v)) <$> snd kv)
       (merge_sort (fun a b => Str.compare (fst a) (fst b) ≠ Gt) (map_to_list x))).

Definition toRecord (x : URLSearchParams) : R.JSRecord (list string) :=
  R.fromFoldableMap NEA.concat (toTuples x) (fun kv => (fst kv, NEA.of_ (snd kv))).

Definition Eq_equals (x y : URLSearchParams) : bool :=
  R.getEq (A.getDisorderedEq Str.equals Str.compare) (toRecord x) (toRecord y).

(** [new URLSearchParams(x)] copies the list; the values of this model
    are immutable. *)
Definition clone (x : URLSearchParams) : URLSearchParams := x.

(** [invoke] of ./Function, not under src/, calls the method of the given
    name: here [ps.get(k)] and [ps.getAll(k)]. *)
Definition lookupFirst (k : string) (ps : URLSearchParams) : option string :=
  O.fromNullable (sp_get k ps).

Definition lookup (k : string) (ps : URLSearchParams) : option (list string) :=
  NEA.fromArray (sp_getAll k ps).

Definition upsertAt (k v : string) (x : URLSearchParams) : URLSearchParams :=
  sp_set k v (clone x).

Definition appendAt (k v : string) (x : URLSearchParams) : URLSearchParams :=
  sp_append k v (clone x).

Definition deleteAt (k : string) (x : URLSearchParams) : URLSearchParams :=
  sp_delete k (clone x).

Definition size (x : URLSearchParams) : nat := length x.

End Params.

(** ** ./URL *)

Module URL.

Import Platform.

(** Modelled from the spec: [clone] of ./URL is not under src/.  The spec
    has it produce a deep, alias-free copy; the values of this model are
    immutable, so the copy of a URL is the URL. *)
Definition clone (u : URL) : URL := u.

(** Modelled from the spec: [parse] of ./URL is not under src/.  It parses
    an absolute URL and on failure applies the callback to the error the
    platform raised. *)
Definition parse {E : Type} (host_parser : bool → string → option string)
    (f : Error → E) (x : string) : Either E URL :=
  match URL_new host_parser x with
  | Ok u => right u
  | Throw e => left (f e)
  end.

(** Modelled from the spec: the accessors of ./URL are not under src/.
    Getters read the field; setters write it on a copy ([ensurePhonyBase]
    in src/ writes the search from the serialized parameters in the same
    way); a modifier composes get and set. *)
Definition getPathname (u : URL) : string := pathname u.
Definition setPathname (v : string) (u : URL) : URL := set_pathname v (clone u).
Definition modifyPathname (f : string → string) (u : URL) : URL :=
  setPathname (f (getPathname u)) u.

Definition getParams (u : URL) : URLSearchParams := searchParams u.
Definition setParams (ps : URLSearchParams) (u : URL) : URL :=
  set_search (Params.toString ps) (clone u).
Definition modifyParams (f : URLSearchParams → URLSearchParams) (u : URL) : URL :=
  setParams (f (getParams u)) u.

Definition getHash (u : URL) : string := hash u.
Definition setHash (v : string) (u : URL) : URL := set_hash v (clone u).
Definition modifyHash (f : string → string) (u : URL) : URL :=
  setHash (f (getHash u)) u.

Definition toString (u : URL) : string := href u.

(** Modelled from the spec: [Eq] of ./URL is not under src/.  By the spec
    the equality of URLs is string identity of the serialized form. *)
Definition Eq_equals (a b : URL) : bool := Str.equals (toString a) (toString b).

End URL.

(** ** URLPath (the second module of src/NonEmptyString.ts) *)

Module URLPath.

Import Platform.

Definition URLPath : Type := Newtype URL.

Definition phonyHost : string := "urlpath.fp-ts-std.samhh.com".

(** [new URL("https://urlpath.fp-ts-std.samhh.com")]; see
    [phonyBase_constructed] below. *)
Definition phonyBase : URL :=
  mkURL "https" "" "" (Some phonyHost) None (PathList [EmptyString]) None None.

Section WithHostParser.

Variable host_parser : bool → string → option string.

Definition ensurePhonyBase (x : URL) : URL :=
  set_hash (hash x)
    (set_search (Params.toString (searchParams x))
       (set_pathname (pathname x) (URL.clone phonyBase))).

Definition hasPhonyBase (x : URL) : bool :=
  String.eqb (origin host_parser x) (origin host_parser phonyBase).

(** A foreign value: a URL object or something else. *)
Inductive Foreign : Type :=
| ForeignURL (u : URL)
| ForeignOther.

(** [URL.isURL(u) && u.origin === phonyBase.origin]. *)
Definition isURLPath (u : Foreign) : bool :=
  match u with
  | ForeignURL x => String.eqb (origin host_parser x) (origin host_parser phonyBase)
  | ForeignOther => false
  end.

Definition clone : URLPath → URLPath := over URL.clone.

(** [new URL(x.href, phonyBase)]: the serialization of a URL is an
    absolute URL string, which the base does not take part in parsing. *)
Definition fromURL (x : URL) : Result URLPath :=
  result_map (fun u => pack (ensurePhonyBase u)) (URL_new host_parser (href x)).

Definition getPathname (x : URLPath) : string := URL.getPathname (unpack x).

Definition getParams (x : URLPath) : URLSearchParams := URL.getParams (unpack x).

Definition getHash (x : URLPath) : string := URL.getHash (unpack x).

Definition toURL {E : Type} (f : Error → E) (baseUrl : string) (x : URLPath)
  : Either E URL :=
  E.map
    (fun b =>
       URL.setHash (getHash x)
         (URL.setParams (getParams x)
            (URL.setPathname (getPathname x) b)))
    (URL.parse host_parser f baseUrl).

Definition toURLO (baseUrl : string) (x : URLPath) : option URL :=
  O.fromEither (toURL (fun e => e) baseUrl x).

Definition fromString (x : string) : Result URLPath :=
  result_map pack
    (O.getOrElse
       (fun _ => URL_new host_parser (origin host_parser phonyBase +:+ "/" +:+ x))
       (O.map Ok
          (O.filter hasPhonyBase
             (O.tryCatch
                (fun _ => URL_new host_parser (origin host_parser phonyBase +:+ x)))))).

End WithHostParser.

Definition fromPathname (x : string) : URLPath :=
  let y := URL.clone phonyBase in
  pack (set_pathname x y).

Definition toString (x : URLPath) : string :=
  let u := unpack x in pathname u +:+ search u +:+ hash u.

Definition modifyPathname (f : string → string) : URLPath → URLPath :=
  over (URL.modifyPathname f).

Definition setPathname (x : string) : URLPath → URLPath :=
  over (URL.setPathname x).

Definition modifyParams (f : URLSearchParams → URLSearchParams) : URLPath → URLPath :=
  over (URL.modifyParams f).

Definition setParams (x : URLSearchParams) : URLPath → URLPath :=
  over (URL.setParams x).

Definition modifyHash (f : string → string) : URLPath → URLPath :=
  over (URL.modifyHash f).

Definition setHash (x : string) : URLPath → URLPath :=
  over (URL.setHash x).

Definition Eq_equals (x y : URLPath) : bool :=
  URL.Eq_equals (unpack x) (unpack y).

(** The invariant of the data model: a [URLPath] is the placeholder base
    with a pathname, a query and a fragment of its own (and, after
    [fromString], possibly credentials), well formed as the platform
    leaves them.  [fromString_valid], [fromPathname_valid],
    [fromURL_valid] and the lemmas on the setters below show that the
    module establishes and keeps it. *)
Definition onPhonyBase (u : URL) : bool :=
  String.eqb (scheme u) (scheme phonyBase)
  && bool_decide (host u = host phonyBase)
  && bool_decide (port u = port phonyBase).

Definition valid (x : URLPath) : bool :=
  onPhonyBase (unpack x) && wf (unpack x).

End URLPath.

(** ** A host parser for plain hosts

    It instantiates the parameter [host_parser] where a concrete URL is
    evaluated.  A domain is an ASCII domain name, put in lower case and
    refused when it is empty or has a forbidden domain code point; an
    opaque host is refused on a forbidden host code point and otherwise
    percent-encoded.  It is less than the host parser of the Standard: no
    percent-decoding, no IDNA, no IP addresses. *)

Definition forbidden_host_code_point (c : ascii) : bool :=
  Platform.is_tab_or_newline c || Ascii.eqb c "000"
  || Platform.one_of " #/:<>?@[]^|" c || Ascii.eqb c backslash.

Definition forbidden_domain_code_point (c : ascii) : bool :=
  forbidden_host_code_point c || (code c <=? 31)%N || (127 <=? code c)%N
  || Ascii.eqb c "%".

Definition ascii_host_parser (isOpaque : bool) (h : string) : option string :=
  if isOpaque then
    if string_existsb forbidden_host_code_point h then None
    else Some (Platform.percent_encode Platform.c0_control_set h)
  else if String.eqb h "" || string_existsb forbidden_domain_code_point h
  then None
  else Some (string_map lower_char h).

(** ** Vocabulary of the statements and proofs *)


(** The order that [A.sort Str.compare] sorts by. *)
Definition str_le (a b : string) : Prop := Str.compare a b ≠ Gt.

(** One step of the reduce in [Params.toRecord]. *)
Definition toRecord_step (r : R.JSRecord (list string)) (kv : string * string)
  : R.JSRecord (list string) :=
  R.assign r (fst kv)
    (match R.own r !! fst kv with
     | Some v => NEA.concat v (NEA.of_ (snd kv))
     | None => NEA.of_ (snd kv)
     end).

Definition not_space (c : ascii) : bool := negb (Platform.is_c0_or_space c).

(** What the constructor does to the input that follows a prefix without
    spaces and controls. *)
Definition prep (t : string) : string :=
  Platform.remove_tab_newline (Platform.strip_trailing t).

(** The URL that the parser builds when [s] is the prepared input after
    the placeholder origin and a slash. *)
Definition parse_on_phonyBase (s : string) : Platform.URL :=
  let '(p, rest) := Platform.path_state "https" false s "" [] in
  let '(q, f) := Platform.query_fragment_state "https" rest in
  Platform.mkURL "https" "" "" (Some URLPath.phonyHost) None
    (Platform.PathList p) q f.

(** What the URL serializer writes after the path. *)
Definition href_tail (q f : option string) : string :=
  match q with Some q => String "?" q | None => "" end
  +:+ match f with Some f => String "#" f | None => "" end.

(** A query that the urlencoded serializer could have written. *)
Definition canonical_query (q : option string) : Prop :=
  match q with
  | None => True
  | Some q =>
    q ≠ "" ∧ Platform.urlencoded_serialize (Platform.urlencoded_parse q) = q
  end.

(** An input at which the path state stops. *)
Definition terminal (override : bool) (rest : string) : bool :=
  match rest with
  | EmptyString => true
  | String c _ => negb override && Platform.one_of "?#" c
  end.

(** The characters that the urlencoded serializer writes. *)
Definition urlencoded_out_ok (c : ascii) : bool :=
  is_alnum c || Platform.one_of "*-._+%" c.

Definition serialized_char_ok (c : ascii) : bool :=
  urlencoded_out_ok c || Platform.one_of "=&" c.

Definition pair_text (kv : string * string) : string :=
  Platform.urlencoded_encode (fst kv) +:+ "=" +:+ Platform.urlencoded_encode (snd kv).

(** For the examples: the serialization of a parsed [URLPath], and the
    pathname of the URL that [toURL] makes of a pathname. *)
Definition href_of (r : Result URLPath.URLPath) : Result string :=
  result_map (fun x => Platform.href (unpack x)) r.

Definition pathname_on (base path : string) : Either Error string :=
  E.map Platform.pathname
    (URLPath.toURL ascii_host_parser (fun e => e) base (URLPath.fromPathname path)).

(** [isURLPath] on the URL that a string parses to. *)
Definition isURLPath_of_string (s : string) : option bool :=
  match Platform.URL_new ascii_host_parser s with
  | Ok u => Some (URLPath.isURLPath ascii_host_parser (URLPath.ForeignURL u))
  | Throw _ => None
  end.

(** The order in which [Params.fromRecord] visits the entries of a record,
    and the pairs it makes of one entry. *)
Definition key_le (a b : string * list string) : Prop :=
  Str.compare (fst a) (fst b) ≠ Gt.

Definition record_tuples (kv : string * list string) : list (string * string) :=
  (fun v => (fst kv, v)) <$> snd kv.

(** A path that starts with a drive letter written with a bar, as in
    [/C|/x]: the path state of a [file] URL rewrites the bar to a
    colon. *)
Definition bar_drive_first (u : Platform.URL) : bool :=
  match Platform.path u with
  | Platform.PathList (s :: _) =>
    Platform.is_drive_letter s && negb (Platform.is_normalized_drive_letter s)
  | _ => false
  end.

(** Case mappings for the examples: the ASCII letters, the sharp s, whose
    uppercase mapping has two letters, and the capital sigma, whose
    lowercase mapping at the end of a word is the final sigma. *)
Definition sharp_s : string := String "195" (String "159" "").
Definition capital_sigma : string := String "206" (String "163" "").
Definition small_sigma : string := String "207" (String "131" "").
Definition final_sigma : string := String "207" (String "130" "").

Definition sample_upper (c : string) : string :=
  if String.eqb c sharp_s then "SS"
  else if String.eqb c small_sigma || String.eqb c final_sigma then capital_sigma
  else string_map upper_char c.

Definition sample_lower (before : list string) (c : string) (after : list string)
  : string :=
  if String.eqb c capital_sigma then
    match before, after with
    | _ :: _, [] => final_sigma
    | _, _ => small_sigma
    end
  else string_map lower_char c.

(** Case analysis on the 256 characters. *)
Ltac by_cases_on c :=
  destruct c as [[] [] [] [] [] [] [] []]; vm_compute;
  (done || intuition congruence).

Ltac unfold_onPhonyBase :=
  unfold URLPath.onPhonyBase in *;
  change (Platform.scheme URLPath.phonyBase) with "https" in *;
  change (Platform.host URLPath.phonyBase) with (Some URLPath.phonyHost) in *;
  change (Platform.port URLPath.phonyBase) with (@None N) in *.

Ltac unfold_setters :=
  unfold URLPath.setPathname, URLPath.setParams, URLPath.setHash,
    URLPath.modifyPathname, URLPath.modifyParams, URLPath.modifyHash,
    URLPath.getPathname, URLPath.getParams, URLPath.getHash, over,
    URL.setPathname, URL.setParams, URL.setHash,
    URL.modifyPathname, URL.modifyParams, URL.modifyHash,
    URL.getPathname, URL.getParams, URL.getHash, URL.clone in *;
  cbn [unpack] in *.

(** * Properties *)

(** ** Strings *)

Lemma string_app_cons (c : ascii) (s t : string) : String c s +:+ t = String c (s +:+ t).
Proof. reflexivity. Qed.

Lemma string_app_nil_l (s : string) : "" +:+ s = s.
Proof. reflexivity. Qed.

Lemma string_app_nil_r (s : string) : s +:+ "" = s.
Proof. induction s as [|c s IH]; [done|]. by rewrite string_app_cons, IH. Qed.

Lemma string_app_assoc (s t u : string) : (s +:+ t) +:+ u = s +:+ (t +:+ u).
Proof. induction s as [|c s IH]; [done|]. by rewrite !string_app_cons, IH. Qed.

Lemma string_length_app (s t : string) :
  String.length (s +:+ t) = (String.length s + String.length t)%nat.
Proof. induction s as [|c s IH]; [done|]. rewrite string_app_cons. simpl. by rewrite IH. Qed.

Lemma length_string_map (f : ascii → ascii) (s : string) :
  String.length (string_map f s) = String.length s.
Proof. induction s as [|c s IH]; simpl; congruence. Qed.

Lemma length_rev_app (s t : string) :
  String.length (String.rev_app s t) = (String.length s + String.length t)%nat.
Proof.
  revert t. induction s as [|c s IH]; intros t; simpl; [done|].
  rewrite IH. simpl. lia.
Qed.

Lemma length_zero_iff (s : string) : String.length s = 0%nat ↔ s = "".
Proof. destruct s; simpl; split; intros; congruence. Qed.

Lemma last_is_Some (c : ascii) (s : string) :
  ∃ d, Str.last (String c s) = Some (String d "").
Proof.
  revert c. induction s as [|c' s IH]; intros c.
  - by exists c.
  - destruct (IH c') as [d Hd]. exists d. simpl in *. exact Hd.
Qed.

(** ** NonEmptyString *)

Module NonEmptyStringFacts.

Import NonEmptyString.

(** C8.  [fromString s] is absent exactly when [s] is the empty string,
    and otherwise it is a wrapped value whose unwrapping is [s]. *)
Theorem fromString_spec (s : string) :
  match fromString s with
  | None => s = ""
  | Some x => s ≠ "" ∧ unNonEmptyString x = s
  end.
Proof.
  unfold fromString, O.fromPredicate, Str.isEmpty.
  destruct (String.eqb_spec s "") as [->|Hne]; simpl; [done|].
  split; [exact Hne|reflexivity].
Qed.

Lemma invariant_length (s : string) :
  invariant (pack s) ↔ s ≠ "".
Proof.
  unfold invariant. simpl. rewrite <- length_zero_iff. lia.
Qed.

Lemma head_preserves (x : NonEmptyString) :
  invariant x → ∃ y, head x = Ok y ∧ invariant y.
Proof.
  destruct x as [[|c s]]; unfold invariant; simpl; [lia|].
  intros _. exists (pack (String c "")). split; [reflexivity|simpl; lia].
Qed.

Lemma last_preserves (x : NonEmptyString) :
  invariant x → ∃ y, last x = Ok y ∧ invariant y.
Proof.
  destruct x as [[|c s]]; unfold invariant; simpl; [lia|].
  intros _. destruct (last_is_Some c s) as [d Hd].
  exists (pack (String d "")). split; [|simpl; lia].
  unfold last, over_throwing. simpl unpack. rewrite Hd. reflexivity.
Qed.

Lemma utf8_chars_nonempty (s : string) :
  s ≠ "" → ∃ c l, utf8_chars s = c :: l ∧ c ≠ "".
Proof.
  destruct s as [|c r]; [done|]. intros _. cbn [utf8_chars].
  destruct (utf8_chars r) as [|ch l]; [by eexists _, _|].
  destruct (starts_with_continuation r); by eexists _, _.
Qed.

Lemma map_chars_nonempty (m : list string → string → list string → string)
    (before : list string) (s : string) :
  (∀ b c a, c ≠ "" → m b c a ≠ "") →
  s ≠ "" → map_chars m before (utf8_chars s) ≠ "".
Proof.
  intros Hm (c & l & -> & Hc)%utf8_chars_nonempty. cbn [map_chars].
  specialize (Hm before c l Hc). intros H%(f_equal String.length).
  rewrite string_length_app in H. apply Hm, length_zero_iff.
  cbn [String.length] in H. lia.
Qed.

(** C5.  Every endomorphism of the module keeps the length of the
    underlying string at least one, and the unwrapping step of [head] and
    [last] does not fail on such a value.  The case conversions are those
    of any case mappings that, as the mappings of Unicode do, give every
    character at least one character; they need not keep the length. *)
Theorem endomorphisms_preserve_invariant
    (upper : string → string)
    (lower : list string → string → list string → string)
    (x : NonEmptyString) :
  (∀ c, c ≠ "" → upper c ≠ "") →
  (∀ before c after, c ≠ "" → lower before c after ≠ "") →
  invariant x →
  (∃ y, head x = Ok y ∧ invariant y)
  ∧ (∃ y, last x = Ok y ∧ invariant y)
  ∧ invariant (toUpperCase upper x)
  ∧ invariant (toLowerCase lower x)
  ∧ (∀ s, invariant (prepend s x))
  ∧ (∀ s, invariant (append s x))
  ∧ (∀ s, invariant (surround s x))
  ∧ invariant (reverse x)
  ∧ (∀ y, invariant y → invariant (Semigroup_concat x y)).
Proof.
  intros Hup Hlow Hx.
  split; [by apply head_preserves|].
  split; [by apply last_preserves|].
  destruct x as [s]. apply invariant_length in Hx.
  split; [|split].
  - apply invariant_length. unfold Str.toUpperCase.
    apply map_chars_nonempty; [|done]. intros _ c _. apply Hup.
  - apply invariant_length. unfold Str.toLowerCase.
    by apply map_chars_nonempty.
  - assert (Hlen : (1 ≤ String.length s)%nat) by (destruct s; [done|simpl; lia]).
    unfold invariant. simpl. repeat split.
    + intros t. unfold Str.prepend. rewrite string_length_app. lia.
    + intros t. unfold Str.append. rewrite string_length_app. lia.
    + intros t. unfold Str.surround. rewrite !string_length_app. lia.
    + unfold Str.reverse, String.rev. rewrite length_rev_app. simpl. lia.
    + intros y Hy. unfold Str.concat. rewrite string_length_app. lia.
Qed.

Lemma endomorphisms_preserve_invariant_witness :
  invariant (pack "ab")
  ∧ head (pack "ab") = Ok (pack "a")
  ∧ last (pack "ab") = Ok (pack "b")
  ∧ toUpperCase sample_upper (pack ("a" +:+ sharp_s)) = pack "ASS"
  ∧ toLowerCase sample_lower (pack ("A" +:+ capital_sigma))
    = pack ("a" +:+ final_sigma)
  ∧ invariant (toUpperCase sample_upper (pack "ab"))
  ∧ invariant (toLowerCase sample_lower (pack "ab"))
  ∧ invariant (surround "-" (pack "ab")).
Proof.
  assert (H : invariant (pack "ab")) by (unfold invariant; simpl; lia).
  assert (Hup : ∀ c, c ≠ "" → sample_upper c ≠ "").
  { intros c Hc. unfold sample_upper.
    destruct (String.eqb c sharp_s); [done|].
    destruct (_ || _); [done|]. by destruct c. }
  assert (Hlow : ∀ before c after, c ≠ "" → sample_lower before c after ≠ "").
  { intros before c after Hc. unfold sample_lower.
    destruct (String.eqb c capital_sigma); [by destruct before, after|].
    by destruct c. }
  split; [exact H|].
  split; [reflexivity|]. split; [reflexivity|].
  split; [reflexivity|]. split; [reflexivity|].
  destruct (endomorphisms_preserve_invariant sample_upper sample_lower
              (pack "ab") Hup Hlow H)
    as (_ & _ & Hu & Hl & _ & _ & Hs & _).
  split; [exact Hu|]. split; [exact Hl|]. exact (Hs "-").
Defined.








End NonEmptyStringFacts.

(** ** URLSearchParams *)

Module ParamsFacts.

Import Platform Params.

Lemma sp_getAll_nil_iff (k : string) (x : URLSearchParams) :
  sp_getAll k x = [] ↔ k ∉ keys x.
Proof.
  unfold sp_getAll, keys. induction x as [|[k' v'] x IH]; simpl.
  - split; [intros _; apply not_elem_of_nil|done].
  - rewrite not_elem_of_cons. destruct (String.eqb_spec k' k) as [->|Hne]; simpl.
    + split; [done|]. intros [? _]. done.
    + rewrite IH. split; [intros ?; split; [congruence|done]|intros [_ ?]; done].
Qed.

Lemma sp_get_getAll (k : string) (x : URLSearchParams) :
  sp_get k x = List.head (sp_getAll k x).
Proof.
  unfold sp_get, sp_getAll. induction x as [|[k' v'] x IH]; simpl; [done|].
  destruct (String.eqb k' k); simpl; [done|exact IH].
Qed.

(** C10.  [lookupFirst k x] and [lookup k x] agree: both are absent
    exactly when [k] is not a key of [x], and otherwise [lookupFirst]
    returns the first element of the sequence that [lookup] returns. *)
Theorem lookupFirst_lookup_agree (k : string) (x : URLSearchParams) :
  match lookup k x with
  | None => lookupFirst k x = None ∧ k ∉ keys x
  | Some vs =>
    k ∈ keys x ∧ vs = sp_getAll k x
    ∧ ∃ v rest, vs = v :: rest ∧ lookupFirst k x = Some v
  end.
Proof.
  unfold lookup, lookupFirst, O.fromNullable, NEA.fromArray.
  rewrite sp_get_getAll.
  pose proof (sp_getAll_nil_iff k x) as Hnil.
  destruct (sp_getAll k x) as [|v rest] eqn:Hall.
  - split; [reflexivity|]. by apply Hnil.
  - split; [|split; [reflexivity|by exists v, rest]].
    destruct (decide (k ∈ keys x)) as [Hin|Hnin]; [exact Hin|].
    apply Hnil in Hnin. discriminate.
Qed.

(** *** Sorting and the disordered equality *)

Lemma str_le_iff (a b : string) : str_le a b ↔ String.le a b.
Proof.
  unfold str_le, String.le, Str.compare, String.leb.
  destruct (String.compare a b); simpl; split; intros H; try done.
Qed.

#[local] Instance str_le_total : Total str_le.
Proof.
  intros a b. rewrite !str_le_iff. apply (total String.le).
Qed.

#[local] Instance str_le_trans : Transitive str_le.
Proof.
  intros a b c. rewrite !str_le_iff. apply (transitivity (R := String.le)).
Qed.

#[local] Instance str_le_antisym : AntiSymm (=) str_le.
Proof.
  intros a b. rewrite !str_le_iff. apply (anti_symm String.le).
Qed.

Lemma sort_eq_iff (xs ys : list string) :
  A.sort Str.compare xs = A.sort Str.compare ys ↔ xs ≡ₚ ys.
Proof.
  unfold A.sort. fold str_le. change (fun a b => str_le a b) with str_le. split.
  - intros Heq. rewrite <- (merge_sort_Permutation str_le xs).
    rewrite Heq. apply merge_sort_Permutation.
  - intros Hp. apply (Sorted_unique str_le).
    + apply Sorted_merge_sort, _.
    + apply Sorted_merge_sort, _.
    + by rewrite !merge_sort_Permutation.
Qed.

Lemma A_getEq_iff (xs ys : list string) :
  A.getEq Str.equals xs ys = true ↔ xs = ys.
Proof.
  unfold A.getEq. revert ys.
  induction xs as [|x xs IH]; intros [|y ys]; simpl; try (split; done).
  specialize (IH ys). unfold Str.equals in *. cbn [fst snd] in *.
  rewrite !andb_true_iff, String.eqb_eq. rewrite andb_true_iff in IH.
  split.
  - intros (Hl & -> & Hf). f_equal. apply IH. done.
  - intros [= -> ->]. destruct IH as [_ IH]. destruct (IH eq_refl). done.
Qed.

Lemma getDisorderedEq_iff (xs ys : list string) :
  A.getDisorderedEq Str.equals Str.compare xs ys = true ↔ xs ≡ₚ ys.
Proof.
  unfold A.getDisorderedEq. by rewrite A_getEq_iff, sort_eq_iff.
Qed.

(** *** [toRecord] *)

Lemma toRecord_unfold (x : URLSearchParams) :
  toRecord x = foldl toRecord_step R.empty x.
Proof. reflexivity. Qed.

Lemma toRecord_fold_lookup (l : URLSearchParams) (r : R.JSRecord (list string))
    (k : string) :
  k ≠ "__proto__" →
  R.own (foldl toRecord_step r l) !! k
  = match R.own r !! k with
    | Some vs => Some (vs ++ sp_getAll k l)%list
    | None => NEA.fromArray (sp_getAll k l)
    end.
Proof.
  intros Hk. revert r. induction l as [|[k' v'] l IH]; intros r.
  - simpl. destruct (R.own r !! k); [by rewrite List.app_nil_r|done].
  - cbn [foldl]. rewrite IH. clear IH.
    unfold toRecord_step, R.assign, sp_getAll. cbn [fst snd List.filter].
    destruct (String.eqb_spec k' "__proto__") as [->|Hk'].
    + cbn [R.own]. destruct (String.eqb_spec "__proto__" k) as [<-|_]; [done|].
      reflexivity.
    + cbn [R.own]. destruct (String.eqb_spec k' k) as [->|Hne].
      * rewrite lookup_insert_eq. cbn [fmap list_fmap snd].
        destruct (R.own r !! k) as [vs|]; unfold NEA.concat, NEA.of_; simpl.
        -- by rewrite <- List.app_assoc.
        -- reflexivity.
      * rewrite lookup_insert_ne by done. reflexivity.
Qed.

Lemma toRecord_fold_proto_key (l : URLSearchParams) (r : R.JSRecord (list string)) :
  R.own (foldl toRecord_step r l) !! "__proto__" = R.own r !! "__proto__".
Proof.
  revert r. induction l as [|[k' v'] l IH]; intros r; [done|].
  cbn [foldl]. rewrite IH. unfold toRecord_step, R.assign. cbn [fst snd].
  destruct (String.eqb_spec k' "__proto__") as [->|Hk']; cbn [R.own]; [done|].
  by rewrite lookup_insert_ne.
Qed.

(** What C6 states, for every key but [__proto__]: the record maps a key
    of [x] to the sequence of its values in encounter order, and has no
    entry for a key that [x] lacks. *)
Lemma toRecord_lookup (x : URLSearchParams) (k : string) :
  k ≠ "__proto__" →
  R.own (toRecord x) !! k = NEA.fromArray (sp_getAll k x).
Proof.
  intros Hk. rewrite toRecord_unfold, toRecord_fold_lookup by done.
  reflexivity.
Qed.

Lemma toRecord_proto_key (x : URLSearchParams) :
  R.own (toRecord x) !! "__proto__" = None.
Proof. rewrite toRecord_unfold, toRecord_fold_proto_key. reflexivity. Qed.

Lemma toRecord_lookup_no_proto (x : URLSearchParams) (k : string) :
  "__proto__" ∉ keys x →
  R.own (toRecord x) !! k = NEA.fromArray (sp_getAll k x).
Proof.
  intros Hx. destruct (decide (k = "__proto__")) as [->|Hk].
  - rewrite toRecord_proto_key. apply sp_getAll_nil_iff in Hx. by rewrite Hx.
  - by apply toRecord_lookup.
Qed.

(** C6 at the key [__proto__].  The collection parsed from
    [__proto__=x&__proto__=y] has the key with the values [x], [y], and the
    record made of it has no such own key; the assignment replaced the
    prototype instead, which the last value alone occupies. *)
Theorem toRecord_loses_proto_key :
  let x := fromString "__proto__=x&__proto__=y" in
  "__proto__" ∈ keys x
  ∧ lookup "__proto__" x = Some ["x"; "y"]
  ∧ R.own (toRecord x) !! "__proto__" = None
  ∧ R.has (toRecord x) "__proto__" = false
  ∧ R.get (toRecord x) "__proto__" = Some ["y"].
Proof.
  cbv zeta. split; [|split; [|split; [|split]]].
  - apply (bool_decide_unpack _). by vm_compute.
  - by vm_compute.
  - apply toRecord_proto_key.
  - unfold R.has. rewrite toRecord_proto_key. apply bool_decide_eq_false.
    by intros [? ?].
  - unfold R.get. rewrite toRecord_proto_key. by vm_compute.
Qed.

(** *** The [Eq] instance *)

Lemma isSubrecord_iff (me that : R.JSRecord (list string)) :
  R.isSubrecord (A.getDisorderedEq Str.equals Str.compare) me that = true
  ↔ ∀ k v, R.own me !! k = Some v →
      ∃ w, R.own that !! k = Some w ∧ v ≡ₚ w.
Proof.
  unfold R.isSubrecord. rewrite forallb_forall. split.
  - intros H k v Hkv.
    specialize (H (k, v)). cbn [fst snd] in H.
    destruct (R.own that !! k) as [w|] eqn:Hw.
    + exists w. split; [done|]. apply getDisorderedEq_iff, H.
      apply list_elem_of_In. by apply elem_of_map_to_list.
    + exfalso. enough (false = true) by done. apply H.
      apply list_elem_of_In. by apply elem_of_map_to_list.
  - intros H [k v] Hin. cbn [fst snd].
    apply list_elem_of_In, elem_of_map_to_list in Hin.
    destruct (H k v Hin) as (w & -> & Hp). by apply getDisorderedEq_iff.
Qed.

Lemma fromArray_Some (vs ws : list string) :
  NEA.fromArray vs = Some ws ↔ vs = ws ∧ vs ≠ [].
Proof.
  destruct vs; simpl; split; try done.
  - intros [_ ?]. done.
  - intros [= <-]. done.
  - intros [<- _]. done.
Qed.

(** C3, as the code has it.  For collections without the key
    [__proto__], [Eq] equates two collections exactly when every key has
    the same values in both up to their order: the order of the pairs
    does not matter, neither across keys nor among the values of one
    key. *)
Theorem Eq_equals_iff (x y : URLSearchParams) :
  "__proto__" ∉ keys x →
  "__proto__" ∉ keys y →
  Eq_equals x y = true ↔ ∀ k, sp_getAll k x ≡ₚ sp_getAll k y.
Proof.
  intros Hx Hy. unfold Eq_equals, R.getEq.
  rewrite andb_true_iff, !isSubrecord_iff.
  setoid_rewrite (toRecord_lookup_no_proto x _ Hx).
  setoid_rewrite (toRecord_lookup_no_proto y _ Hy).
  setoid_rewrite fromArray_Some. split.
  - intros [Hxy Hyx] k.
    destruct (sp_getAll k x) as [|v vs] eqn:Hkx.
    + destruct (sp_getAll k y) as [|w ws] eqn:Hky; [done|].
      destruct (Hyx k (w :: ws)) as (u & [Hu Hne] & _); [by rewrite Hky|].
      rewrite Hkx in Hne. done.
    + destruct (Hxy k (v :: vs)) as (u & [Hu _] & Hp); [by rewrite Hkx|].
      by rewrite Hu.
  - intros H. split; intros k v [<- Hne].
    + exists (sp_getAll k y). split; [split; [done|]|by apply H].
      intros Hnil. apply Hne. apply Permutation_nil_r. rewrite <- Hnil. apply H.
    + exists (sp_getAll k x). split; [split; [done|]|symmetry; by apply H].
      intros Hnil. apply Hne. apply Permutation_nil_r. rewrite <- Hnil.
      symmetry. apply H.
Qed.

Lemma Eq_equals_iff_witness :
  Eq_equals (fromString "a=1&b=2") (fromString "b=2&a=1") = true
  ↔ ∀ k, sp_getAll k (fromString "a=1&b=2") ≡ₚ sp_getAll k (fromString "b=2&a=1").
Proof.
  apply Eq_equals_iff; apply (bool_decide_unpack _); vm_compute; exact I.
Defined.

(** C3 as stated fails: the two collections of the example in the
    documentation of [Eq] are equated although the values of [a] come in
    different orders, so that their records differ. *)
Lemma Eq_equals_ignores_value_order :
  let x := fromString "a=1&b=2&a=3" in
  let y := fromString "b=2&a=3&a=1" in
  Eq_equals x y = true
  ∧ R.own (toRecord x) !! "a" = Some ["1"; "3"]
  ∧ R.own (toRecord y) !! "a" = Some ["3"; "1"]
  ∧ toRecord x ≠ toRecord y.
Proof.
  cbv zeta.
  assert (Hx : R.own (toRecord (fromString "a=1&b=2&a=3")) !! "a" = Some ["1"; "3"])
    by (by rewrite toRecord_lookup).
  assert (Hy : R.own (toRecord (fromString "b=2&a=3&a=1")) !! "a" = Some ["3"; "1"])
    by (by rewrite toRecord_lookup).
  split; [by vm_compute|]. split; [exact Hx|]. split; [exact Hy|].
  intros Heq. rewrite Heq, Hy in Hx. discriminate.
Qed.

(** The two examples of C3, which hold. *)
Lemma Eq_equals_examples :
  Eq_equals (fromString "a=1&b=2") (fromString "b=2&a=1") = true
  ∧ Eq_equals (fromString "a=1&b=2&a=3") (fromString "a=1&b=2") = false.
Proof. split; by vm_compute. Qed.

End ParamsFacts.

(** ** The platform *)

Module PlatformFacts.

Import Platform.

(** *** Strings and character classes *)

Lemma string_forallb_app (p : ascii → bool) (s t : string) :
  string_forallb p (s +:+ t) = string_forallb p s && string_forallb p t.
Proof.
  induction s as [|c s IH]; [done|]. rewrite string_app_cons. cbn [string_forallb].
  by rewrite IH, andb_assoc.
Qed.

Lemma string_forallb_impl (p q : ascii → bool) (s : string) :
  (∀ c, p c = true → q c = true) →
  string_forallb p s = true → string_forallb q s = true.
Proof.
  intros Hpq. induction s as [|c s IH]; [done|]. cbn [string_forallb].
  intros [Hc Hs]%andb_true_iff. rewrite (Hpq c Hc), IH; done.
Qed.

Lemma string_filter_app (p : ascii → bool) (s t : string) :
  string_filter p (s +:+ t) = string_filter p s +:+ string_filter p t.
Proof.
  induction s as [|c s IH]; [done|]. rewrite string_app_cons. simpl.
  destruct (p c); rewrite IH; reflexivity.
Qed.

Lemma existsb_app_cons (p : ascii → bool) (s t : string) (c : ascii) :
  p c = true → string_existsb p (s +:+ String c t) = true.
Proof.
  intros Hc. induction s as [|d s IH].
  - rewrite string_app_nil_l. cbn [string_existsb]. by rewrite Hc.
  - rewrite string_app_cons. cbn [string_existsb]. by rewrite IH, orb_true_r.
Qed.

Lemma segment_char_ok_facts (c : ascii) :
  segment_char_ok c = true →
  not_space c = true ∧ is_slash c = false ∧ one_of "?#" c = false
  ∧ path_set c = false.
Proof. by_cases_on c. Qed.

Lemma query_char_ok_facts (c : ascii) :
  query_char_ok c = true →
  not_space c = true ∧ Ascii.eqb "#" c = false ∧ special_query_set c = false.
Proof. by_cases_on c. Qed.

Lemma fragment_char_ok_facts (c : ascii) :
  fragment_char_ok c = true → not_space c = true ∧ fragment_set c = false.
Proof. by_cases_on c. Qed.

Lemma not_space_not_tab (c : ascii) : not_space c = true → is_tab_or_newline c = false.
Proof. by_cases_on c. Qed.

(** *** Input preparation *)

Lemma strip_trailing_cons (c : ascii) (r : string) :
  is_c0_or_space c = false → strip_trailing (String c r) = String c (strip_trailing r).
Proof. intros Hc. simpl. rewrite Hc. by destruct (strip_trailing r). Qed.

Lemma strip_trailing_app (pre t : string) :
  string_forallb not_space pre = true →
  strip_trailing (pre +:+ t) = pre +:+ strip_trailing t.
Proof.
  induction pre as [|c pre IH]; [done|].
  cbn [string_forallb]. intros [Hc Hpre]%andb_true_iff. rewrite string_app_cons.
  rewrite strip_trailing_cons by (by apply negb_true_iff).
  rewrite IH by done. reflexivity.
Qed.

Lemma prepare_app (pre t : string) :
  string_forallb not_space pre = true →
  remove_tab_newline pre = pre →
  pre ≠ "" →
  remove_tab_newline (strip_trailing (strip_leading (pre +:+ t))) = pre +:+ prep t.
Proof.
  intros Hns Hrt Hne.
  assert (strip_leading (pre +:+ t) = pre +:+ t) as ->.
  { destruct pre as [|c pre]; [done|]. rewrite string_app_cons.
    cbn [string_forallb] in Hns. apply andb_true_iff in Hns as [Hc _].
    apply negb_true_iff in Hc. cbn [strip_leading]. by rewrite Hc. }
  rewrite strip_trailing_app by done. unfold remove_tab_newline at 1.
  rewrite string_filter_app. fold (remove_tab_newline pre). by rewrite Hrt.
Qed.

Lemma prep_id (t : string) : string_forallb not_space t = true → prep t = t.
Proof.
  intros Ht. unfold prep.
  assert (strip_trailing t = t) as ->.
  { induction t as [|c t IH]; [done|]. cbn [string_forallb] in Ht.
    apply andb_true_iff in Ht as [Hc Ht].
    rewrite strip_trailing_cons by (by apply negb_true_iff). by rewrite IH. }
  induction t as [|c t IH]; [done|]. cbn [string_forallb] in Ht.
  apply andb_true_iff in Ht as [Hc Ht]. unfold remove_tab_newline in *.
  cbn [string_filter]. rewrite (not_space_not_tab c Hc). cbn [negb].
  by rewrite IH.
Qed.

Lemma remove_tab_newline_id (t : string) :
  string_forallb not_space t = true → remove_tab_newline t = t.
Proof.
  induction t as [|c t IH]; [done|]. cbn [string_forallb].
  intros [Hc Ht]%andb_true_iff. unfold remove_tab_newline in *.
  cbn [string_filter]. rewrite (not_space_not_tab c Hc). cbn [negb].
  by rewrite IH.
Qed.

(** *** Percent-encoding leaves clean text alone and produces clean text *)

Lemma percent_encode_id (set : ascii → bool) (s : string) :
  string_forallb (fun c => negb (set c)) s = true → percent_encode set s = s.
Proof.
  unfold percent_encode. induction s as [|c s IH]; [done|].
  cbn [string_forallb string_flat_map]. intros [Hc Hs]%andb_true_iff.
  unfold percent_encode_char at 1. apply negb_true_iff in Hc. rewrite Hc.
  rewrite IH by done. reflexivity.
Qed.

Lemma percent_encode_forallb (set p : ascii → bool) (s : string) :
  (∀ c, string_forallb p (percent_encode_char set c) = true) →
  string_forallb p (percent_encode set s) = true.
Proof.
  intros H. unfold percent_encode. induction s as [|c s IH]; [done|].
  cbn [string_flat_map]. by rewrite string_forallb_app, H, IH.
Qed.

Lemma encode_path_char_ok (c : ascii) :
  is_slash c = false →
  string_forallb segment_char_ok (percent_encode_char path_set c) = true.
Proof. by_cases_on c. Qed.

Lemma encode_query_char_ok (c : ascii) :
  string_forallb query_char_ok (percent_encode_char special_query_set c) = true.
Proof. by_cases_on c. Qed.

Lemma encode_fragment_char_ok (c : ascii) :
  string_forallb fragment_char_ok (percent_encode_char fragment_set c) = true.
Proof. by_cases_on c. Qed.

Lemma query_encode_id (q : string) :
  string_forallb query_char_ok q = true → query_encode "https" q = q.
Proof.
  intros Hq. unfold query_encode.
  assert (is_special "https" = true) as -> by reflexivity.
  apply percent_encode_id. exact Hq.
Qed.

Lemma fragment_encode_id (f : string) :
  string_forallb fragment_char_ok f = true → fragment_encode f = f.
Proof. intros Hf. apply percent_encode_id. exact Hf. Qed.

Lemma query_not_space (q : string) :
  string_forallb query_char_ok q = true → string_forallb not_space q = true.
Proof.
  apply string_forallb_impl. intros c Hc. by destruct (query_char_ok_facts c Hc).
Qed.

Lemma fragment_not_space (f : string) :
  string_forallb fragment_char_ok f = true → string_forallb not_space f = true.
Proof.
  apply string_forallb_impl. intros c Hc. by destruct (fragment_char_ok_facts c Hc).
Qed.

Lemma query_no_hash (q : string) :
  string_forallb query_char_ok q = true →
  string_forallb (fun c => negb (Ascii.eqb "#" c)) q = true.
Proof.
  apply string_forallb_impl. intros c Hc.
  destruct (query_char_ok_facts c Hc) as (_ & -> & _). done.
Qed.

(** *** The path state on a serialized path *)

Lemma is_path_separator_slash (sch : string) (c : ascii) :
  is_slash c = false → is_path_separator sch c = false.
Proof.
  unfold is_slash, is_path_separator. intros [H1 H2]%orb_false_iff.
  rewrite H1, H2. by rewrite andb_false_r.
Qed.

Lemma path_state_segment (sch : string) (ov : bool) (seg r buf : string) (p : list string) :
  string_forallb segment_char_ok seg = true →
  path_state sch ov (seg +:+ r) buf p = path_state sch ov r (buf +:+ seg) p.
Proof.
  revert buf. induction seg as [|c seg IH]; intros buf Hseg.
  - by rewrite string_app_nil_r.
  - cbn [string_forallb] in Hseg. apply andb_true_iff in Hseg as [Hc Hseg].
    destruct (segment_char_ok_facts c Hc) as (_ & Hsl & Hqh & Hps).
    rewrite string_app_cons. cbn [path_state].
    rewrite (is_path_separator_slash sch c Hsl), Hqh, andb_false_r.
    unfold percent_encode_char. rewrite Hps.
    rewrite IH by done. by rewrite string_app_assoc.
Qed.

Lemma push_segment_clean (sch : string) (p : list string) (seg : string) (b : bool) :
  sch ≠ "file" → clean_segment seg = true →
  push_segment sch p seg b = (p ++ [seg])%list.
Proof.
  intros Hsch [[_ Hsd]%andb_true_iff Hdd]%andb_true_iff.
  unfold push_segment. apply negb_true_iff in Hsd, Hdd. rewrite Hsd, Hdd.
  apply String.eqb_neq in Hsch. by rewrite Hsch.
Qed.

Lemma path_state_terminal (sch : string) (ov : bool) (rest buf : string) (p : list string) :
  terminal ov rest = true →
  path_state sch ov rest buf p = (push_segment sch p buf false, rest).
Proof.
  destruct rest as [|c r]; [done|]. cbn [terminal path_state].
  intros [Hov Hc]%andb_true_iff. rewrite Hov, Hc.
  assert (is_path_separator sch c = false) as ->; [|done].
  apply is_path_separator_slash. revert Hc. clear. by_cases_on c.
Qed.

Lemma path_state_join (sch : string) (ov : bool) (s : string) (l : list string)
    (rest : string) (p : list string) :
  sch ≠ "file" →
  forallb clean_segment (s :: l) = true →
  terminal ov rest = true →
  path_state sch ov (s +:+ join_path l +:+ rest) "" p = ((p ++ s :: l)%list, rest).
Proof.
  intros Hsch. revert s p. induction l as [|s' l IH]; intros s p Hcl Hrest.
  - cbn [forallb] in Hcl. apply andb_true_iff in Hcl as [Hs _].
    cbn [join_path fold_right]. rewrite string_app_nil_l.
    rewrite path_state_segment
      by (by apply andb_true_iff in Hs as [[? _]%andb_true_iff _]).
    rewrite string_app_nil_l, path_state_terminal by done.
    by rewrite push_segment_clean.
  - cbn [forallb] in Hcl. apply andb_true_iff in Hcl as [Hs Hl].
    cbn [join_path fold_right]. fold (join_path l).
    rewrite path_state_segment
      by (by apply andb_true_iff in Hs as [[? _]%andb_true_iff _]).
    rewrite string_app_nil_l. rewrite !string_app_assoc. rewrite string_app_cons, string_app_nil_l.
    cbn [path_state].
    assert (is_path_separator sch "/" = true) as -> by reflexivity.
    rewrite push_segment_clean by done.
    rewrite IH by done. by rewrite <- List.app_assoc.
Qed.

Lemma clean_segment_not_space (s : string) :
  clean_segment s = true → string_forallb not_space s = true.
Proof.
  intros [[Hs _]%andb_true_iff _]%andb_true_iff.
  revert Hs. apply string_forallb_impl. intros c Hc.
  by destruct (segment_char_ok_facts c Hc).
Qed.

Lemma join_path_not_space (l : list string) :
  forallb clean_segment l = true → string_forallb not_space (join_path l) = true.
Proof.
  induction l as [|s l IH]; [done|]. cbn [forallb join_path fold_right].
  fold (join_path l). intros [Hs Hl]%andb_true_iff.
  rewrite !string_forallb_app, (clean_segment_not_space s Hs), IH by done.
  reflexivity.
Qed.

Lemma span_until_app (stop : ascii → bool) (s r : string) :
  string_forallb (fun c => negb (stop c)) s = true →
  span_until stop (s +:+ r) = (s +:+ fst (span_until stop r), snd (span_until stop r)).
Proof.
  induction s as [|c s IH]; cbn [string_forallb].
  - intros _. rewrite !string_app_nil_l. by destruct (span_until stop r).
  - intros [Hc Hs]%andb_true_iff. rewrite !string_app_cons. cbn [span_until].
    apply negb_true_iff in Hc. rewrite Hc, IH by done. reflexivity.
Qed.

Lemma search_shape (u : URL) :
  query u ≠ Some "" →
  match query u with
  | None => search u = ""
  | Some q => search u = String "?" q
  end.
Proof.
  unfold search. destruct (query u) as [q|]; [|done].
  intros Hq. destruct (String.eqb_spec q "") as [->|_]; done.
Qed.

Lemma hash_shape (u : URL) :
  fragment u ≠ Some "" →
  match fragment u with
  | None => hash u = ""
  | Some f => hash u = String "#" f
  end.
Proof.
  unfold hash. destruct (fragment u) as [f|]; [|done].
  intros Hf. destruct (String.eqb_spec f "") as [->|_]; done.
Qed.

(** *** The urlencoded parser inverts the serializer *)

Lemma urlencoded_encode_char_ok (c : ascii) :
  string_forallb urlencoded_out_ok (urlencoded_encode_char c) = true.
Proof. by_cases_on c. Qed.

Lemma urlencoded_encode_ok (s : string) :
  string_forallb urlencoded_out_ok (urlencoded_encode s) = true.
Proof.
  unfold urlencoded_encode. induction s as [|c s IH]; [done|].
  cbn [string_flat_map]. by rewrite string_forallb_app, urlencoded_encode_char_ok, IH.
Qed.

Lemma urlencoded_serialize_ok (l : URLSearchParams) :
  string_forallb serialized_char_ok (urlencoded_serialize l) = true.
Proof.
  assert (Henc : ∀ s, string_forallb serialized_char_ok (urlencoded_encode s) = true).
  { intros s. apply (string_forallb_impl urlencoded_out_ok); [|apply urlencoded_encode_ok].
    intros c Hc. unfold serialized_char_ok. by rewrite Hc. }
  induction l as [|[n v] l IH]; [done|].
  cbn [urlencoded_serialize]. destruct l as [|kv l].
  - rewrite !string_forallb_app, !Henc. reflexivity.
  - rewrite !string_forallb_app, !Henc, IH. reflexivity.
Qed.

Lemma serialized_char_ok_facts (c : ascii) :
  serialized_char_ok c = true →
  query_set c = false ∧ special_query_set c = false ∧ is_tab_or_newline c = false
  ∧ Ascii.eqb c "?" = false.
Proof. by_cases_on c. Qed.

Lemma percent_decode_plain (c : ascii) (r : string) :
  Ascii.eqb c "%" = false → percent_decode (String c r) = String c (percent_decode r).
Proof.
  intros Hc. destruct r as [|h [|l r]]; cbn [percent_decode]; rewrite ?Hc; reflexivity.
Qed.

Lemma percent_decode_triple (x y b : ascii) (r : string) :
  hex_pair x y = Some b →
  percent_decode (String "%" (String x (String y r))) = String b (percent_decode r).
Proof. intros H. cbn [percent_decode]. cbn [Ascii.eqb Bool.eqb]. by rewrite H. Qed.

Lemma hex_pair_encode (c : ascii) :
  hex_pair (hex_digit (code c / 16)) (hex_digit (code c mod 16)) = Some c.
Proof. by_cases_on c. Qed.

Lemma plus_to_space_app (s t : string) :
  plus_to_space (s +:+ t) = plus_to_space s +:+ plus_to_space t.
Proof.
  unfold plus_to_space. induction s as [|c s IH]; [done|].
  rewrite string_app_cons. cbn [string_map]. by rewrite IH, string_app_cons.
Qed.

Lemma decode_encode_char (c : ascii) (r : string) :
  percent_decode (plus_to_space (urlencoded_encode_char c) +:+ r)
  = String c (percent_decode r).
Proof.
  unfold urlencoded_encode_char, percent_encode_char, percent_encode_byte.
  destruct (Ascii.eqb_spec c " ") as [->|Hsp].
  { by rewrite <- (percent_decode_plain " " r). }
  destruct (urlencoded_set c) eqn:Hset.
  - pose proof (hex_pair_encode c) as Hp.
    assert (plus_to_space
              (String "%" (String (hex_digit (code c / 16))
                 (String (hex_digit (code c mod 16)) "")))
            = String "%" (String (hex_digit (code c / 16))
                 (String (hex_digit (code c mod 16)) ""))) as ->.
    { clear. by_cases_on c. }
    rewrite !string_app_cons, string_app_nil_l. by apply percent_decode_triple.
  - assert (plus_to_space (String c "") = String c "") as ->.
    { revert Hset. clear. by_cases_on c. }
    rewrite string_app_cons, string_app_nil_l. apply percent_decode_plain.
    revert Hset. clear. by_cases_on c.
Qed.

Lemma urlencoded_decode_encode (s : string) :
  urlencoded_decode (urlencoded_encode s) = s.
Proof.
  unfold urlencoded_decode, urlencoded_encode.
  induction s as [|c s IH]; [done|]. cbn [string_flat_map].
  rewrite plus_to_space_app, decode_encode_char. by rewrite IH.
Qed.

Lemma split_on_app (p : ascii → bool) (s r : string) (c : ascii) :
  string_forallb (fun c => negb (p c)) s = true → p c = true →
  split_on p (s +:+ String c r) = s :: split_on p r.
Proof.
  intros Hs Hc. induction s as [|d s IH].
  - rewrite string_app_nil_l. cbn [split_on]. by rewrite Hc.
  - cbn [string_forallb] in Hs. apply andb_true_iff in Hs as [Hd Hs].
    apply negb_true_iff in Hd. rewrite string_app_cons. cbn [split_on].
    by rewrite Hd, IH.
Qed.

Lemma split_on_none (p : ascii → bool) (s : string) :
  string_forallb (fun c => negb (p c)) s = true → split_on p s = [s].
Proof.
  induction s as [|d s IH]; [done|]. cbn [string_forallb split_on].
  intros [Hd Hs]%andb_true_iff. apply negb_true_iff in Hd. by rewrite Hd, IH.
Qed.

Lemma urlencoded_out_ok_facts (c : ascii) :
  urlencoded_out_ok c = true →
  negb (Ascii.eqb "=" c) = true ∧ negb (Ascii.eqb "&" c) = true.
Proof. by_cases_on c. Qed.

Lemma pair_text_no_amp (kv : string * string) :
  string_forallb (fun c => negb (Ascii.eqb "&" c)) (pair_text kv) = true.
Proof.
  unfold pair_text. rewrite !string_forallb_app.
  assert (H : ∀ s, string_forallb (fun c => negb (Ascii.eqb "&" c)) (urlencoded_encode s) = true).
  { intros s. apply (string_forallb_impl urlencoded_out_ok); [|apply urlencoded_encode_ok].
    intros c Hc. by destruct (urlencoded_out_ok_facts c Hc). }
  by rewrite !H.
Qed.

Lemma parse_pair_text (kv : string * string) :
  (if String.eqb (pair_text kv) "" then []
   else
     let '(n, v) := match split_first (Ascii.eqb "=") (pair_text kv) with
                    | Some (n, v) => (n, v)
                    | None => (pair_text kv, EmptyString)
                    end in
     [(urlencoded_decode n, urlencoded_decode v)]) = [kv].
Proof.
  destruct kv as [n v]. unfold pair_text. cbn [fst snd].
  assert (Hne : String.eqb (urlencoded_encode n +:+ "=" +:+ urlencoded_encode v) "" = false).
  { apply String.eqb_neq. intros H. apply (f_equal String.length) in H.
    rewrite !string_length_app in H. simpl in H. lia. }
  rewrite Hne. unfold split_first. rewrite span_until_app.
  2:{ apply (string_forallb_impl urlencoded_out_ok); [|apply urlencoded_encode_ok].
      intros c Hc. by destruct (urlencoded_out_ok_facts c Hc). }
  change ("=" +:+ urlencoded_encode v) with (String "=" (urlencoded_encode v)).
  cbn [span_until]. assert (Ascii.eqb "=" "=" = true) as -> by reflexivity.
  cbn [fst snd]. by rewrite string_app_nil_r, !urlencoded_decode_encode.
Qed.

Lemma urlencoded_parse_serialize (l : URLSearchParams) :
  urlencoded_parse (urlencoded_serialize l) = l.
Proof.
  induction l as [|kv l IH]; [done|].
  destruct kv as [n v]. cbn [urlencoded_serialize]. destruct l as [|kv' l].
  - unfold urlencoded_parse.
    change (urlencoded_encode n +:+ "=" +:+ urlencoded_encode v)
      with (pair_text (n, v)).
    rewrite split_on_none by apply pair_text_no_amp.
    cbn [flat_map]. rewrite parse_pair_text. reflexivity.
  - unfold urlencoded_parse in *.
    replace (urlencoded_encode n +:+ "=" +:+ urlencoded_encode v +:+ "&"
             +:+ urlencoded_serialize (kv' :: l))
      with (pair_text (n, v) +:+ String "&" (urlencoded_serialize (kv' :: l))).
    2:{ unfold pair_text. cbn [fst snd]. rewrite !string_app_assoc. reflexivity. }
    rewrite split_on_app; [|apply pair_text_no_amp|reflexivity].
    cbn [flat_map]. rewrite parse_pair_text, IH. reflexivity.
Qed.

(** *** Setters on values read from a well-formed URL *)

Lemma set_pathname_join (b : URL) (s : string) (l : list string) :
  has_opaque_path b = false →
  scheme b ≠ "file" →
  forallb clean_segment (s :: l) = true →
  set_pathname (join_path (s :: l)) b = with_path (PathList (s :: l)) b.
Proof.
  intros Hop Hfile Hcl. unfold set_pathname. rewrite Hop.
  assert (Hns : string_forallb not_space (join_path (s :: l)) = true)
    by (by apply join_path_not_space).
  rewrite (remove_tab_newline_id _ Hns).
  cbn [join_path fold_right]. fold (join_path l).
  change ("/" +:+ s +:+ join_path l) with (String "/" (s +:+ join_path l)).
  assert (Hps : ∀ ov, path_state (scheme b) ov (s +:+ join_path l) "" [] = (s :: l, "")).
  { intros ov. rewrite <- (string_app_nil_r (join_path l)).
    by rewrite path_state_join. }
  destruct (is_special (scheme b)) eqn:Hsp.
  - assert (is_path_separator (scheme b) "/" = true) as -> by reflexivity.
    by rewrite Hps.
  - assert (Ascii.eqb "/" "/" = true) as -> by reflexivity. by rewrite Hps.
Qed.

Lemma set_hash_hash (b x : URL) :
  match fragment x with
  | Some f => string_forallb fragment_char_ok f = true
  | None => True
  end →
  ∃ f, set_hash (hash x) b = with_fragment f b ∧ hash (with_fragment f b) = hash x.
Proof.
  unfold hash at 1 3. destruct (fragment x) as [f|].
  - intros Hf. destruct (String.eqb_spec f "") as [->|Hne].
    + by exists None.
    + exists (Some f). change ("#" +:+ f) with (String "#" f).
      unfold set_hash. cbn [String.eqb].
      assert (Ascii.eqb "#" "#" = true) as -> by reflexivity.
      rewrite (remove_tab_newline_id f (fragment_not_space f Hf)).
      rewrite (fragment_encode_id f Hf). split; [done|].
      unfold hash. cbn [fragment with_fragment].
      by apply String.eqb_neq in Hne as ->.
  - intros _. by exists None.
Qed.

Lemma serialized_query_encode (sch : string) (v : string) :
  string_forallb serialized_char_ok v = true →
  query_encode sch (remove_tab_newline v) = v.
Proof.
  intros Hv.
  assert (remove_tab_newline v = v) as ->.
  { clear sch. induction v as [|c v IH]; [done|]. cbn [string_forallb] in Hv.
    apply andb_true_iff in Hv as [Hc Hv]. unfold remove_tab_newline in *.
    cbn [string_filter].
    destruct (serialized_char_ok_facts c Hc) as (_ & _ & -> & _). cbn [negb].
    by rewrite IH. }
  unfold query_encode. apply percent_encode_id.
  revert Hv. apply string_forallb_impl. intros c Hc.
  destruct (serialized_char_ok_facts c Hc) as (H1 & H2 & _).
  destruct (is_special sch); by rewrite ?H1, ?H2.
Qed.

Lemma set_search_serialized (b : URL) (ps : URLSearchParams) :
  ∃ q, set_search (Params.toString ps) b = with_query q b
       ∧ searchParams (with_query q b) = ps
       ∧ search (with_query q b) = Params.toLeadingString ps.
Proof.
  unfold Params.toString, Params.toLeadingString, Params.toString, when.
  pose proof (urlencoded_parse_serialize ps) as Hrt.
  pose proof (urlencoded_serialize_ok ps) as Hok.
  unfold Str.isEmpty, Str.prepend.
  destruct (urlencoded_serialize ps) as [|c v] eqn:Hv.
  - exists None. cbn. split; [done|]. split; [|done].
    unfold searchParams. cbn [with_query query default]. exact Hrt.
  - exists (Some (String c v)). unfold set_search. cbn [String.eqb].
    pose proof Hok as Hok'. cbn [string_forallb] in Hok'.
    apply andb_true_iff in Hok' as [Hc _].
    destruct (serialized_char_ok_facts c Hc) as (_ & _ & _ & ->).
    rewrite (serialized_query_encode _ _ Hok). split; [done|].
    unfold searchParams, search. cbn [with_query query default negb].
    split; [exact Hrt|reflexivity].
Qed.

(** *** The parser and the setters produce well-formed URLs *)

Lemma forallb_removelast {A : Type} (p : A → bool) (l : list A) :
  forallb p l = true → forallb p (removelast l) = true.
Proof.
  induction l as [|a [|b l] IH]; [done..|].
  intros [Ha Hl]%andb_true_iff. change (removelast (a :: b :: l)) with (a :: removelast (b :: l)).
  cbn [forallb]. by rewrite Ha, IH.
Qed.

Lemma forallb_snoc {A : Type} (p : A → bool) (l : list A) (a : A) :
  forallb p (l ++ [a])%list = forallb p l && p a.
Proof. rewrite forallb_app. cbn [forallb]. by rewrite andb_true_r. Qed.

Lemma push_segment_wf (sch : string) (p : list string) (buf : string) (b : bool) :
  sch ≠ "file" →
  forallb clean_segment p = true →
  string_forallb segment_char_ok buf = true →
  forallb clean_segment (push_segment sch p buf b) = true.
Proof.
  intros Hsch Hp Hbuf. unfold push_segment.
  assert (Hsh : forallb clean_segment (shorten sch p) = true).
  { unfold shorten. apply String.eqb_neq in Hsch. rewrite Hsch. cbn [andb].
    destruct p as [|d [|e p]]; [done..|]. by apply forallb_removelast. }
  destruct (is_double_dot buf) eqn:Hdd.
  { destruct b; [done|]. by rewrite forallb_snoc, Hsh. }
  destruct (is_single_dot buf) eqn:Hsd.
  { destruct b; [done|]. by rewrite forallb_snoc, Hp. }
  apply String.eqb_neq in Hsch. rewrite Hsch. cbn [andb].
  rewrite forallb_snoc, Hp. unfold clean_segment. by rewrite Hbuf, Hsd, Hdd.
Qed.

Lemma push_segment_nonempty (sch : string) (p : list string) (buf : string) :
  push_segment sch p buf false ≠ [].
Proof.
  unfold push_segment.
  destruct (is_double_dot buf); [by destruct (shorten sch p)|].
  destruct (is_single_dot buf); [by destruct p|].
  destruct (_ && _); by destruct p.
Qed.

Lemma path_state_wf (sch : string) (ov : bool) (s buf : string) (p : list string) :
  is_special sch = true → sch ≠ "file" →
  forallb clean_segment p = true →
  string_forallb segment_char_ok buf = true →
  forallb clean_segment (fst (path_state sch ov s buf p)) = true
  ∧ fst (path_state sch ov s buf p) ≠ [].
Proof.
  intros Hsp Hsch. revert buf p. induction s as [|c s IH]; intros buf p Hp Hbuf.
  - cbn [path_state fst]. split; [by apply push_segment_wf|apply push_segment_nonempty].
  - cbn [path_state]. destruct (is_path_separator sch c) eqn:Hsep.
    + apply IH; [by apply push_segment_wf|done].
    + destruct (negb ov && one_of "?#" c).
      * cbn [fst]. split; [by apply push_segment_wf|apply push_segment_nonempty].
      * apply IH; [done|]. rewrite string_forallb_app, Hbuf.
        apply encode_path_char_ok. revert Hsep. unfold is_path_separator, is_slash.
        by rewrite Hsp.
Qed.

Lemma query_fragment_state_wf (sch : string) (rest : string) :
  is_special sch = true →
  match fst (query_fragment_state sch rest) with
  | Some q => string_forallb query_char_ok q
  | None => true
  end = true
  ∧ match snd (query_fragment_state sch rest) with
    | Some f => string_forallb fragment_char_ok f
    | None => true
    end = true.
Proof.
  intros Hsp. unfold query_fragment_state, query_encode, fragment_encode. rewrite Hsp.
  destruct rest as [|c r]; [done|]. destruct (Ascii.eqb c "?").
  - destruct (span_until (Ascii.eqb "#") r) as [q rest]. cbn [fst snd]. split.
    + apply percent_encode_forallb, encode_query_char_ok.
    + destruct rest; [done|]. apply percent_encode_forallb, encode_fragment_char_ok.
  - cbn [fst snd]. split; [done|].
    apply percent_encode_forallb, encode_fragment_char_ok.
Qed.

Lemma wf_intro (sch us pw : string) (h : option string) (po : option N)
    (s rest : string) :
  is_special sch = true → sch ≠ "file" →
  wf (mkURL sch us pw h po (PathList (fst (path_state sch false s "" [])))
        (fst (query_fragment_state sch rest)) (snd (query_fragment_state sch rest)))
  = true.
Proof.
  intros Hsp Hsch. unfold wf. cbn [path query fragment].
  destruct (path_state_wf sch false s "" [] Hsp Hsch eq_refl eq_refl) as [Hcl Hne].
  destruct (query_fragment_state_wf sch rest Hsp) as [Hq Hf].
  rewrite Hq, Hf, !andb_true_r.
  destruct (fst (path_state sch false s "" [])) as [|a l]; done.
Qed.

Lemma path_start_state_wf (sch us pw : string) (h : option string) (po : option N)
    (s : string) :
  is_special sch = true → sch ≠ "file" →
  wf (let '(p, q, f) := path_start_state sch s "" in mkURL sch us pw h po p q f) = true.
Proof.
  intros Hsp Hsch. unfold path_start_state. rewrite Hsp.
  set (s' := match s with
             | "" => s
             | String c r => if is_path_separator sch c then r else s
             end).
  pose proof (wf_intro sch us pw h po s' (snd (path_state sch false s' "" [])) Hsp Hsch) as H.
  destruct (path_state sch false s' "" []) as [p rest]. cbn [fst snd] in H.
  destruct (query_fragment_state sch rest) as [q f]. exact H.
Qed.

Lemma authority_state_wf (hp : bool → string → option string) (sch s : string)
    (v : URL) :
  is_special sch = true → sch ≠ "file" →
  authority_state hp sch s = Ok v → wf v = true ∧ scheme v = sch.
Proof.
  intros Hsp Hsch. unfold authority_state.
  destruct (span_until (is_authority_delimiter sch) s) as [auth rest].
  destruct (match split_last (Ascii.eqb "@") auth with
            | Some (c, h) => (Some c, h)
            | None => (None, auth)
            end) as [cred hostport].
  destruct (_ && _); [done|].
  destruct (match cred with
            | Some c => match split_first (Ascii.eqb ":") c with
                        | Some (u, p) => (u, p)
                        | None => (c, "")
                        end
            | None => ("", "")
            end) as [user pass].
  destruct (host_span false hostport) as [h port_text].
  assert (Hfin : ∀ hst prt w,
    (let '(p, q, f) := path_start_state sch rest "" in
     Ok (mkURL sch (percent_encode userinfo_set user)
           (percent_encode userinfo_set pass) (Some hst) prt p q f)) = Ok w →
    wf w = true ∧ scheme w = sch).
  { intros hst prt w.
    pose proof (path_start_state_wf sch (percent_encode userinfo_set user)
                  (percent_encode userinfo_set pass) (Some hst) prt rest Hsp Hsch) as H.
    destruct (path_start_state sch rest "") as [[p q] f].
    intros [= <-]. done. }
  destruct port_text as [pt|].
  - destruct (String.eqb h ""); [done|].
    destruct (hp _ h) as [hst|]; [|done].
    destruct (port_state sch pt) as [prt|e]; [|done].
    cbn [result_bind]. apply Hfin.
  - destruct (_ && _); [done|].
    destruct (hp _ h) as [hst|]; [|done]. apply Hfin.
Qed.

Lemma wf_set_pathname (v : string) (b : URL) :
  is_special (scheme b) = true → scheme b ≠ "file" →
  wf b = true → wf (set_pathname v b) = true.
Proof.
  intros Hsp Hsch Hwf. unfold set_pathname.
  destruct (has_opaque_path b); [done|]. rewrite Hsp.
  set (s' := match remove_tab_newline v with
             | "" => remove_tab_newline v
             | String c r =>
               if is_path_separator (scheme b) c then r else remove_tab_newline v
             end).
  destruct (path_state_wf (scheme b) true s' "" [] Hsp Hsch eq_refl eq_refl) as [Hcl Hne].
  unfold wf in *. cbn [with_path path query fragment].
  apply andb_true_iff in Hwf as [[_ ->]%andb_true_iff ->].
  destruct (fst (path_state (scheme b) true s' "" [])) as [|a l]; [done|].
  by rewrite Hcl.
Qed.

Lemma wf_set_search (v : string) (b : URL) :
  is_special (scheme b) = true → wf b = true → wf (set_search v b) = true.
Proof.
  intros Hsp Hwf. unfold wf in *.
  apply andb_true_iff in Hwf as [[Hpa _]%andb_true_iff Hf].
  unfold set_search. destruct (String.eqb v "");
    cbn [with_query path query fragment]; rewrite Hpa, Hf; [done|].
  unfold query_encode. rewrite Hsp.
  rewrite percent_encode_forallb by apply encode_query_char_ok. reflexivity.
Qed.

Lemma wf_set_hash (v : string) (b : URL) : wf b = true → wf (set_hash v b) = true.
Proof.
  intros Hwf. unfold wf in *.
  apply andb_true_iff in Hwf as [[Hpa Hq]%andb_true_iff _].
  unfold set_hash. destruct (String.eqb v "");
    cbn [with_fragment path query fragment]; rewrite Hpa, Hq; [done|].
  unfold fragment_encode.
  rewrite percent_encode_forallb by apply encode_fragment_char_ok. reflexivity.
Qed.

(** *** The path state of a [file] URL and the drive letters *)

Lemma push_segment_clean_any (sch : string) (p : list string) (seg : string)
    (b : bool) :
  clean_segment seg = true →
  push_segment sch p seg b
  = (p ++ [if String.eqb sch "file" && bool_decide (p = []) && is_drive_letter seg
           then normalize_drive_letter seg else seg])%list.
Proof.
  intros [[_ Hsd]%andb_true_iff Hdd]%andb_true_iff.
  unfold push_segment. apply negb_true_iff in Hsd, Hdd. rewrite Hsd, Hdd.
  by destruct (_ && _ && _).
Qed.

Lemma path_state_join_after (sch : string) (ov : bool) (s : string)
    (l : list string) (rest : string) (p : list string) :
  p ≠ [] →
  forallb clean_segment (s :: l) = true →
  terminal ov rest = true →
  path_state sch ov (s +:+ join_path l +:+ rest) "" p = ((p ++ s :: l)%list, rest).
Proof.
  revert s p. induction l as [|s' l IH]; intros s p Hp Hcl Hrest.
  - cbn [forallb] in Hcl. apply andb_true_iff in Hcl as [Hs _].
    cbn [join_path fold_right]. rewrite string_app_nil_l.
    rewrite path_state_segment
      by (by apply andb_true_iff in Hs as [[? _]%andb_true_iff _]).
    rewrite string_app_nil_l, path_state_terminal by done.
    rewrite push_segment_clean_any by done.
    by rewrite (bool_decide_eq_false_2 _ Hp), andb_false_r.
  - cbn [forallb] in Hcl. apply andb_true_iff in Hcl as [Hs Hl].
    cbn [join_path fold_right]. fold (join_path l).
    rewrite path_state_segment
      by (by apply andb_true_iff in Hs as [[? _]%andb_true_iff _]).
    rewrite string_app_nil_l. rewrite !string_app_assoc.
    rewrite string_app_cons, string_app_nil_l.
    cbn [path_state].
    assert (is_path_separator sch "/" = true) as -> by reflexivity.
    rewrite push_segment_clean_any by done.
    rewrite (bool_decide_eq_false_2 _ Hp), andb_false_r.
    rewrite IH; [by rewrite <- List.app_assoc| |done..].
    by destruct p.
Qed.

(** The path state on a serialized path, from the empty path: on a
    [file] URL a first segment that is a drive letter is normalized. *)
Lemma path_state_join_first (sch : string) (ov : bool) (s : string)
    (l : list string) (rest : string) :
  forallb clean_segment (s :: l) = true →
  terminal ov rest = true →
  path_state sch ov (s +:+ join_path l +:+ rest) "" []
  = ((if String.eqb sch "file" && is_drive_letter s
      then normalize_drive_letter s else s) :: l, rest).
Proof.
  intros Hcl Hrest. destruct l as [|s' l].
  - cbn [forallb] in Hcl. apply andb_true_iff in Hcl as [Hs _].
    cbn [join_path fold_right]. rewrite string_app_nil_l.
    rewrite path_state_segment
      by (by apply andb_true_iff in Hs as [[? _]%andb_true_iff _]).
    rewrite string_app_nil_l, path_state_terminal by done.
    rewrite push_segment_clean_any by done.
    by rewrite bool_decide_eq_true_2, andb_true_r.
  - cbn [forallb] in Hcl. apply andb_true_iff in Hcl as [Hs Hl].
    cbn [join_path fold_right]. fold (join_path l).
    rewrite path_state_segment
      by (by apply andb_true_iff in Hs as [[? _]%andb_true_iff _]).
    rewrite string_app_nil_l. rewrite !string_app_assoc.
    rewrite string_app_cons, string_app_nil_l.
    cbn [path_state].
    assert (is_path_separator sch "/" = true) as -> by reflexivity.
    rewrite push_segment_clean_any by done.
    rewrite bool_decide_eq_true_2, andb_true_r by done.
    cbn [app]. by rewrite path_state_join_after.
Qed.

Lemma set_pathname_join_any (b : URL) (s : string) (l : list string) :
  has_opaque_path b = false →
  forallb clean_segment (s :: l) = true →
  set_pathname (join_path (s :: l)) b
  = with_path
      (PathList ((if String.eqb (scheme b) "file" && is_drive_letter s
                  then normalize_drive_letter s else s) :: l)) b.
Proof.
  intros Hop Hcl. unfold set_pathname. rewrite Hop.
  assert (Hns : string_forallb not_space (join_path (s :: l)) = true)
    by (by apply join_path_not_space).
  rewrite (remove_tab_newline_id _ Hns).
  cbn [join_path fold_right]. fold (join_path l).
  change ("/" +:+ s +:+ join_path l) with (String "/" (s +:+ join_path l)).
  assert (Hps : ∀ ov, path_state (scheme b) ov (s +:+ join_path l) "" []
                      = ((if String.eqb (scheme b) "file" && is_drive_letter s
                          then normalize_drive_letter s else s) :: l, "")).
  { intros ov. rewrite <- (string_app_nil_r (join_path l)).
    by rewrite path_state_join_first. }
  destruct (is_special (scheme b)) eqn:Hsp.
  - assert (is_path_separator (scheme b) "/" = true) as -> by reflexivity.
    by rewrite Hps.
  - assert (Ascii.eqb "/" "/" = true) as -> by reflexivity. by rewrite Hps.
Qed.

Lemma normalize_normalized (s : string) :
  is_normalized_drive_letter s = true → normalize_drive_letter s = s.
Proof.
  destruct s as [|a [|c [|d r]]]; try done. cbn.
  intros [_ Hc]%andb_true_iff. by apply Ascii.eqb_eq in Hc as ->.
Qed.

End PlatformFacts.

(** ** URLPath *)

Module URLPathFacts.

Import Platform URLPath PlatformFacts.

(** C7.  Setting the pathname overwrites the pathname that was there:
    [setPathname y (fromPathname x)] is [fromPathname y], with the query
    and the fragment empty as in a fresh [fromPathname]. *)
Theorem setPathname_fromPathname (x y : string) :
  setPathname y (fromPathname x) = fromPathname y
  ∧ Eq_equals (setPathname y (fromPathname x)) (fromPathname y) = true
  ∧ query (unpack (setPathname y (fromPathname x))) = None
  ∧ fragment (unpack (setPathname y (fromPathname x))) = None.
Proof.
  assert (H : setPathname y (fromPathname x) = fromPathname y) by reflexivity.
  split; [exact H|]. rewrite H. split; [|split; reflexivity].
  unfold Eq_equals, URL.Eq_equals, Str.equals. apply String.eqb_refl.
Qed.

Lemma origin_phonyBase hp : origin hp phonyBase = "https://urlpath.fp-ts-std.samhh.com".
Proof. reflexivity. Qed.

Lemma valid_inv (x : URLPath) :
  valid x = true ↔
  onPhonyBase (unpack x) = true ∧ wf (unpack x) = true.
Proof. unfold valid. by rewrite andb_true_iff. Qed.

Lemma onPhonyBase_special (u : URL) :
  onPhonyBase u = true → is_special (scheme u) = true ∧ scheme u ≠ "file".
Proof.
  unfold_onPhonyBase. intros [[Hs _]%andb_true_iff _]%andb_true_iff.
  apply String.eqb_eq in Hs as ->. done.
Qed.

Section WithHostParser.

Variable hp : bool → string → option string.

Lemma onPhonyBase_hasPhonyBase (v : URL) :
  onPhonyBase v = true → hasPhonyBase hp v = true.
Proof.
  destruct v as [sch us pw h po pa q f]. unfold_onPhonyBase.
  cbn [scheme host port].
  intros [[Hs Hh]%andb_true_iff Hp]%andb_true_iff.
  apply String.eqb_eq in Hs as ->. apply bool_decide_eq_true in Hh as ->.
  apply bool_decide_eq_true in Hp as ->. reflexivity.
Qed.

Lemma hasPhonyBase_https (v : URL) :
  scheme v = "https" → hasPhonyBase hp v = true → onPhonyBase v = true.
Proof.
  destruct v as [sch us pw h po pa q f]. cbn [scheme]. intros ->.
  unfold hasPhonyBase. unfold_onPhonyBase. rewrite origin_phonyBase.
  unfold origin. cbn [scheme host port].
  assert (("https" =? "blob") = false) as -> by reflexivity.
  assert (bool_decide (is_Some (default_port "https")) = true) as -> by reflexivity.
  unfold tuple_origin. cbn [scheme host port].
  intros Heq%String.eqb_eq.
  change ("https://urlpath.fp-ts-std.samhh.com")
    with ("https" +:+ "://" +:+ phonyHost) in Heq.
  do 2 apply String.app_inj in Heq.
  assert (Hcolon : string_existsb (Ascii.eqb ":") phonyHost = false) by reflexivity.
  destruct po as [n|].
  { rewrite <- Heq in Hcolon. unfold port_text in Hcolon.
    change (":" +:+ pretty n) with (String ":" (pretty n)) in Hcolon.
    rewrite existsb_app_cons in Hcolon; done. }
  cbn [port_text] in Heq. rewrite string_app_nil_r in Heq.
  destruct h as [h|]; simpl in Heq; [|done]. rewrite Heq.
  reflexivity.
Qed.

(** C4, as the code has it.  For a [URLPath] [x] that satisfies the
    invariant, [toURL] fails with the callback applied to the error of
    the platform when the base does not parse; when the base parses to
    [b], the result has the scheme, the credentials, the host and the
    port of [b], and the hash and the parameters of [x].  When the path
    of [b] is a list, the result has the pathname of [x], except that a
    [file] base has a first segment that is a drive letter written with a
    bar rewritten with a colon.  When the path of [b] is opaque, that of
    the result is opaque too, and is the path of [b] but for spaces at
    its end. *)
Theorem toURL_spec {E : Type} (f : Error → E) (base : string) (x : URLPath) :
  valid x = true →
  match URL_new hp base with
  | Throw e => toURL hp f base x = left (f e)
  | Ok b =>
    ∃ u, toURL hp f base x = right u
      ∧ scheme u = scheme b
      ∧ username u = username b ∧ password u = password b
      ∧ host u = host b ∧ port u = port b
      ∧ hash u = getHash x
      ∧ searchParams u = getParams x
      ∧ search u = Params.toLeadingString (getParams x)
      ∧ (has_opaque_path b = false →
         (scheme b = "file" → bar_drive_first (unpack x) = false) →
         pathname u = getPathname x)
      ∧ (has_opaque_path b = false → scheme b = "file" →
         bar_drive_first (unpack x) = true →
         ∃ s l, path (unpack x) = PathList (s :: l)
                ∧ path u = PathList (normalize_drive_letter s :: l))
      ∧ (has_opaque_path b = true →
         has_opaque_path u = true
         ∧ ∃ t, pathname b = pathname u +:+ t
                ∧ string_forallb (Ascii.eqb " ") t = true)
  end.
Proof.
  intros [_ Hwf]%andb_true_iff. unfold toURL, URL.parse.
  destruct (URL_new hp base) as [b|e]; [|reflexivity].
  cbn [E.map]. eexists. split; [reflexivity|].
  unfold wf in Hwf. apply andb_true_iff in Hwf as [[Hpa _]%andb_true_iff Hf].
  unfold URL.setHash, URL.setParams, URL.clone, getHash, URL.getHash,
    getParams, URL.getParams.
  set (b1 := URL.setPathname (getPathname x) b).
  destruct (set_search_serialized b1 (searchParams (unpack x))) as (q & -> & Hsp & Hse).
  destruct (set_hash_hash (with_query q b1) (unpack x)) as (fr & -> & Hh).
  { destruct (fragment (unpack x)); done. }
  assert (Hb1 : scheme b1 = scheme b ∧ username b1 = username b
                ∧ password b1 = password b ∧ host b1 = host b ∧ port b1 = port b).
  { unfold b1, URL.setPathname, set_pathname, URL.clone.
    destruct (has_opaque_path b); done. }
  destruct Hb1 as (? & ? & ? & ? & ?).
  do 8 (split; [done|]).
  assert (Hlist : has_opaque_path b = false →
            ∃ s l, path (unpack x) = PathList (s :: l)
                   ∧ getPathname x = join_path (s :: l)
                   ∧ b1 = with_path
                            (PathList ((if String.eqb (scheme b) "file"
                                           && is_drive_letter s
                                        then normalize_drive_letter s else s) :: l)) b).
  { intros Hop. unfold b1, URL.setPathname, URL.clone, getPathname, URL.getPathname.
    unfold pathname. destruct (path (unpack x)) as [|[|s l]]; try done.
    exists s, l. split; [done|]. split; [done|]. by apply set_pathname_join_any. }
  split; [|split].
  - intros Hop Hfile. destruct (Hlist Hop) as (s & l & Hx & -> & Hb1).
    change (pathname b1 = join_path (s :: l)). rewrite Hb1.
    unfold bar_drive_first in Hfile. rewrite Hx in Hfile.
    destruct (String.eqb_spec (scheme b) "file") as [Hsch|_]; [|done].
    specialize (Hfile Hsch). cbn [andb].
    destruct (is_drive_letter s); [|done]. cbn [andb] in Hfile.
    apply negb_false_iff in Hfile. by rewrite normalize_normalized.
  - intros Hop Hfile Hbar. destruct (Hlist Hop) as (s & l & Hx & _ & Hb1).
    exists s, l. split; [done|].
    change (path b1 = PathList (normalize_drive_letter s :: l)). rewrite Hb1.
    unfold bar_drive_first in Hbar. rewrite Hx in Hbar.
    apply andb_true_iff in Hbar as [-> _].
    apply String.eqb_eq in Hfile as ->. done.
  - intros Hop.
    assert (Hb1 : b1 = b).
    { unfold b1, URL.setPathname, URL.clone, set_pathname. by rewrite Hop. }
    rewrite Hb1. split; [exact Hop|]. exists "". by rewrite string_app_nil_r.
Qed.

Hypothesis Hhp : hp false phonyHost = Some phonyHost.

Lemma phonyBase_constructed :
  URL_new hp "https://urlpath.fp-ts-std.samhh.com" = Ok phonyBase.
Proof.
  pose proof Hhp as H. vm_compute in H. vm_compute. rewrite H. reflexivity.
Qed.

Lemma authority_state_phony (s : string) :
  authority_state hp "https" ("urlpath.fp-ts-std.samhh.com/" +:+ s)
  = Ok (parse_on_phonyBase s).
Proof.
  unfold authority_state.
  assert (span_until (is_authority_delimiter "https") ("urlpath.fp-ts-std.samhh.com/" +:+ s)
          = (phonyHost, "/" +:+ s)) as -> by reflexivity.
  assert (split_last (Ascii.eqb "@") phonyHost = None) as -> by reflexivity.
  assert (host_span false phonyHost = (phonyHost, None)) as -> by reflexivity.
  assert (bool_decide (is_Some (@None string)) && (phonyHost =? "") = false) as ->
    by reflexivity.
  assert (is_special "https" = true) as Hsp by reflexivity. rewrite Hsp.
  assert ((phonyHost =? "") = false) as -> by reflexivity.
  cbn [andb negb]. rewrite Hhp.
  unfold path_start_state. rewrite Hsp.
  change ("/" +:+ s) with (String "/" s). unfold parse_on_phonyBase.
  cbv beta iota.
  assert (is_path_separator "https" "/" = true) as -> by reflexivity.
  destruct (path_state "https" false s "" []) as [p rest].
  destruct (query_fragment_state "https" rest) as [q f]. reflexivity.
Qed.

Lemma URL_new_phony_slash (t : string) :
  URL_new hp ("https://urlpath.fp-ts-std.samhh.com/" +:+ t) = Ok (parse_on_phonyBase (prep t)).
Proof.
  unfold URL_new. rewrite prepare_app by done.
  assert (scheme_state ("https://urlpath.fp-ts-std.samhh.com/" +:+ prep t)
          = Some ("https", "//urlpath.fp-ts-std.samhh.com/" +:+ prep t)) as ->
    by reflexivity.
  assert (("https" =? "file") = false) as -> by reflexivity.
  assert (is_special "https" = true) as -> by reflexivity.
  assert (skip_slashes ("//urlpath.fp-ts-std.samhh.com/" +:+ prep t)
          = "urlpath.fp-ts-std.samhh.com/" +:+ prep t) as -> by reflexivity.
  rewrite authority_state_phony. reflexivity.
Qed.

Lemma parse_on_phonyBase_origin (t : string) : origin hp (parse_on_phonyBase t) = origin hp phonyBase.
Proof.
  unfold parse_on_phonyBase.
  destruct (path_state "https" false t "" []) as [p rest].
  destruct (query_fragment_state "https" rest) as [q f]. reflexivity.
Qed.

Lemma URL_new_phony (x : string) :
  URL_new hp (origin hp phonyBase +:+ x)
  = authority_state hp "https" (phonyHost +:+ prep x).
Proof.
  rewrite origin_phonyBase. unfold URL_new. rewrite prepare_app by done.
  assert (scheme_state ("https://urlpath.fp-ts-std.samhh.com" +:+ prep x)
          = Some ("https", "//urlpath.fp-ts-std.samhh.com" +:+ prep x)) as ->
    by reflexivity.
  assert (("https" =? "file") = false) as -> by reflexivity.
  assert (is_special "https" = true) as -> by reflexivity.
  reflexivity.
Qed.

Lemma parse_on_phonyBase_valid (s : string) : valid (pack (parse_on_phonyBase s)) = true.
Proof.
  unfold valid, parse_on_phonyBase. cbn [unpack].
  pose proof (wf_intro "https" "" "" (Some phonyHost) None s
                (snd (path_state "https" false s "" [])) eq_refl) as H.
  destruct (path_state "https" false s "" []) as [p rest]. cbn [fst snd] in H.
  destruct (query_fragment_state "https" rest) as [q f]. cbn [fst snd] in H.
  rewrite H by done. reflexivity.
Qed.

Lemma fromString_valid (x : string) (y : URLPath) :
  fromString hp x = Ok y → valid y = true.
Proof.
  unfold fromString, O.tryCatch, O.filter.
  destruct (URL_new hp (origin hp phonyBase +:+ x)) as [v|e] eqn:Hfirst.
  - rewrite URL_new_phony in Hfirst.
    apply authority_state_wf in Hfirst as [Hwf Hsch]; [|done..].
    destruct (hasPhonyBase hp v) eqn:Hpb.
    + cbn [O.map O.getOrElse result_map]. intros [= <-].
      unfold valid. cbn [unpack]. by rewrite Hwf, (hasPhonyBase_https v Hsch Hpb).
    + cbn [O.map O.getOrElse]. rewrite origin_phonyBase, <- string_app_assoc.
      rewrite URL_new_phony_slash. cbn [result_map]. intros [= <-].
      apply parse_on_phonyBase_valid.
  - cbn [O.map O.getOrElse]. rewrite origin_phonyBase, <- string_app_assoc.
    rewrite URL_new_phony_slash. cbn [result_map]. intros [= <-].
    apply parse_on_phonyBase_valid.
Qed.

(** C2.  [fromString] is total and its result carries the placeholder
    origin: it is the URL parsed from the placeholder origin followed by
    [x] when that parses and has the placeholder origin, and otherwise
    the URL parsed from the placeholder origin, a slash and [x], which
    always parses. *)
Theorem fromString_total (x : string) :
  ∃ u, fromString hp x = Ok (pack u)
       ∧ origin hp u = origin hp phonyBase
       ∧ match URL_new hp (origin hp phonyBase +:+ x) with
         | Ok v =>
           if String.eqb (origin hp v) (origin hp phonyBase) then u = v
           else URL_new hp (origin hp phonyBase +:+ "/" +:+ x) = Ok u
         | Throw _ => URL_new hp (origin hp phonyBase +:+ "/" +:+ x) = Ok u
         end.
Proof.
  assert (Hfb : URL_new hp (origin hp phonyBase +:+ "/" +:+ x) = Ok (parse_on_phonyBase (prep x))).
  { rewrite origin_phonyBase, <- string_app_assoc. apply URL_new_phony_slash. }
  unfold fromString, O.tryCatch, O.filter, hasPhonyBase.
  destruct (URL_new hp (origin hp phonyBase +:+ x)) as [v|e] eqn:Hfirst.
  - destruct (String.eqb_spec (origin hp v) (origin hp phonyBase)) as [Heq|Hne].
    + exists v. done.
    + exists (parse_on_phonyBase (prep x)). cbn [O.map O.getOrElse]. rewrite Hfb.
      split; [done|]. split; [apply parse_on_phonyBase_origin|done].
  - exists (parse_on_phonyBase (prep x)). cbn [O.map O.getOrElse]. rewrite Hfb.
    split; [done|]. split; [apply parse_on_phonyBase_origin|done].
Qed.

(** C1, as the code has it.  For a [URLPath] [x] that satisfies the
    invariant, has no credentials and has neither an empty query nor an
    empty fragment, [fromString (toString x)] is [x], which the [Eq]
    instance equates with [x]. *)
Theorem fromString_toString (x : URLPath) :
  valid x = true →
  username (unpack x) = "" →
  password (unpack x) = "" →
  query (unpack x) ≠ Some "" →
  fragment (unpack x) ≠ Some "" →
  ∃ y, fromString hp (toString x) = Ok y ∧ Eq_equals y x = true ∧ y = x.
Proof.
  destruct x as [[sch us pw h po pa q f]]. unfold valid, wf. unfold_onPhonyBase.
  cbn [unpack scheme username password host port path query fragment].
  intros [[[Hsch Hh]%andb_true_iff Hpo]%andb_true_iff
          [[Hpa Hq]%andb_true_iff Hf]%andb_true_iff]%andb_true_iff -> -> Hqne Hfne.
  apply String.eqb_eq in Hsch as ->.
  apply bool_decide_eq_true in Hh as ->. apply bool_decide_eq_true in Hpo as ->.
  destruct pa as [|[|s l]]; try done.
  set (u := mkURL "https" "" "" (Some phonyHost) None (PathList (s :: l)) q f).
  exists (pack u).
  enough (fromString hp (toString (pack u)) = Ok (pack u)) as ->.
  { split; [done|]. split; [|done].
    unfold Eq_equals, URL.Eq_equals, Str.equals. apply String.eqb_refl. }
  pose proof (search_shape u Hqne) as Hsearch.
  pose proof (hash_shape u Hfne) as Hhash.
  cbn [u query fragment] in Hsearch, Hhash, Hq, Hf.
  assert (Hrest : ∃ rest, rest = search u +:+ hash u
            ∧ terminal false rest = true
            ∧ string_forallb not_space rest = true
            ∧ query_fragment_state "https" rest = (q, f)) .
  { exists (search u +:+ hash u). split; [done|].
    destruct q as [q|], f as [f|]; rewrite Hsearch, Hhash.
    - split; [done|]. split.
      + rewrite string_app_cons. cbn [string_forallb]. rewrite string_forallb_app.
        cbn [string_forallb].
        by rewrite (query_not_space q Hq), (fragment_not_space f Hf).
      + rewrite string_app_cons. unfold query_fragment_state.
        assert (Ascii.eqb "?" "?" = true) as -> by reflexivity.
        rewrite span_until_app by (by apply query_no_hash).
        cbn [span_until fst snd].
        assert (Ascii.eqb "#" "#" = true) as -> by reflexivity.
        cbn [fst snd].
        by rewrite string_app_nil_r, (query_encode_id q Hq), (fragment_encode_id f Hf).
    - split; [done|]. split.
      + rewrite string_app_nil_r. cbn [string_forallb]. by rewrite (query_not_space q Hq).
      + rewrite string_app_nil_r. unfold query_fragment_state.
        assert (Ascii.eqb "?" "?" = true) as -> by reflexivity.
        rewrite <- (string_app_nil_r q) at 1.
        rewrite span_until_app by (by apply query_no_hash).
        cbn [span_until fst snd]. by rewrite string_app_nil_r, (query_encode_id q Hq).
    - rewrite string_app_nil_l. split; [done|]. split.
      + cbn [string_forallb]. by rewrite (fragment_not_space f Hf).
      + unfold query_fragment_state.
        assert (Ascii.eqb "#" "?" = false) as -> by reflexivity.
        by rewrite (fragment_encode_id f Hf).
    - done. }
  destruct Hrest as (rest & Hrest & Hterm & Hns & Hqf).
  assert (Hto : origin hp phonyBase +:+ toString (pack u)
                = "https://urlpath.fp-ts-std.samhh.com/" +:+ (s +:+ join_path l +:+ rest)).
  { rewrite origin_phonyBase. unfold toString, pathname.
    cbn [unpack u path join_path fold_right]. fold (join_path l).
    rewrite Hrest. rewrite !string_app_assoc. reflexivity. }
  assert (Hprep : prep (s +:+ join_path l +:+ rest) = s +:+ join_path l +:+ rest).
  { apply prep_id. cbn [forallb] in Hpa. apply andb_true_iff in Hpa as [Hs Hl].
    rewrite !string_forallb_app, (clean_segment_not_space s Hs),
      (join_path_not_space l Hl), Hns. reflexivity. }
  assert (Hparse : parse_on_phonyBase (s +:+ join_path l +:+ rest) = u).
  { unfold parse_on_phonyBase. rewrite path_state_join by done. by rewrite Hqf. }
  unfold fromString, O.tryCatch.
  rewrite Hto, URL_new_phony_slash, Hprep, Hparse.
  reflexivity.
Qed.

End WithHostParser.

Lemma fromPathname_valid (x : string) : valid (fromPathname x) = true.
Proof.
  apply valid_inv. unfold fromPathname, URL.clone. cbn [unpack]. split.
  - reflexivity.
  - by apply wf_set_pathname.
Qed.

Lemma setPathname_valid (v : string) (x : URLPath) :
  valid x = true → valid (setPathname v x) = true.
Proof.
  rewrite !valid_inv. intros [Hb Hwf].
  destruct (onPhonyBase_special _ Hb) as [Hsp Hsch].
  unfold setPathname, over, URL.setPathname, URL.clone. cbn [unpack]. split.
  - unfold set_pathname. by destruct (has_opaque_path (unpack x)).
  - by apply wf_set_pathname.
Qed.

Lemma setParams_valid (ps : URLSearchParams) (x : URLPath) :
  valid x = true → valid (setParams ps x) = true.
Proof.
  rewrite !valid_inv. intros [Hb Hwf].
  destruct (onPhonyBase_special _ Hb) as [Hsp Hsch].
  unfold setParams, over, URL.setParams, URL.clone. cbn [unpack]. split.
  - unfold set_search. by destruct (String.eqb _ "").
  - by apply wf_set_search.
Qed.

Lemma setHash_valid (v : string) (x : URLPath) :
  valid x = true → valid (setHash v x) = true.
Proof.
  rewrite !valid_inv. intros [Hb Hwf].
  unfold setHash, over, URL.setHash, URL.clone. cbn [unpack]. split.
  - unfold set_hash. by destruct (String.eqb _ "").
  - by apply wf_set_hash.
Qed.

Lemma fromURL_valid hp (u : URL) (y : URLPath) :
  fromURL hp u = Ok y → valid y = true.
Proof.
  unfold fromURL. destruct (URL_new hp (href u)) as [v|e]; [|done].
  cbn [result_map]. intros [= <-]. apply valid_inv. cbn [unpack].
  unfold ensurePhonyBase, URL.clone. split.
  - unfold set_hash, set_search, set_pathname.
    destruct (String.eqb (hash v) ""), (String.eqb (Params.toString _) ""); reflexivity.
  - apply wf_set_hash, wf_set_search; [reflexivity|].
    by apply wf_set_pathname.
Qed.

Lemma fromString_total_witness :
  ∃ u, fromString ascii_host_parser ":123" = Ok (pack u)
       ∧ origin ascii_host_parser u = origin ascii_host_parser phonyBase
       ∧ match URL_new ascii_host_parser (origin ascii_host_parser phonyBase +:+ ":123") with
         | Ok v =>
           if String.eqb (origin ascii_host_parser v) (origin ascii_host_parser phonyBase) then u = v
           else URL_new ascii_host_parser (origin ascii_host_parser phonyBase +:+ "/" +:+ ":123") = Ok u
         | Throw _ => URL_new ascii_host_parser (origin ascii_host_parser phonyBase +:+ "/" +:+ ":123") = Ok u
         end.
Proof. exact (fromString_total ascii_host_parser eq_refl ":123"). Defined.

Lemma toURL_spec_witness :
  valid (fromPathname "/foo") = true
  ∧ toURL ascii_host_parser (fun e => e) "samhh.com" (fromPathname "/foo")
    = left (TypeError "Invalid URL")
  ∧ (∃ u, toURL ascii_host_parser (fun e => e) "https://samhh.com" (fromPathname "/foo") = right u
          ∧ href u = "https://samhh.com/foo")
  ∧ (∃ u, toURL ascii_host_parser (fun e => e) "file:///x/y" (fromPathname "/foo") = right u
          ∧ href u = "file:///foo").
Proof.
  assert (Hv : valid (fromPathname "/foo") = true) by reflexivity.
  split; [exact Hv|]. split; [|split].
  - exact (toURL_spec ascii_host_parser (fun e => e) "samhh.com" (fromPathname "/foo") Hv).
  - eexists. split; reflexivity.
  - eexists. split; reflexivity.
Defined.

(** C4 as stated fails.  [mailto:a@b.c] parses, and the pathname setter
    does nothing on its opaque path; [file:///] parses, and the path state
    rewrites a drive letter of a file URL. *)
Lemma toURL_opaque_base :
  (∃ u, toURL ascii_host_parser (fun e => e) "mailto:a@b.c" (fromPathname "/foo") = right u
        ∧ pathname u = "a@b.c"
        ∧ getPathname (fromPathname "/foo") = "/foo")
  ∧ (∃ u, toURL ascii_host_parser (fun e => e) "file:///" (fromPathname "/C|/foo") = right u
        ∧ pathname u = "/C:/foo"
        ∧ getPathname (fromPathname "/C|/foo") = "/C|/foo").
Proof. split; eexists; (split; [reflexivity|]); split; reflexivity. Qed.

Lemma fromString_toString_witness :
  let x := pack (mkURL "https" "" "" (Some phonyHost) None (PathList ["foo"])
                   (Some "bar=yes") (Some "baz")) in
  fromString ascii_host_parser "/foo?bar=yes#baz" = Ok x
  ∧ valid x = true
  ∧ ∃ y, fromString ascii_host_parser (toString x) = Ok y
         ∧ Eq_equals y x = true ∧ y = x.
Proof.
  cbv zeta. split; [reflexivity|]. split; [reflexivity|].
  apply (fromString_toString ascii_host_parser eq_refl);
    [reflexivity|reflexivity|reflexivity|discriminate|discriminate].
Defined.

(** C1 as stated fails.  The [URLPath] of [/foo?] has an empty query,
    which its [href] shows and its [search] does not: [toString] gives
    [/foo], whose [URLPath] the [Eq] instance tells apart from it.  The
    [URLPath] of [@urlpath.fp-ts-std.samhh.com/foo] has the placeholder
    origin and a username, which [toString] drops. *)
Lemma fromString_toString_not_roundtrip :
  (let x := pack (mkURL "https" "" "" (Some phonyHost) None (PathList ["foo"])
                    (Some "") None) in
   fromString ascii_host_parser "/foo?" = Ok x
   ∧ valid x = true
   ∧ toString x = "/foo"
   ∧ fromString ascii_host_parser (toString x) = Ok (fromPathname "/foo")
   ∧ Eq_equals (fromPathname "/foo") x = false)
  ∧ (let x := pack (mkURL "https" phonyHost "" (Some phonyHost) None
                      (PathList ["foo"]) None None) in
     fromString ascii_host_parser "@urlpath.fp-ts-std.samhh.com/foo" = Ok x
     ∧ valid x = true
     ∧ toString x = "/foo"
     ∧ fromString ascii_host_parser (toString x) = Ok (fromPathname "/foo")
     ∧ Eq_equals (fromPathname "/foo") x = false).
Proof. cbv zeta. repeat split; vm_compute; reflexivity. Qed.

End URLPathFacts.

(** ** Laws of NonEmptyString *)

Module NonEmptyStringLaws.

Import NonEmptyString.

Lemma NonEmptyString_unpack_inj (x y : NonEmptyString) : unpack x = unpack y → x = y.
Proof. destruct x, y. simpl. by intros ->. Qed.

Lemma string_compare_refl (s : string) : String.compare s s = Eq.
Proof.
  induction s as [|c s IH]; [done|]. simpl.
  unfold Ascii.compare. by rewrite N.compare_refl.
Qed.

Lemma string_rev_app (s t : string) : String.rev_app s t = String.rev s +:+ t.
Proof.
  unfold String.rev. revert t. induction s as [|c s IH]; intros t; [done|].
  simpl. rewrite (IH (String c t)), (IH (String c "")).
  by rewrite string_app_assoc.
Qed.

Lemma string_rev_cons (c : ascii) (s : string) :
  String.rev (String c s) = String.rev s +:+ String c "".
Proof. unfold String.rev at 1. simpl. apply string_rev_app. Qed.

Lemma string_rev_snoc (c : ascii) (s : string) :
  String.rev (s +:+ String c "") = String c (String.rev s).
Proof.
  induction s as [|d s IH]; [done|].
  rewrite string_app_cons, !string_rev_cons, IH. reflexivity.
Qed.

Lemma string_rev_involutive (s : string) : String.rev (String.rev s) = s.
Proof.
  induction s as [|c s IH]; [done|]. by rewrite string_rev_cons, string_rev_snoc, IH.
Qed.

Lemma Str_last_snoc (c : ascii) (s : string) :
  Str.last (s +:+ String c "") = Some (String c "").
Proof.
  induction s as [|d s IH]; [done|]. rewrite string_app_cons.
  simpl. rewrite IH. by destruct (s +:+ String c "").
Qed.

Lemma Str_last_head_rev (s : string) : Str.last s = Str.head (String.rev s).
Proof.
  rewrite <- (string_rev_involutive s) at 1.
  destruct (String.rev s) as [|c r]; [done|].
  by rewrite string_rev_cons, Str_last_snoc.
Qed.

Lemma Str_last_suffix (s : string) (c : string) :
  Str.last s = Some c → ∃ rest, s = rest +:+ c ∧ String.length c = 1%nat.
Proof.
  rewrite Str_last_head_rev. intros H.
  destruct (String.rev s) as [|d r] eqn:Hr; [done|]. simpl in H.
  injection H as <-. exists (String.rev r). split; [|done].
  by rewrite <- (string_rev_involutive s), Hr, string_rev_cons.
Qed.

(** X1.  [unsafeFromString] throws on the empty string only: an error
    with the message of [unsafeUnwrap], whose cause carries the text of
    the source; on any other string it returns the string packed as it
    is, which satisfies the invariant. *)
Theorem unsafeFromString_spec (s : string) :
  match unsafeFromString s with
  | Ok x => s ≠ "" ∧ x = pack s ∧ invariant x
  | Throw e =>
    s = ""
    ∧ e = CausedError "Unwrapped `None`"
            "Failed to lift an empty string to NonEmptyString"
  end.
Proof.
  unfold unsafeFromString, fromString, O.fromPredicate, Str.isEmpty.
  destruct (String.eqb_spec s "") as [->|Hne]; simpl; [done|].
  repeat split; [done|]. unfold invariant. simpl.
  destruct s; [done|simpl; lia].
Qed.

(** X2.  [fromString] undoes [toString] exactly on the values that
    satisfy the invariant: a [NonEmptyString] that was packed around the
    empty string is not read back. *)
Theorem fromString_toString_inverse (x : NonEmptyString) :
  invariant x ↔ fromString (toString x) = Some x.
Proof.
  destruct x as [s]. unfold invariant, fromString, toString, unNonEmptyString,
    O.fromPredicate, Str.isEmpty. simpl.
  destruct (String.eqb_spec s "") as [->|Hne]; simpl.
  - split; [lia|done].
  - split; [done|]. intros _. destruct s; [done|simpl; lia].
Qed.

(** X3.  [Eq] is identity of the underlying strings, [Ord] answers [Eq]
    exactly where [Eq] holds, and swapping the arguments of [Ord] reverses
    its answer. *)
Theorem Eq_Ord_agree (x y : NonEmptyString) :
  (Eq_equals x y = true ↔ x = y)
  ∧ (Ord_compare x y = Eq ↔ Eq_equals x y = true)
  ∧ Ord_compare y x = CompOpp (Ord_compare x y).
Proof.
  unfold Eq_equals, Ord_compare, Str.equals, Str.compare.
  rewrite String.eqb_eq. repeat split.
  - apply NonEmptyString_unpack_inj.
  - by intros ->.
  - apply String.compare_eq_iff.
  - intros ->. apply string_compare_refl.
  - apply String.compare_antisym.
Qed.

(** X4.  The [Semigroup] is associative, and it concatenates: sizes add
    up and the string of the result is the two strings in order. *)
Theorem Semigroup_assoc_size (x y z : NonEmptyString) :
  Semigroup_concat (Semigroup_concat x y) z
  = Semigroup_concat x (Semigroup_concat y z)
  ∧ size (Semigroup_concat x y) = (size x + size y)%nat
  ∧ toString (Semigroup_concat x y) = toString x +:+ toString y.
Proof.
  unfold Semigroup_concat, Str.concat, size, Str.size, toString, unNonEmptyString.
  simpl. by rewrite string_app_assoc, string_length_app.
Qed.

(** X5.  [surround s] is [prepend s] after [append s], in either order,
    and adds twice the length of [s] to the size. *)
Theorem surround_prepend_append (s : string) (x : NonEmptyString) :
  surround s x = prepend s (append s x)
  ∧ surround s x = append s (prepend s x)
  ∧ size (surround s x) = (size x + 2 * String.length s)%nat.
Proof.
  unfold surround, prepend, append, over, Str.surround, Str.prepend, Str.append,
    size, Str.size, toString, unNonEmptyString. simpl.
  rewrite string_app_assoc, !string_length_app. repeat split. lia.
Qed.

(** X6.  [reverse] is an involution that keeps the size, and it swaps
    [head] and [last], failures included. *)
Theorem reverse_involutive_head_last (x : NonEmptyString) :
  reverse (reverse x) = x
  ∧ last x = head (reverse x)
  ∧ head x = last (reverse x)
  ∧ size (reverse x) = size x.
Proof.
  destruct x as [s].
  unfold reverse, head, last, over, over_throwing, Str.reverse, size, Str.size,
    toString, unNonEmptyString. simpl.
  repeat split.
  - by rewrite string_rev_involutive.
  - by rewrite Str_last_head_rev.
  - by rewrite Str_last_head_rev, string_rev_involutive.
  - unfold String.rev. rewrite length_rev_app. simpl. lia.
Qed.

(** X7.  [head] and [last] return a string of size one that starts,
    respectively ends, the argument; they throw, with the message of
    [unsafeUnwrap], exactly on a value packed around the empty string. *)
Theorem head_last_spec (x : NonEmptyString) :
  match head x with
  | Ok y => ∃ rest, toString x = toString y +:+ rest ∧ size y = 1%nat
  | Throw e => toString x = "" ∧ e = PlainError "Unwrapped `None`"
  end
  ∧ match last x with
    | Ok y => ∃ rest, toString x = rest +:+ toString y ∧ size y = 1%nat
    | Throw e => toString x = "" ∧ e = PlainError "Unwrapped `None`"
    end.
Proof.
  destruct x as [s].
  unfold head, last, over_throwing, size, Str.size, toString, unNonEmptyString.
  simpl unpack. split.
  - destruct s as [|c s]; simpl; [done|]. by exists s.
  - destruct (Str.last s) as [c|] eqn:Hl; simpl.
    + by apply Str_last_suffix.
    + destruct s as [|c s]; [done|].
      destruct (last_is_Some c s) as [d Hd]. congruence.
Qed.

Lemma string_prefix_iff (p s : string) :
  String.prefix p s = true ↔ ∃ b, s = p +:+ b.
Proof.
  revert s. induction p as [|c p IH]; intros s.
  - simpl. split; [by exists s|by destruct s].
  - destruct s as [|d s]; simpl.
    + split; [done|]. intros [b Hb]. done.
    + destruct (Ascii.ascii_dec c d) as [->|Hne].
      * rewrite IH. split; intros [b Hb]; exists b.
        -- by rewrite string_app_cons, Hb.
        -- rewrite string_app_cons in Hb. by injection Hb.
      * split; [done|]. intros [b Hb]. rewrite string_app_cons in Hb.
        injection Hb as Hcd _. congruence.
Qed.

Lemma Str_includes_iff (search s : string) :
  Str.includes search s = true ↔ ∃ a b, s = a +:+ search +:+ b.
Proof.
  induction s as [|c s IH]; cbn [Str.includes]; rewrite orb_true_iff, string_prefix_iff.
  - split.
    + intros [[b Hb]|?]; [|done]. by exists "", b.
    + intros (a & b & H). left. destruct a; [by exists b|done].
  - rewrite IH. split.
    + intros [[b Hb]|(a & b & Hab)].
      * by exists "", b.
      * exists (String c a), b. by rewrite string_app_cons, Hab.
    + intros (a & b & H). destruct a as [|d a].
      * left. by exists b.
      * right. rewrite string_app_cons in H. injection H as _ H. by exists a, b.
Qed.

(** X8.  [includes search x] holds exactly when [search] occurs in the
    string of [x]: the string is some text, then [search], then some
    text. *)
Theorem includes_iff (search : string) (x : NonEmptyString) :
  includes search x = true ↔ ∃ a b, toString x = a +:+ search +:+ b.
Proof. apply Str_includes_iff. Qed.

End NonEmptyStringLaws.

(** ** Laws of URLSearchParams *)

Module ParamsLaws.

Import Platform Params PlatformFacts ParamsFacts.

Lemma serialize_nil_iff (l : URLSearchParams) :
  urlencoded_serialize l = "" ↔ l = [].
Proof.
  split; [|by intros ->]. destruct l as [|[n v] l]; [done|].
  cbn [urlencoded_serialize]. intros H. apply (f_equal String.length) in H.
  destruct l; rewrite !string_length_app in H; simpl in H; lia.
Qed.

Lemma serialize_head (l : URLSearchParams) (c : ascii) (v : string) :
  urlencoded_serialize l = String c v → Ascii.eqb c "?" = false.
Proof.
  intros H. pose proof (urlencoded_serialize_ok l) as Hok. rewrite H in Hok.
  cbn [string_forallb] in Hok. apply andb_true_iff in Hok as [Hc _].
  by destruct (serialized_char_ok_facts c Hc) as (_ & _ & _ & ?).
Qed.

(** X9.  [isEmpty] holds exactly of [empty]: of the parameters of size
    zero, which are those that serialize to the empty string. *)
Theorem isEmpty_iff (x : URLSearchParams) :
  (isEmpty x = true ↔ x = empty)
  ∧ (isEmpty x = true ↔ size x = 0%nat)
  ∧ (isEmpty x = true ↔ toString x = "").
Proof.
  unfold isEmpty, keys, size, toString, empty.
  rewrite length_fmap, Nat.eqb_eq, serialize_nil_iff.
  repeat split; try done; by destruct x.
Qed.

(** X10.  [toLeadingString] is the serialization with a question mark
    before it, except for the empty parameters, which alone give the
    empty string. *)
Theorem toLeadingString_spec (x : URLSearchParams) :
  toLeadingString x = (if isEmpty x then "" else "?" +:+ toString x)
  ∧ (toLeadingString x = "" ↔ x = empty).
Proof.
  unfold toLeadingString, when, Str.isEmpty, Str.prepend, isEmpty, keys, toString, empty.
  rewrite length_fmap.
  destruct x as [|kv x]; [done|]. cbn [length Nat.eqb].
  destruct (String.eqb_spec (urlencoded_serialize (kv :: x)) "") as [H|H]; cbn [negb].
  - by apply serialize_nil_iff in H.
  - split; [done|]. split; done.
Qed.

(** X11.  [fromString] reads back what [toString] and
    [toLeadingString] write: the same pairs in the same order. *)
Theorem fromString_inverts_toString (x : URLSearchParams) :
  fromString (toString x) = x ∧ fromString (toLeadingString x) = x.
Proof.
  assert (H1 : fromString (toString x) = x).
  { unfold fromString, toString, URLSearchParams_of_string.
    destruct (urlencoded_serialize x) as [|c v] eqn:Hs.
    - rewrite <- Hs. apply urlencoded_parse_serialize.
    - rewrite (serialize_head x c v Hs), <- Hs. apply urlencoded_parse_serialize. }
  split; [exact H1|].
  unfold toLeadingString, when, Str.isEmpty, Str.prepend.
  destruct (String.eqb (toString x) ""); cbn [negb]; [exact H1|].
  unfold fromString, URLSearchParams_of_string, toString.
  change ("?" +:+ urlencoded_serialize x) with (String "?" (urlencoded_serialize x)).
  cbn. apply urlencoded_parse_serialize.
Qed.

(** *** [set], [append] and [delete] on the list of pairs *)

Lemma sp_getAll_app (k : string) (l1 l2 : URLSearchParams) :
  sp_getAll k (l1 ++ l2)%list = (sp_getAll k l1 ++ sp_getAll k l2)%list.
Proof. unfold sp_getAll. by rewrite List.filter_app, fmap_app. Qed.

Lemma sp_getAll_delete_eq (k : string) (l : URLSearchParams) :
  sp_getAll k (sp_delete k l) = [].
Proof.
  unfold sp_getAll, sp_delete. induction l as [|[k' v'] l IH]; [done|].
  cbn [List.filter fst]. destruct (String.eqb k' k) eqn:Hk; cbn [negb]; [done|].
  cbn [List.filter fst]. by rewrite Hk.
Qed.

Lemma sp_getAll_delete_ne (k k' : string) (l : URLSearchParams) :
  k' ≠ k → sp_getAll k' (sp_delete k l) = sp_getAll k' l.
Proof.
  intros Hne. unfold sp_getAll, sp_delete.
  induction l as [|[k0 v0] l IH]; [done|]. cbn [List.filter fst].
  destruct (String.eqb_spec k0 k) as [->|Hk0]; cbn [negb].
  - apply String.eqb_neq in Hne as Hne'. rewrite String.eqb_sym in Hne'.
    by rewrite Hne'.
  - cbn [List.filter fst]. destruct (String.eqb k0 k'); cbn [fmap list_fmap]; by rewrite ?IH.
Qed.

Lemma sp_delete_absent (k : string) (l : URLSearchParams) :
  k ∉ keys l → sp_delete k l = l.
Proof.
  unfold keys, sp_delete. induction l as [|[k0 v0] l IH]; [done|].
  cbn [fmap list_fmap fst List.filter]. rewrite not_elem_of_cons. intros [Hne Hl].
  apply not_eq_sym, String.eqb_neq in Hne. rewrite Hne. cbn [negb]. by rewrite IH.
Qed.

Lemma sp_getAll_set_eq (k v : string) (l : URLSearchParams) :
  sp_getAll k (sp_set k v l) = [v].
Proof.
  induction l as [|[k0 v0] l IH]; cbn [sp_set].
  - unfold sp_getAll. cbn. by rewrite String.eqb_refl.
  - destruct (String.eqb k0 k) eqn:Hk.
    + change ((k, v) :: sp_delete k l) with ([(k, v)] ++ sp_delete k l)%list.
      rewrite sp_getAll_app, sp_getAll_delete_eq. unfold sp_getAll. cbn.
      by rewrite String.eqb_refl.
    + change ((k0, v0) :: sp_set k v l) with ([(k0, v0)] ++ sp_set k v l)%list.
      rewrite sp_getAll_app, IH. unfold sp_getAll. cbn. by rewrite Hk.
Qed.

Lemma sp_getAll_set_ne (k k' v : string) (l : URLSearchParams) :
  k' ≠ k → sp_getAll k' (sp_set k v l) = sp_getAll k' l.
Proof.
  intros Hne. apply String.eqb_neq in Hne as Hne'. rewrite String.eqb_sym in Hne'.
  induction l as [|[k0 v0] l IH]; cbn [sp_set].
  - unfold sp_getAll. cbn. by rewrite Hne'.
  - destruct (String.eqb_spec k0 k) as [->|Hk].
    + change ((k, v) :: sp_delete k l) with ([(k, v)] ++ sp_delete k l)%list.
      change ((k, v0) :: l) with ([(k, v0)] ++ l)%list.
      rewrite !sp_getAll_app, sp_getAll_delete_ne by done.
      unfold sp_getAll. cbn. by rewrite Hne'.
    + change ((k0, v0) :: sp_set k v l) with ([(k0, v0)] ++ sp_set k v l)%list.
      change ((k0, v0) :: l) with ([(k0, v0)] ++ l)%list.
      by rewrite !sp_getAll_app, IH.
Qed.

Lemma sp_delete_set (k v : string) (l : URLSearchParams) :
  sp_delete k (sp_delete k l) = sp_delete k l.
Proof.
  unfold sp_delete. induction l as [|[k0 v0] l IH]; [done|]. cbn [List.filter fst].
  destruct (String.eqb k0 k) eqn:Hk; cbn [negb]; [done|].
  cbn [List.filter fst]. rewrite Hk. cbn [negb]. by rewrite IH.
Qed.

Lemma sp_delete_of_set (k v : string) (l : URLSearchParams) :
  sp_delete k (sp_set k v l) = sp_delete k l.
Proof.
  induction l as [|[k0 v0] l IH]; cbn [sp_set].
  - unfold sp_delete. cbn. by rewrite String.eqb_refl.
  - destruct (String.eqb k0 k) eqn:Hk.
    + unfold sp_delete at 1 3. cbn [List.filter fst]. rewrite String.eqb_refl, Hk.
      cbn [negb]. apply (sp_delete_set k v).
    + unfold sp_delete at 1 2. cbn [List.filter fst]. rewrite Hk. cbn [negb].
      f_equal. exact IH.
Qed.

Lemma sp_set_set (k v w : string) (l : URLSearchParams) :
  sp_set k v (sp_set k w l) = sp_set k v l.
Proof.
  induction l as [|[k0 v0] l IH]; cbn [sp_set].
  - by rewrite String.eqb_refl.
  - destruct (String.eqb k0 k) eqn:Hk; cbn [sp_set].
    + rewrite String.eqb_refl. f_equal. apply (sp_delete_set k v).
    + rewrite Hk. by rewrite IH.
Qed.

Lemma lookup_as_getAll (k : string) (x : URLSearchParams) :
  lookup k x = NEA.fromArray (sp_getAll k x).
Proof. reflexivity. Qed.

(** X12.  After [upsertAt k v] the key [k] has the single value [v],
    which is also its first value; the values of the other keys are
    untouched; a second [upsertAt] at the same key overwrites the
    first. *)
Theorem upsertAt_lookup (k v : string) (x : URLSearchParams) :
  lookup k (upsertAt k v x) = Some [v]
  ∧ lookupFirst k (upsertAt k v x) = Some v
  ∧ (∀ k', k' ≠ k → lookup k' (upsertAt k v x) = lookup k' x)
  ∧ (∀ w, upsertAt k v (upsertAt k w x) = upsertAt k v x).
Proof.
  unfold upsertAt, clone, lookupFirst, O.fromNullable. rewrite !lookup_as_getAll.
  rewrite sp_get_getAll, sp_getAll_set_eq. repeat split.
  - intros k' Hne. by rewrite !lookup_as_getAll, sp_getAll_set_ne.
  - intros w. apply sp_set_set.
Qed.

(** X13.  [appendAt k v] adds [v] after the values that [k] had, leaves
    the other keys alone and puts the new pair last: the size grows by
    one. *)
Theorem appendAt_lookup (k v : string) (x : URLSearchParams) :
  lookup k (appendAt k v x) = Some (sp_getAll k x ++ [v])%list
  ∧ (∀ k', k' ≠ k → lookup k' (appendAt k v x) = lookup k' x)
  ∧ size (appendAt k v x) = S (size x)
  ∧ toTuples (appendAt k v x) = (toTuples x ++ [(k, v)])%list.
Proof.
  unfold appendAt, clone, sp_append, size, toTuples. rewrite !lookup_as_getAll.
  rewrite sp_getAll_app. repeat split.
  - unfold sp_getAll at 2. cbn. rewrite String.eqb_refl. cbn.
    by destruct (sp_getAll k x).
  - intros k' Hne. rewrite !lookup_as_getAll, sp_getAll_app.
    unfold sp_getAll at 2. cbn.
    apply String.eqb_neq in Hne. rewrite String.eqb_sym in Hne. rewrite Hne.
    cbn. by rewrite List.app_nil_r.
  - rewrite length_app. simpl. lia.
Qed.

(** X14.  After [deleteAt k] the key [k] is absent; the values of the
    other keys are untouched; deleting an absent key changes nothing; the
    size does not grow. *)
Theorem deleteAt_lookup (k : string) (x : URLSearchParams) :
  lookup k (deleteAt k x) = None
  ∧ lookupFirst k (deleteAt k x) = None
  ∧ (∀ k', k' ≠ k → lookup k' (deleteAt k x) = lookup k' x)
  ∧ (lookup k x = None → deleteAt k x = x)
  ∧ (size (deleteAt k x) ≤ size x)%nat.
Proof.
  unfold deleteAt, clone, lookupFirst, O.fromNullable, size.
  rewrite !lookup_as_getAll, sp_get_getAll, sp_getAll_delete_eq. repeat split.
  - intros k' Hne. by rewrite !lookup_as_getAll, sp_getAll_delete_ne.
  - intros Hnone. apply sp_delete_absent, sp_getAll_nil_iff.
    by destruct (sp_getAll k x).
  - unfold sp_delete. apply List.filter_length_le.
Qed.

(** *** The [Eq] instance is an equivalence *)

Lemma Eq_equals_perm (x y : URLSearchParams) :
  "__proto__" ∉ keys x → "__proto__" ∉ keys y →
  Eq_equals x y = true ↔ ∀ k, sp_getAll k x ≡ₚ sp_getAll k y.
Proof.
  intros Hx Hy. unfold Eq_equals, R.getEq.
  rewrite andb_true_iff, !isSubrecord_iff.
  setoid_rewrite (toRecord_lookup_no_proto x _ Hx).
  setoid_rewrite (toRecord_lookup_no_proto y _ Hy).
  setoid_rewrite fromArray_Some. split.
  - intros [Hxy Hyx] k.
    destruct (sp_getAll k x) as [|v vs] eqn:Hkx.
    + destruct (sp_getAll k y) as [|w ws] eqn:Hky; [done|].
      destruct (Hyx k (w :: ws)) as (u & [Hu Hne] & _); [by rewrite Hky|].
      rewrite Hkx in Hne. done.
    + destruct (Hxy k (v :: vs)) as (u & [Hu _] & Hp); [by rewrite Hkx|].
      by rewrite Hu.
  - intros H. split; intros k v [<- Hne].
    + exists (sp_getAll k y). split; [split; [done|]|by apply H].
      intros Hnil. apply Hne. apply Permutation_nil_r. rewrite <- Hnil. apply H.
    + exists (sp_getAll k x). split; [split; [done|]|symmetry; by apply H].
      intros Hnil. apply Hne. apply Permutation_nil_r. rewrite <- Hnil.
      symmetry. apply H.
Qed.

(** X15.  On parameters that do not use the key [__proto__], [Eq] is
    reflexive, symmetric and transitive. *)
Theorem Eq_equivalence (x y z : URLSearchParams) :
  "__proto__" ∉ keys x → "__proto__" ∉ keys y → "__proto__" ∉ keys z →
  Eq_equals x x = true
  ∧ Eq_equals x y = Eq_equals y x
  ∧ (Eq_equals x y = true → Eq_equals y z = true → Eq_equals x z = true).
Proof.
  intros Hx Hy Hz. split; [by apply Eq_equals_perm|]. split.
  - unfold Eq_equals, R.getEq. apply andb_comm.
  - rewrite !Eq_equals_perm by done. intros Hxy Hyz k. by rewrite Hxy.
Qed.

Lemma Eq_equivalence_witness :
  let x := fromString "a=1&b=2&a=3" in
  let y := fromString "b=2&a=3&a=1" in
  let z := fromString "a=3&a=1&b=2" in
  Eq_equals x x = true
  ∧ Eq_equals x y = Eq_equals y x
  ∧ (Eq_equals x y = true → Eq_equals y z = true → Eq_equals x z = true).
Proof.
  cbv zeta. apply Eq_equivalence; apply (bool_decide_unpack _); vm_compute; exact I.
Defined.

Lemma no_proto_iff (x : URLSearchParams) :
  "__proto__" ∉ keys x ↔ sp_getAll "__proto__" x = [].
Proof. symmetry. apply sp_getAll_nil_iff. Qed.

(** X16.  Away from the key [__proto__], [upsertAt k v] is, up to [Eq],
    [deleteAt k] followed by [appendAt k v]: the two differ in the
    position of the pair only. *)
Theorem upsertAt_as_delete_append (k v : string) (x : URLSearchParams) :
  k ≠ "__proto__" → "__proto__" ∉ keys x →
  Eq_equals (upsertAt k v x) (appendAt k v (deleteAt k x)) = true.
Proof.
  intros Hk Hx. unfold upsertAt, appendAt, deleteAt, clone, sp_append.
  apply Eq_equals_perm.
  - apply no_proto_iff. rewrite sp_getAll_set_ne by done. by apply no_proto_iff.
  - apply no_proto_iff. rewrite sp_getAll_app, sp_getAll_delete_ne by done.
    apply no_proto_iff in Hx. rewrite Hx. unfold sp_getAll. cbn.
    apply String.eqb_neq in Hk. by rewrite Hk.
  - intros k'. rewrite sp_getAll_app. destruct (decide (k' = k)) as [->|Hne].
    + rewrite sp_getAll_set_eq, sp_getAll_delete_eq. unfold sp_getAll. cbn.
      by rewrite String.eqb_refl.
    + rewrite sp_getAll_set_ne, sp_getAll_delete_ne by done.
      unfold sp_getAll at 3. cbn. apply String.eqb_neq in Hne.
      rewrite String.eqb_sym in Hne. rewrite Hne. cbn. by rewrite List.app_nil_r.
Qed.

Lemma upsertAt_as_delete_append_witness :
  Eq_equals (upsertAt "a" "9" (fromString "a=1&b=2&a=3"))
    (appendAt "a" "9" (deleteAt "a" (fromString "a=1&b=2&a=3"))) = true
  ∧ upsertAt "a" "9" (fromString "a=1&b=2&a=3") = fromString "a=9&b=2"
  ∧ appendAt "a" "9" (deleteAt "a" (fromString "a=1&b=2&a=3")) = fromString "b=2&a=9".
Proof.
  split; [|split; reflexivity].
  apply upsertAt_as_delete_append; [discriminate|].
  apply (bool_decide_unpack _); vm_compute; exact I.
Defined.

(** *** [fromRecord] and [toRecord] *)

Lemma fromRecord_unfold (m : gmap string (list string)) :
  fromRecord m = flat_map record_tuples (merge_sort key_le (map_to_list m)).
Proof. reflexivity. Qed.

Lemma sp_getAll_record_tuples (k : string) (kv : string * list string) :
  sp_getAll k (record_tuples kv) = if String.eqb (fst kv) k then snd kv else [].
Proof.
  destruct kv as [k0 vs]. unfold record_tuples, sp_getAll. cbn [fst snd].
  induction vs as [|v vs IH]; cbn; [by destruct (String.eqb k0 k)|].
  destruct (String.eqb k0 k) eqn:Hk; cbn; [by rewrite IH|exact IH].
Qed.

Lemma sp_getAll_flat_map_absent (k : string) (l : list (string * list string)) :
  k ∉ l.*1 → sp_getAll k (flat_map record_tuples l) = [].
Proof.
  induction l as [|[k0 vs] l IH]; [done|]. cbn [fmap list_fmap fst flat_map].
  rewrite not_elem_of_cons. intros [Hne Hl].
  rewrite sp_getAll_app, sp_getAll_record_tuples, IH by done. cbn [fst snd].
  apply not_eq_sym, String.eqb_neq in Hne. by rewrite Hne.
Qed.

Lemma sp_getAll_flat_map_present (k : string) (vs : list string)
    (l : list (string * list string)) :
  NoDup l.*1 → (k, vs) ∈ l → sp_getAll k (flat_map record_tuples l) = vs.
Proof.
  induction l as [|[k0 vs0] l IH]; [by intros _ ?%elem_of_nil|].
  cbn [fmap list_fmap fst flat_map]. intros [Hk0 Hnd]%NoDup_cons Hin.
  rewrite sp_getAll_app, sp_getAll_record_tuples. cbn [fst snd].
  apply elem_of_cons in Hin as [[= <- <-]|Hin].
  - rewrite String.eqb_refl, sp_getAll_flat_map_absent by done.
    by rewrite List.app_nil_r.
  - assert (k0 ≠ k) as Hne.
    { intros ->. apply Hk0. apply list_elem_of_fmap. by exists (k, vs). }
    apply String.eqb_neq in Hne. rewrite Hne. by apply IH.
Qed.

Lemma sp_getAll_fromRecord (k : string) (m : gmap string (list string)) :
  sp_getAll k (fromRecord m) = default [] (m !! k).
Proof.
  rewrite fromRecord_unfold.
  pose proof (merge_sort_Permutation key_le (map_to_list m)) as Hp.
  assert (Hnd : NoDup (merge_sort key_le (map_to_list m)).*1).
  { rewrite Hp. apply NoDup_fst_map_to_list. }
  destruct (m !! k) as [vs|] eqn:Hk; cbn [default from_option id].
  - apply sp_getAll_flat_map_present; [done|]. rewrite Hp.
    by apply elem_of_map_to_list.
  - apply sp_getAll_flat_map_absent. rewrite Hp.
    intros ([k' vs] & -> & Hin)%list_elem_of_fmap.
    apply elem_of_map_to_list in Hin. cbn in Hk. congruence.
Qed.

#[local] Instance key_le_total : Total key_le.
Proof.
  intros a b. unfold key_le. fold (str_le (fst a) (fst b)) (str_le (fst b) (fst a)).
  rewrite !str_le_iff. apply (total String.le).
Qed.

#[local] Instance key_le_trans : Transitive key_le.
Proof.
  intros a b c. unfold key_le.
  fold (str_le (fst a) (fst b)) (str_le (fst b) (fst c)) (str_le (fst a) (fst c)).
  rewrite !str_le_iff. apply (transitivity (R := String.le)).
Qed.

Lemma keys_record_tuples (kv : string * list string) (k : string) :
  k ∈ keys (record_tuples kv) → k = fst kv.
Proof.
  unfold keys, record_tuples. rewrite <- list_fmap_compose.
  intros (v & -> & _)%list_elem_of_fmap. done.
Qed.

Lemma keys_flat_map_elem (l : list (string * list string)) (k : string) :
  k ∈ keys (flat_map record_tuples l) → ∃ kv, kv ∈ l ∧ k = fst kv.
Proof.
  unfold keys. intros ([k' v] & -> & Hin)%list_elem_of_fmap.
  apply list_elem_of_In, in_flat_map in Hin as (kv & Hkv & Hin).
  exists kv. split; [by apply list_elem_of_In|].
  apply (keys_record_tuples kv). unfold keys. apply list_elem_of_fmap.
  exists (k', v). split; [done|]. by apply list_elem_of_In.
Qed.

Lemma keys_sorted (l : list (string * list string)) :
  StronglySorted key_le l → StronglySorted str_le (keys (flat_map record_tuples l)).
Proof.
  induction 1 as [|kv l Hl IH Hall]; [constructor|].
  cbn [flat_map]. unfold keys in *. rewrite fmap_app.
  apply StronglySorted_app_2; [| |exact IH].
  - intros k1 k2 Hk1 Hk2. apply (keys_record_tuples kv) in Hk1 as ->.
    apply keys_flat_map_elem in Hk2 as (kv2 & Hin & ->).
    rewrite Forall_forall in Hall. by apply Hall.
  - unfold record_tuples. rewrite <- list_fmap_compose.
    induction (snd kv) as [|v vs IHv]; [constructor|].
    cbn. constructor; [exact IHv|]. apply Forall_forall.
    intros k (w & -> & _)%list_elem_of_fmap. cbn.
    assert (String.le (fst kv) (fst kv)) as Hr by reflexivity.
    by apply str_le_iff in Hr.
Qed.

Lemma toRecord_fold_proto (l : URLSearchParams) (r : R.JSRecord (list string)) :
  "__proto__" ∉ keys l → R.proto (foldl toRecord_step r l) = R.proto r.
Proof.
  unfold keys. revert r. induction l as [|[k v] l IH]; intros r; [done|].
  cbn [fmap list_fmap fst foldl]. rewrite not_elem_of_cons. intros [Hne Hl].
  rewrite IH by done. unfold toRecord_step, R.assign. cbn [fst snd].
  apply not_eq_sym, String.eqb_neq in Hne. by rewrite Hne.
Qed.

(** X17.  In [fromRecord m] a key has the values that [m] gives it, in
    the same order, a key with an empty array being absent; the pairs come
    with their keys in the order of [Str.Ord]. *)
Theorem fromRecord_lookup (m : gmap string (list string)) (k : string) :
  lookup k (fromRecord m) = m !! k ≫= NEA.fromArray
  ∧ StronglySorted str_le (keys (fromRecord m)).
Proof.
  split.
  - rewrite lookup_as_getAll, sp_getAll_fromRecord.
    by destruct (m !! k).
  - rewrite fromRecord_unfold. apply keys_sorted.
    apply Sorted_StronglySorted; [apply _|]. apply Sorted_merge_sort, _.
Qed.

(** X18.  [toRecord] undoes [fromRecord] on a record that has no empty
    array and no key [__proto__]: the result has the same own properties
    and the plain prototype. *)
Theorem toRecord_fromRecord (m : gmap string (list string)) :
  m !! "__proto__" = None →
  (∀ k vs, m !! k = Some vs → vs ≠ []) →
  toRecord (fromRecord m) = R.mkRecord m None.
Proof.
  intros Hp Hne.
  assert (Hnp : "__proto__" ∉ keys (fromRecord m)).
  { apply no_proto_iff. by rewrite sp_getAll_fromRecord, Hp. }
  assert (Hown : R.own (toRecord (fromRecord m)) = m).
  { apply map_eq. intros k. rewrite toRecord_lookup_no_proto by done.
    rewrite sp_getAll_fromRecord. destruct (m !! k) as [vs|] eqn:Hk; [|done].
    cbn. specialize (Hne k vs Hk). by destruct vs. }
  assert (Hproto : R.proto (toRecord (fromRecord m)) = None).
  { rewrite toRecord_unfold, toRecord_fold_proto by done. reflexivity. }
  destruct (toRecord (fromRecord m)) as [o p]. cbn in *. by subst.
Qed.

Lemma toRecord_fromRecord_witness :
  let m : gmap string (list string) := <["d" := ["e"]]> (<["a" := ["b"; "c"]]> ∅) in
  fromRecord m = fromString "a=b&a=c&d=e"
  ∧ toRecord (fromRecord m) = R.mkRecord m None.
Proof.
  cbv zeta. split; [by vm_compute|].
  apply toRecord_fromRecord.
  - by vm_compute.
  - intros k vs. rewrite lookup_insert. case_decide; [by intros [= <-]|].
    rewrite lookup_insert. case_decide; [by intros [= <-]|]. done.
Defined.

(** X19.  [fromRecord] undoes [toRecord] up to [Eq] on parameters that
    do not use the key [__proto__]: every key keeps its values in their
    order, the pairs being regrouped by key. *)
Theorem fromRecord_toRecord (x : URLSearchParams) :
  "__proto__" ∉ keys x →
  Eq_equals (fromRecord (R.own (toRecord x))) x = true
  ∧ ∀ k, lookup k (fromRecord (R.own (toRecord x))) = lookup k x.
Proof.
  intros Hx.
  assert (Hall : ∀ k, sp_getAll k (fromRecord (R.own (toRecord x))) = sp_getAll k x).
  { intros k. rewrite sp_getAll_fromRecord, toRecord_lookup_no_proto by done.
    by destruct (sp_getAll k x). }
  split.
  - apply Eq_equals_perm; [|done|].
    + apply no_proto_iff. rewrite Hall. by apply no_proto_iff.
    + intros k. by rewrite Hall.
  - intros k. by rewrite !lookup_as_getAll, Hall.
Qed.

Lemma fromRecord_toRecord_witness :
  let x := fromString "c=d&a=b&c=e" in
  fromRecord (R.own (toRecord x)) = fromString "a=b&c=d&c=e"
  ∧ Eq_equals (fromRecord (R.own (toRecord x))) x = true
  ∧ ∀ k, lookup k (fromRecord (R.own (toRecord x))) = lookup k x.
Proof.
  cbv zeta. split; [by vm_compute|].
  apply fromRecord_toRecord. apply (bool_decide_unpack _); vm_compute; exact I.
Defined.

End ParamsLaws.

(** ** Laws of URLPath *)

Module URLPathLaws.

Import Platform URLPath PlatformFacts URLPathFacts.

Lemma URLPath_unpack_inj (x y : URLPath) : unpack x = unpack y → x = y.
Proof. destruct x, y. cbn. by intros ->. Qed.

(** The shape of a valid [URLPath]. *)
Lemma valid_shape (x : URLPath) :
  valid x = true →
  ∃ us pw s l q f,
    x = pack (mkURL "https" us pw (Some phonyHost) None (PathList (s :: l)) q f)
    ∧ forallb clean_segment (s :: l) = true
    ∧ match q with Some q => string_forallb query_char_ok q = true | None => True end
    ∧ match f with Some f => string_forallb fragment_char_ok f = true | None => True end.
Proof.
  destruct x as [[sch us pw h po pa q f]]. unfold valid, wf. unfold_onPhonyBase.
  cbn [unpack scheme username password host port path query fragment].
  intros [[[Hsch Hh]%andb_true_iff Hpo]%andb_true_iff
          [[Hpa Hq]%andb_true_iff Hf]%andb_true_iff]%andb_true_iff.
  apply String.eqb_eq in Hsch as ->.
  apply bool_decide_eq_true in Hh as ->. apply bool_decide_eq_true in Hpo as ->.
  destruct pa as [|[|s l]]; try done.
  exists us, pw, s, l, q, f. split; [done|]. split; [done|].
  split; [by destruct q|by destruct f].
Qed.

Lemma href_tail_facts (q f : option string) :
  match q with Some q => string_forallb query_char_ok q = true | None => True end →
  match f with Some f => string_forallb fragment_char_ok f = true | None => True end →
  terminal false (href_tail q f) = true
  ∧ string_forallb not_space (href_tail q f) = true
  ∧ query_fragment_state "https" (href_tail q f) = (q, f).
Proof.
  intros Hq Hf. unfold href_tail. destruct q as [q|], f as [f|].
  - split; [done|]. split.
    + rewrite string_app_cons. cbn [string_forallb]. rewrite string_forallb_app.
      cbn [string_forallb].
      by rewrite (query_not_space q Hq), (fragment_not_space f Hf).
    + rewrite string_app_cons. unfold query_fragment_state.
      assert (Ascii.eqb "?" "?" = true) as -> by reflexivity.
      rewrite span_until_app by (by apply query_no_hash).
      cbn [span_until fst snd].
      assert (Ascii.eqb "#" "#" = true) as -> by reflexivity.
      cbn [fst snd].
      by rewrite string_app_nil_r, (query_encode_id q Hq), (fragment_encode_id f Hf).
  - split; [done|]. split.
    + rewrite string_app_nil_r. cbn [string_forallb]. by rewrite (query_not_space q Hq).
    + rewrite string_app_nil_r. unfold query_fragment_state.
      assert (Ascii.eqb "?" "?" = true) as -> by reflexivity.
      rewrite <- (string_app_nil_r q) at 1.
      rewrite span_until_app by (by apply query_no_hash).
      cbn [span_until fst snd]. by rewrite string_app_nil_r, (query_encode_id q Hq).
  - rewrite string_app_nil_l. split; [done|]. split.
    + cbn [string_forallb]. by rewrite (fragment_not_space f Hf).
    + unfold query_fragment_state.
      assert (Ascii.eqb "#" "?" = false) as -> by reflexivity.
      by rewrite (fragment_encode_id f Hf).
  - done.
Qed.

Lemma href_on_phonyBase (s : string) (l : list string) (q f : option string) :
  href (mkURL "https" "" "" (Some phonyHost) None (PathList (s :: l)) q f)
  = "https://urlpath.fp-ts-std.samhh.com/" +:+ (s +:+ join_path l +:+ href_tail q f).
Proof.
  unfold href, pathname, href_tail, credentials_text, port_text.
  cbn [scheme username password host port path query fragment join_path fold_right].
  fold (join_path l).
  change ("" =? "")%string with true. cbn [andb].
  destruct q as [q|], f as [f|];
    rewrite ?string_app_nil_r, ?string_app_nil_l, ?string_app_assoc; reflexivity.
Qed.

Section Reparse.

Variable hp : bool → string → option string.
Hypothesis Hhp : hp false phonyHost = Some phonyHost.

(** The platform reads the serialization of a valid [URLPath] without
    credentials back as the same URL. *)
Lemma URL_new_href (x : URLPath) :
  valid x = true → username (unpack x) = "" → password (unpack x) = "" →
  URL_new hp (href (unpack x)) = Ok (unpack x).
Proof.
  intros (us & pw & s & l & q & f & -> & Hpa & Hq & Hf)%valid_shape.
  cbn [unpack username password]. intros -> ->.
  destruct (href_tail_facts q f Hq Hf) as (Hterm & Hns & Hqf).
  rewrite href_on_phonyBase, (URL_new_phony_slash hp Hhp).
  assert (prep (s +:+ join_path l +:+ href_tail q f)
          = s +:+ join_path l +:+ href_tail q f) as ->.
  { apply prep_id. cbn [forallb] in Hpa. apply andb_true_iff in Hpa as [Hs Hl].
    rewrite !string_forallb_app, (clean_segment_not_space s Hs),
      (join_path_not_space l Hl), Hns. reflexivity. }
  unfold parse_on_phonyBase. rewrite path_state_join by done. by rewrite Hqf.
Qed.

End Reparse.

Lemma href_inj (x y : URLPath) :
  valid x = true → username (unpack x) = "" → password (unpack x) = "" →
  valid y = true → username (unpack y) = "" → password (unpack y) = "" →
  href (unpack x) = href (unpack y) → x = y.
Proof.
  intros Hx Hux Hpx Hy Huy Hpy Heq.
  pose (hp := fun (_ : bool) (h : string) => Some h).
  pose proof (URL_new_href hp eq_refl x Hx Hux Hpx) as H1.
  pose proof (URL_new_href hp eq_refl y Hy Huy Hpy) as H2.
  rewrite Heq, H2 in H1. apply URLPath_unpack_inj. congruence.
Qed.

(** X20.  On values of the module without credentials, [Eq] is identity:
    two such [URLPath]s are equated exactly when they are the same URL, and
    then [toString] gives the same text for both. *)
Theorem Eq_equals_iff_eq (x y : URLPath) :
  valid x = true → username (unpack x) = "" → password (unpack x) = "" →
  valid y = true → username (unpack y) = "" → password (unpack y) = "" →
  (Eq_equals x y = true ↔ x = y)
  ∧ (Eq_equals x y = true → toString x = toString y).
Proof.
  intros Hx Hux Hpx Hy Huy Hpy.
  assert (Hiff : Eq_equals x y = true ↔ x = y).
  { unfold Eq_equals, URL.Eq_equals, URL.toString, Str.equals. split.
    - intros H%String.eqb_eq. by apply href_inj.
    - intros ->. apply String.eqb_refl. }
  split; [exact Hiff|]. by intros ->%Hiff.
Qed.

Lemma Eq_equals_iff_eq_witness :
  Eq_equals (fromPathname "/a/../b") (fromPathname "/b") = true
  ∧ fromPathname "/a/../b" = fromPathname "/b"
  ∧ (Eq_equals (fromPathname "/b") (setHash "c" (fromPathname "/b")) = true
     ↔ fromPathname "/b" = setHash "c" (fromPathname "/b")).
Proof.
  split; [by vm_compute|].
  destruct (Eq_equals_iff_eq (fromPathname "/a/../b") (fromPathname "/b"))
    as [H _]; [by vm_compute..|].
  split; [apply H; by vm_compute|].
  by destruct (Eq_equals_iff_eq (fromPathname "/b") (setHash "c" (fromPathname "/b")))
    as [H' _]; [by vm_compute..|].
Defined.

(** *** Setters *)

Lemma set_pathname_frame (v : string) (u : URL) :
  ∃ p, set_pathname v u = with_path p u.
Proof.
  unfold set_pathname. destruct (has_opaque_path u) eqn:Ho.
  - exists (path u). by destruct u.
  - by eexists.
Qed.

Lemma set_search_frame (v : string) (u : URL) :
  ∃ q, set_search v u = with_query q u
       ∧ ∀ u', scheme u' = scheme u → set_search v u' = with_query q u'.
Proof.
  unfold set_search. destruct (String.eqb v "").
  - by eexists.
  - eexists. split; [done|]. by intros u' ->.
Qed.

Lemma set_hash_frame (v : string) (u : URL) :
  ∃ f, ∀ u', set_hash v u' = with_fragment f u'.
Proof. unfold set_hash. destruct (String.eqb v ""); by eexists. Qed.

(** X21.  Writing back the pathname read from a [URLPath] changes
    nothing, so [modifyPathname] with the identity is the identity; written
    to another [URLPath] it is read back as it is, and the parameters and
    the hash of that one are kept. *)
Theorem setPathname_getPathname (x y : URLPath) :
  valid x = true → valid y = true →
  setPathname (getPathname x) x = x
  ∧ modifyPathname (fun p => p) x = x
  ∧ getPathname (setPathname (getPathname x) y) = getPathname x
  ∧ getParams (setPathname (getPathname x) y) = getParams y
  ∧ getHash (setPathname (getPathname x) y) = getHash y.
Proof.
  intros (us & pw & s & l & q & f & -> & Hpa & _)%valid_shape
         (us' & pw' & s' & l' & q' & f' & -> & _)%valid_shape.
  unfold_setters.
  change (pathname (mkURL "https" us pw (Some phonyHost) None (PathList (s :: l)) q f))
    with (join_path (s :: l)).
  rewrite !set_pathname_join by done. done.
Qed.

Lemma setPathname_getPathname_witness :
  let x := fromPathname "/foo/../bar baz" in
  getPathname x = "/bar%20baz"
  ∧ setPathname (getPathname x) x = x
  ∧ getPathname (setPathname (getPathname x) (fromPathname "/q")) = getPathname x.
Proof.
  cbv zeta. split; [by vm_compute|].
  destruct (setPathname_getPathname (fromPathname "/foo/../bar baz") (fromPathname "/q"))
    as (H1 & _ & H2 & _); [by vm_compute|by vm_compute|].
  split; [exact H1|exact H2].
Defined.

(** X22.  [setParams] overwrites the parameters: they are read back as
    given, an earlier [setParams] is forgotten, the pathname and the hash
    are kept, and [toString] shows the pathname, the parameters written by
    [toLeadingString], and the hash. *)
Theorem setParams_spec (a b : URLSearchParams) (x : URLPath) :
  getParams (setParams a x) = a
  ∧ setParams a (setParams b x) = setParams a x
  ∧ getPathname (setParams a x) = getPathname x
  ∧ getHash (setParams a x) = getHash x
  ∧ toString (setParams a x)
    = getPathname x +:+ Params.toLeadingString a +:+ getHash x.
Proof.
  destruct x as [u]. unfold toString. unfold_setters.
  destruct (set_search_serialized u a) as (q & Hq & Hsp & Hs).
  destruct (set_search_frame (Params.toString a) u) as (q' & Hq' & Hfr).
  destruct (set_search_frame (Params.toString b) u) as (qb & Hqb & _).
  split; [by rewrite Hq|].
  split.
  { rewrite Hqb, (Hfr (with_query qb u)) by done. rewrite Hq'. by destruct u. }
  rewrite Hq in *. rewrite Hs. by destruct u.
Qed.

(** X23.  [setHash] overwrites the hash: an earlier [setHash] is
    forgotten, the empty string clears it, the pathname and the parameters
    are kept, and one leading number sign of the value is optional. *)
Theorem setHash_spec (a b : string) (x : URLPath) :
  setHash a (setHash b x) = setHash a x
  ∧ getHash (setHash "" x) = ""
  ∧ getPathname (setHash a x) = getPathname x
  ∧ getParams (setHash a x) = getParams x
  ∧ ((∀ r, a ≠ String "#" r) →
     getHash (setHash (String "#" a) x) = getHash (setHash a x)).
Proof.
  destruct x as [u]. unfold_setters.
  destruct (set_hash_frame a u) as (fa & Ha).
  destruct (set_hash_frame b u) as (fb & Hb).
  rewrite !Ha, Hb.
  split; [by destruct u|]. split; [done|]. split; [by destruct u|].
  split; [by destruct u|].
  intros Hne. rewrite <- Ha. unfold set_hash.
  change (String.eqb (String "#" a) "") with false. cbv beta iota.
  assert (Ascii.eqb "#" "#" = true) as -> by reflexivity.
  destruct a as [|c r]; [done|].
  change (String.eqb (String c r) "") with false. cbv beta iota.
  destruct (Ascii.eqb_spec c "#") as [->|Hc]; [by destruct (Hne r)|done].
Qed.

Lemma setHash_spec_witness :
  getHash (setHash "#foo" (fromPathname "/")) = "#foo"
  ∧ getHash (setHash "#foo" (fromPathname "/")) = getHash (setHash "foo" (fromPathname "/")).
Proof.
  split; [by vm_compute|].
  destruct (setHash_spec "foo" "" (fromPathname "/")) as (_ & _ & _ & _ & H).
  apply H. intros r. discriminate.
Defined.

(** X24.  The hash read from a [URLPath] of the module and written to
    another one is read back as it is; written back to the same one, it
    changes nothing unless the fragment is present and empty. *)
Theorem setHash_getHash (x y : URLPath) :
  valid x = true →
  getHash (setHash (getHash x) y) = getHash x
  ∧ modifyHash (fun h => h) x = setHash (getHash x) x
  ∧ (fragment (unpack x) ≠ Some "" → setHash (getHash x) x = x).
Proof.
  intros (us & pw & s & l & q & f & -> & _ & _ & Hf)%valid_shape.
  destruct y as [v]. unfold_setters.
  set (u := mkURL "https" us pw (Some phonyHost) None (PathList (s :: l)) q f).
  split; [|split; [done|]].
  - destruct (set_hash_hash v u) as (f' & -> & Hh); [by destruct f|]. exact Hh.
  - cbn [u fragment]. intros Hne. unfold hash, set_hash. cbn [u fragment].
    destruct f as [f|]; [|done].
    destruct (String.eqb_spec f "") as [->|Hfne]; [done|].
    change (String.eqb ("#" +:+ f) "") with false. cbv beta iota.
    change ("#" +:+ f) with (String "#" f). cbv beta iota.
    assert (Ascii.eqb "#" "#" = true) as -> by reflexivity.
    rewrite remove_tab_newline_id by (by apply fragment_not_space).
    by rewrite fragment_encode_id.
Qed.

Lemma setHash_getHash_witness :
  let x := setHash "a b" (fromPathname "/foo") in
  getHash x = "#a%20b"
  ∧ getHash (setHash (getHash x) (fromPathname "/bar")) = getHash x
  ∧ setHash (getHash x) x = x.
Proof.
  cbv zeta. split; [by vm_compute|].
  destruct (setHash_getHash (setHash "a b" (fromPathname "/foo")) (fromPathname "/bar"))
    as (H1 & _ & H2); [by vm_compute|].
  split; [exact H1|]. apply H2. by vm_compute.
Defined.

(** X25.  The three setters write independent parts of the URL: any two
    of them commute. *)
Theorem setters_commute (p : string) (ps : URLSearchParams) (h : string) (x : URLPath) :
  setPathname p (setParams ps x) = setParams ps (setPathname p x)
  ∧ setPathname p (setHash h x) = setHash h (setPathname p x)
  ∧ setParams ps (setHash h x) = setHash h (setParams ps x).
Proof.
  destruct x as [u]. unfold_setters.
  destruct (set_hash_frame h u) as (fh & Hh).
  destruct (set_search_frame (Params.toString ps) u) as (q & Hq & Hq').
  rewrite !Hh, Hq.
  destruct (set_pathname_frame p u) as (pa & Hpa).
  rewrite Hpa, (Hq' (with_path pa u)) by done.
  rewrite (Hq' (with_fragment fh u)) by done.
  assert (Hp1 : set_pathname p (with_query q u) = with_query q (with_path pa u)).
  { rewrite <- Hpa. unfold set_pathname, has_opaque_path.
    destruct u as [sch us pw ho po [o|l] qq ff]; reflexivity. }
  assert (Hp2 : set_pathname p (with_fragment fh u) = with_fragment fh (with_path pa u)).
  { rewrite <- Hpa. unfold set_pathname, has_opaque_path.
    destruct u as [sch us pw ho po [o|l] qq ff]; reflexivity. }
  rewrite Hp1, Hp2. by destruct u.
Qed.

(** *** Constructors *)

Lemma join_path_shape (s : string) (l : list string) :
  forallb clean_segment (s :: l) = true →
  ∃ r, join_path (s :: l) = String "/" r
       ∧ string_forallb (fun c => negb (one_of "?#" c)) r = true.
Proof.
  intros H. exists (s +:+ join_path l). split; [reflexivity|].
  change (s +:+ join_path l) with (String.app s (join_path l)).
  revert s H. induction l as [|s' l IH]; intros s H; cbn [forallb] in H.
  - apply andb_true_iff in H as [[[Hs _]%andb_true_iff _]%andb_true_iff _].
    cbn [join_path fold_right]. rewrite string_app_nil_r.
    eapply string_forallb_impl; [|exact Hs].
    intros c Hc. apply segment_char_ok_facts in Hc as (_ & _ & -> & _). done.
  - apply andb_true_iff in H as [Hs Hl].
    apply andb_true_iff in Hs as [[Hs _]%andb_true_iff _].
    cbn [join_path fold_right]. fold (join_path l).
    rewrite string_forallb_app. apply andb_true_iff. split.
    + eapply string_forallb_impl; [|exact Hs].
      intros c Hc. apply segment_char_ok_facts in Hc as (_ & _ & -> & _). done.
    + change ("/" +:+ s' +:+ join_path l) with (String "/" (s' +:+ join_path l)).
      cbn [string_forallb]. apply andb_true_iff. split; [done|]. by apply IH.
Qed.

(** X26.  [fromPathname] makes a [URLPath] of a pathname only: no
    parameters, no hash, no credentials; its pathname starts with a slash
    and has neither a question mark nor a number sign, so that [toString]
    is the pathname; and [fromPathname] of that pathname is the same
    [URLPath]. *)
Theorem fromPathname_spec (s : string) :
  getParams (fromPathname s) = Params.empty
  ∧ getHash (fromPathname s) = ""
  ∧ username (unpack (fromPathname s)) = ""
  ∧ password (unpack (fromPathname s)) = ""
  ∧ toString (fromPathname s) = getPathname (fromPathname s)
  ∧ (∃ r, getPathname (fromPathname s) = String "/" r
          ∧ string_forallb (fun c => negb (one_of "?#" c)) r = true)
  ∧ fromPathname (getPathname (fromPathname s)) = fromPathname s.
Proof.
  pose proof (fromPathname_valid s) as Hv.
  assert (Hq : query (unpack (fromPathname s)) = None) by reflexivity.
  assert (Hf : fragment (unpack (fromPathname s)) = None) by reflexivity.
  assert (Hu : username (unpack (fromPathname s)) = "") by reflexivity.
  assert (Hp : password (unpack (fromPathname s)) = "") by reflexivity.
  apply valid_shape in Hv as (us & pw & a & l & q & f & Hx & Hpa & _).
  rewrite Hx in *. cbn [unpack query fragment username password] in *. subst.
  unfold toString. unfold_setters.
  split; [reflexivity|]. split; [reflexivity|]. split; [reflexivity|].
  split; [reflexivity|].
  split; [unfold search, hash; cbn [query fragment]; by rewrite !string_app_nil_r|].
  split; [by apply join_path_shape|].
  unfold fromPathname, URL.clone.
  change (pathname (mkURL "https" "" "" (Some phonyHost) None (PathList (a :: l)) None None))
    with (join_path (a :: l)).
  by rewrite set_pathname_join.
Qed.

Lemma path_state_no_stop (sch : string) (s buf : string) (p : list string) :
  string_forallb (fun c => negb (one_of "?#" c)) s = true →
  path_state sch false s buf p = (fst (path_state sch true s buf p), "").
Proof.
  revert buf p. induction s as [|c r IH]; intros buf p; [done|].
  cbn [string_forallb]. intros [Hc Hr]%andb_true_iff.
  cbn [path_state]. apply negb_true_iff in Hc. rewrite Hc. cbn [negb andb].
  destruct (is_path_separator sch c); by apply IH.
Qed.

Lemma string_forallb_filter (p q : ascii → bool) (s : string) :
  string_forallb p s = true → string_forallb p (string_filter q s) = true.
Proof.
  induction s as [|c r IH]; [done|]. cbn [string_forallb string_filter].
  intros [Hc Hr]%andb_true_iff. destruct (q c); [|by apply IH].
  cbn [string_forallb]. by rewrite Hc, IH.
Qed.

Lemma string_forallb_strip_trailing (p : ascii → bool) (s : string) :
  string_forallb p s = true → string_forallb p (strip_trailing s) = true.
Proof.
  induction s as [|c r IH]; [done|]. cbn [string_forallb strip_trailing].
  intros [Hc Hr]%andb_true_iff. specialize (IH Hr).
  destruct (strip_trailing r) as [|d r'].
  - destruct (is_c0_or_space c); [done|]. cbn [string_forallb]. by rewrite Hc.
  - cbn [string_forallb] in *. by rewrite Hc, IH.
Qed.

Section FromString.

Variable hp : bool → string → option string.
Hypothesis Hhp : hp false phonyHost = Some phonyHost.

(** X27.  On a string that starts with a slash and has neither a question
    mark nor a number sign, [fromString] is [fromPathname] of the string
    without its trailing spaces and controls, which [fromPathname] alone
    would keep. *)
Theorem fromString_fromPathname (p : string) :
  string_forallb (fun c => negb (one_of "?#" c)) p = true →
  fromString hp (String "/" p) = Ok (fromPathname (String "/" (strip_trailing p))).
Proof.
  intros Hp.
  assert (Hprep : string_forallb (fun c => negb (one_of "?#" c)) (prep p) = true).
  { unfold prep, remove_tab_newline.
    by apply string_forallb_filter, string_forallb_strip_trailing. }
  assert (Hfrom : fromPathname (String "/" (strip_trailing p))
                  = pack (parse_on_phonyBase (prep p))).
  { unfold fromPathname, URL.clone, set_pathname, parse_on_phonyBase.
    rewrite (path_state_no_stop _ _ _ _ Hprep). reflexivity. }
  rewrite Hfrom. unfold fromString, O.tryCatch.
  rewrite origin_phonyBase.
  change ("https://urlpath.fp-ts-std.samhh.com" +:+ String "/" p)
    with ("https://urlpath.fp-ts-std.samhh.com/" +:+ p).
  rewrite (URL_new_phony_slash hp Hhp).
  cbn [O.filter]. unfold hasPhonyBase.
  rewrite parse_on_phonyBase_origin, String.eqb_refl. reflexivity.
Qed.

End FromString.

Lemma fromString_fromPathname_witness :
  fromString ascii_host_parser "/foo bar " = Ok (fromPathname "/foo bar")
  ∧ fromPathname "/foo bar " ≠ fromPathname "/foo bar".
Proof.
  split; [|by vm_compute].
  by apply (fromString_fromPathname ascii_host_parser eq_refl "foo bar ").
Defined.

(** *** The scheme of a parsed URL *)

Section Schemes.

Variable hp : bool → string → option string.

Lemma file_finish_scheme (hst s buf : string) (start : bool) (v : URL) :
  file_finish hst s buf start = Ok v → scheme v = "file".
Proof.
  unfold file_finish.
  destruct (if start then path_start_state "file" s buf
            else let '(p, rest) := path_state "file" false s buf [] in
                 let '(q, f) := query_fragment_state "file" rest in
                 (PathList p, q, f)) as [[p q] f].
  by intros [= <-].
Qed.

Lemma file_state_scheme (s : string) (v : URL) :
  file_state hp s = Ok v → scheme v = "file".
Proof.
  assert (Hhost : ∀ r, file_host_state hp r = Ok v → scheme v = "file").
  { intros r. unfold file_host_state.
    destruct (span_until _ r) as [buf rest].
    destruct (is_drive_letter buf); [apply file_finish_scheme|].
    destruct (String.eqb buf ""); [apply file_finish_scheme|].
    destruct (hp false buf); [apply file_finish_scheme|done]. }
  unfold file_state. destruct s as [|c r]; [apply file_finish_scheme|].
  destruct (is_slash c); [|apply file_finish_scheme].
  destruct r as [|d r']; [apply file_finish_scheme|].
  destruct (is_slash d); [apply Hhost|apply file_finish_scheme].
Qed.

Lemma authority_state_scheme (sch s : string) (v : URL) :
  authority_state hp sch s = Ok v → scheme v = sch.
Proof.
  unfold authority_state.
  destruct (span_until (is_authority_delimiter sch) s) as [auth rest].
  destruct (match split_last (Ascii.eqb "@") auth with
            | Some (c, h) => (Some c, h)
            | None => (None, auth)
            end) as [cred hostport].
  destruct (_ && _); [done|].
  destruct (match cred with
            | Some c => match split_first (Ascii.eqb ":") c with
                        | Some (u, p) => (u, p)
                        | None => (c, "")
                        end
            | None => ("", "")
            end) as [user pass].
  destruct (host_span false hostport) as [h port_text].
  destruct (path_start_state sch rest "") as [[p q] f].
  destruct port_text as [pt|].
  - destruct (String.eqb h ""); [done|].
    destruct (hp _ h) as [hst|]; [|done].
    destruct (port_state sch pt) as [prt|e]; [|done].
    cbn [result_bind]. by intros [= <-].
  - destruct (_ && _); [done|].
    destruct (hp _ h) as [hst|]; [|done]. by intros [= <-].
Qed.

Lemma not_special_state_scheme (sch s : string) (v : URL) :
  not_special_state hp sch s = Ok v → scheme v = sch.
Proof.
  assert (Hh : ∀ r, (let '(p, rest') := path_state sch false r "" [] in
                     let '(q, f) := query_fragment_state sch rest' in
                     Ok (mkURL sch "" "" None None (PathList p) q f)) = Ok v →
                    scheme v = sch).
  { intros r. destruct (path_state sch false r "" []) as [p rest'].
    destruct (query_fragment_state sch rest') as [q f]. by intros [= <-]. }
  assert (Ho : (let '(p, rest') := opaque_path_state s in
                let '(q, f) := query_fragment_state sch rest' in
                Ok (mkURL sch "" "" None None (OpaquePath p) q f)) = Ok v →
               scheme v = sch).
  { destruct (opaque_path_state s) as [p rest'].
    destruct (query_fragment_state sch rest') as [q f]. by intros [= <-]. }
  unfold not_special_state. destruct s as [|c r]; [exact Ho|].
  destruct (Ascii.eqb c "/"); [|exact Ho].
  destruct r as [|d r']; [apply Hh|].
  destruct (Ascii.eqb d "/"); [apply authority_state_scheme|apply Hh].
Qed.

(** A parsed URL on a special scheme other than [file] is well formed. *)
Lemma URL_new_wf (input : string) (v : URL) :
  URL_new hp input = Ok v →
  is_special (scheme v) = true → scheme v ≠ "file" → wf v = true.
Proof.
  unfold URL_new. destruct (scheme_state _) as [[sch rest]|]; [|done].
  destruct (String.eqb_spec sch "file") as [->|Hsch].
  - intros H%file_state_scheme. congruence.
  - destruct (is_special sch) eqn:Hsp.
    + intros H _ _. by apply authority_state_wf in H as [H _].
    + intros H%not_special_state_scheme. congruence.
Qed.

(** X28.  When the platform reads the serialization of [u] as a URL [v]
    on a special scheme other than [file], [fromURL u] succeeds with the
    pathname, the parameters and the hash of [v], without credentials, on
    the placeholder origin. *)
Theorem fromURL_spec (u v : URL) :
  URL_new hp (href u) = Ok v →
  is_special (scheme v) = true → scheme v ≠ "file" →
  ∃ y, fromURL hp u = Ok y
       ∧ getPathname y = pathname v
       ∧ getParams y = searchParams v
       ∧ getHash y = hash v
       ∧ username (unpack y) = "" ∧ password (unpack y) = ""
       ∧ isURLPath hp (ForeignURL (unpack y)) = true.
Proof.
  intros Hnew Hsp Hsch. pose proof (URL_new_wf _ _ Hnew Hsp Hsch) as Hwf.
  unfold fromURL. rewrite Hnew. cbn [result_map]. eexists. split; [reflexivity|].
  unfold_setters. unfold ensurePhonyBase, URL.clone.
  destruct v as [sch us pw ho po pa q f]. unfold wf in Hwf.
  cbn [path query fragment] in Hwf.
  apply andb_true_iff in Hwf as [[Hpa Hq]%andb_true_iff Hf].
  destruct pa as [|[|s l]]; try done.
  set (v := mkURL sch us pw ho po (PathList (s :: l)) q f).
  change (pathname v) with (join_path (s :: l)).
  rewrite set_pathname_join by done.
  destruct (set_search_serialized
              (with_path (PathList (s :: l)) phonyBase) (searchParams v))
    as (q' & -> & Hsp' & _).
  destruct (set_hash_hash
              (with_query q' (with_path (PathList (s :: l)) phonyBase)) v)
    as (f' & -> & Hh'); [by destruct f|].
  split; [reflexivity|]. split; [exact Hsp'|]. split; [exact Hh'|].
  split; [reflexivity|]. split; reflexivity.
Qed.

(** X29.  [toURLO] is [None] exactly when the base does not parse,
    whatever the [URLPath]; when it is [Some], it holds the URL that [toURL]
    returns, whatever the error callback. *)
Theorem toURLO_toURL {E : Type} (f : Error → E) (base : string) (x y : URLPath) :
  (toURLO hp base x = None ↔ ∃ e, URL_new hp base = Throw e)
  ∧ (toURLO hp base x = None ↔ toURLO hp base y = None)
  ∧ (∀ u, toURLO hp base x = Some u ↔ toURL hp f base x = right u).
Proof.
  unfold toURLO, toURL, URL.parse.
  destruct (URL_new hp base) as [b|e]; cbn [E.map O.fromEither].
  - split; [split; [done|by intros [e ?]]|]. split; [done|].
    intros u. split; intros [= <-]; reflexivity.
  - split; [split; [by eexists|done]|]. split; [done|]. intros u. done.
Qed.

(** X30.  [isURLPath] accepts what [fromPathname] and [fromURL] build and
    what the setters make of a value of the module; it accepts no URL whose
    scheme is neither [https] nor [blob], and nothing that is not a
    URL. *)
Theorem isURLPath_spec (s p h : string) (ps : URLSearchParams) (u : URL) (x : URLPath) :
  isURLPath hp (ForeignURL (unpack (fromPathname s))) = true
  ∧ (∀ y, fromURL hp u = Ok y → isURLPath hp (ForeignURL (unpack y)) = true)
  ∧ (valid x = true →
     isURLPath hp (ForeignURL (unpack x)) = true
     ∧ isURLPath hp (ForeignURL (unpack (setHash h (setParams ps (setPathname p x))))) = true)
  ∧ (isURLPath hp (ForeignURL u) = true → scheme u = "https" ∨ scheme u = "blob")
  ∧ isURLPath hp ForeignOther = false.
Proof.
  assert (Hv : ∀ z, valid z = true → isURLPath hp (ForeignURL (unpack z)) = true).
  { intros z [Hb _]%valid_inv. by apply (onPhonyBase_hasPhonyBase hp) in Hb. }
  split; [apply Hv, fromPathname_valid|].
  split.
  { intros y H. by apply Hv, (fromURL_valid hp u). }
  split.
  { intros Hx. split; [by apply Hv|].
    by apply Hv, setHash_valid, setParams_valid, setPathname_valid. }
  split; [|reflexivity].
  cbn [isURLPath]. rewrite origin_phonyBase. unfold origin.
  destruct (String.eqb_spec (scheme u) "blob") as [Hb|Hb]; [by right|].
  intros H. left. destruct u as [sch us pw ho po pa q f].
  cbn [scheme] in *. unfold default_port, tuple_origin in H. cbn [scheme] in H.
  destruct (String.eqb_spec sch "ftp") as [->|_]; [by vm_compute in H|].
  destruct (String.eqb_spec sch "http") as [->|_]; [by vm_compute in H|].
  destruct (String.eqb_spec sch "https") as [->|_]; [done|].
  destruct (String.eqb_spec sch "ws") as [->|_]; [by vm_compute in H|].
  destruct (String.eqb_spec sch "wss") as [->|_]; [by vm_compute in H|].
  by vm_compute in H.
Qed.

End Schemes.

Lemma fromURL_spec_witness :
  let u := mkURL "http" "me" "" (Some "samhh.com") (Some 8080%N)
             (PathList ["foo"; "bar"]) (Some "a=b") (Some "c") in
  href u = "http://me@samhh.com:8080/foo/bar?a=b#c"
  ∧ ∃ y, fromURL ascii_host_parser u = Ok y
         ∧ getPathname y = "/foo/bar"
         ∧ getParams y = [("a", "b")]
         ∧ getHash y = "#c"
         ∧ username (unpack y) = "" ∧ password (unpack y) = ""
         ∧ isURLPath ascii_host_parser (ForeignURL (unpack y)) = true.
Proof.
  cbv zeta. split; [by vm_compute|].
  set (u := mkURL "http" "me" "" (Some "samhh.com") (Some 8080%N)
              (PathList ["foo"; "bar"]) (Some "a=b") (Some "c")).
  by apply (fromURL_spec ascii_host_parser u u); vm_compute.
Defined.

Lemma isURLPath_spec_witness :
  let x := fromPathname "/foo" in
  valid x = true
  ∧ isURLPath ascii_host_parser (ForeignURL (unpack x)) = true
  ∧ isURLPath ascii_host_parser
      (ForeignURL (unpack (setHash "h" (setParams [("a", "b")] (setPathname "/p" x)))))
    = true.
Proof.
  cbv zeta. split; [by vm_compute|].
  apply (isURLPath_spec ascii_host_parser "" "/p" "h" [("a", "b")] phonyBase
           (fromPathname "/foo")).
  by vm_compute.
Defined.

End URLPathLaws.

(** ** The examples of the documentation and of the tests *)

Module Examples.

Import Platform.

Example NonEmptyString_fromString :
  NonEmptyString.fromString "" = None
  ∧ NonEmptyString.fromString "x" = Some (pack "x").
Proof. split; reflexivity. Qed.

Example Params_lookup :
  let x := Params.fromString "a=b&c=d1&c=d2" in
  Params.lookup "a" x = Some ["b"]
  ∧ Params.lookup "c" x = Some ["d1"; "d2"]
  ∧ Params.lookup "e" x = None
  ∧ Params.lookupFirst "c" x = Some "d1"
  ∧ Params.lookupFirst "e" x = None.
Proof. repeat split; reflexivity. Qed.

Example Params_tuples_and_strings :
  Params.toTuples (Params.fromString "a=b&c=d&a=e") = [("a", "b"); ("c", "d"); ("a", "e")]
  ∧ Params.toString (Params.fromString "a=b&c=d") = "a=b&c=d"
  ∧ Params.toLeadingString (Params.fromString "") = ""
  ∧ Params.toLeadingString (Params.fromString "a=b") = "?a=b"
  ∧ Params.keys (Params.fromString "a=b&c=d&a=e") = ["a"; "c"; "a"]
  ∧ Params.values (Params.fromString "a=b&c=d&a=e") = ["b"; "d"; "e"]
  ∧ Params.size (Params.fromString "a=b&c=d&a=e") = 3%nat.
Proof. repeat split; reflexivity. Qed.

Example Params_updates :
  let x := Params.fromString "a=b&c=d" in
  Params.lookupFirst "c" (Params.upsertAt "c" "e" x) = Some "e"
  ∧ Params.lookup "c" (Params.appendAt "c" "e" x) = Some ["d"; "e"]
  ∧ Params.lookup "a" (Params.deleteAt "a" (Params.fromString "a=b&c=d&a=e")) = None
  ∧ Params.fromRecord (<["d" := ["e"]]> (<["a" := ["b"; "c"]]> ∅))
    = Params.fromString "a=b&a=c&d=e".
Proof. repeat split; by vm_compute. Qed.

Example Params_toRecord :
  R.own (Params.toRecord (Params.fromString "a=b&c=d&a=e"))
  = <["c" := ["d"]]> (<["a" := ["b"; "e"]]> ∅).
Proof. by vm_compute. Qed.

Example URLPath_fromString_parts :
  URLPath.fromString ascii_host_parser "/foo?bar=yes#baz"
  = Ok (pack (mkURL "https" "" "" (Some URLPath.phonyHost) None (PathList ["foo"])
                (Some "bar=yes") (Some "baz")))
  ∧ URL.getParams
      (mkURL "https" "" "" (Some URLPath.phonyHost) None (PathList ["foo"])
         (Some "bar=yes") (Some "baz")) = [("bar", "yes")].
Proof. split; reflexivity. Qed.

Example URLPath_fromString_paths :
  href_of (URLPath.fromString ascii_host_parser "") = Ok "https://urlpath.fp-ts-std.samhh.com/"
  ∧ href_of (URLPath.fromString ascii_host_parser "//") = Ok "https://urlpath.fp-ts-std.samhh.com//"
  ∧ href_of (URLPath.fromString ascii_host_parser "//x") = Ok "https://urlpath.fp-ts-std.samhh.com//x"
  ∧ href_of (URLPath.fromString ascii_host_parser ":123") = Ok "https://urlpath.fp-ts-std.samhh.com/:123"
  ∧ href_of (URLPath.fromString ascii_host_parser ".net") = Ok "https://urlpath.fp-ts-std.samhh.com/.net"
  ∧ href_of (URLPath.fromString ascii_host_parser "a:") = Ok "https://urlpath.fp-ts-std.samhh.com/a:"
  ∧ href_of (URLPath.fromString ascii_host_parser "//samhh.com/foo/bar")
    = Ok "https://urlpath.fp-ts-std.samhh.com//samhh.com/foo/bar"
  ∧ href_of (URLPath.fromString ascii_host_parser "/.") = Ok "https://urlpath.fp-ts-std.samhh.com/"
  ∧ href_of (URLPath.fromString ascii_host_parser "/.a/.") = Ok "https://urlpath.fp-ts-std.samhh.com/.a/"
  ∧ href_of (URLPath.fromString ascii_host_parser "/f/g.h?i=j&k=l&i=m#n")
    = Ok "https://urlpath.fp-ts-std.samhh.com/f/g.h?i=j&k=l&i=m#n".
Proof. repeat split; reflexivity. Qed.

Example URLPath_fromPathname :
  URLPath.getPathname (URLPath.fromPathname "/foo?bar=baz") = "/foo%3Fbar=baz"
  ∧ pathname_on "https://samhh.com" "foo bar?" = right "/foo%20bar%3F"
  ∧ pathname_on "https://samhh.com" "/foo/bar/../baz" = right "/foo/baz"
  ∧ pathname_on "https://samhh.com" "/foo/bar/../../../baz" = right "/baz"
  ∧ pathname_on "https://samhh.com" "./baz" = right "/baz"
  ∧ pathname_on "https://samhh.com" "//" = right "//".
Proof. repeat split; reflexivity. Qed.

Example URLPath_toString :
  URLPath.toString
    (URLPath.setHash "baz"
       (URLPath.setParams (Params.fromString "bar=2000") (URLPath.fromPathname "/foo")))
  = "/foo?bar=2000#baz".
Proof. reflexivity. Qed.

Example URLPath_isURLPath :
  URLPath.isURLPath ascii_host_parser URLPath.ForeignOther = false
  ∧ (isURLPath_of_string "https://samhh.com" = Some false)
  ∧ (isURLPath_of_string "https://urlpath.fp-ts-std.samhh.com" = Some true)
  ∧ (isURLPath_of_string "https://urlpath.fp-ts-std.samhh.com/f/g.h?i=j&k=l&i=m#n" = Some true).
Proof. repeat split; reflexivity. Qed.

Example URLPath_toURLO :
  href <$> URLPath.toURLO ascii_host_parser "https://samhh.com" (URLPath.fromPathname "/foo")
  = Some "https://samhh.com/foo"
  ∧ URLPath.toURLO ascii_host_parser "bad base" (URLPath.fromPathname "/foo") = None.
Proof. split; reflexivity. Qed.

End Examples.
